(** * chess_analyser: the parallel position-analysis pipeline of [app.py]

    A shallow embedding of [allowed_file], [configure_stockfish],
    [analyze_position], [analyze_pgn_async], [upload_file],
    [get_progress], [get_results] and [MAX_WORKERS], followed by the
    properties of the natural-language specification that were checked
    against it.

    Conventions of the embedding:
    - Python [int] is [Z]; Python [float] is a rational rounded to 53
      significant bits (module [Binary64]);
    - a Python [dict] with string keys is a [gmap string _];
    - a computation that may raise is an [Exc]; a computation that also
      drives a stateful object (an engine session, the progress registry)
      is an [SE] (state and exception);
    - python-chess and the engine process are outside the repository: they
      are the interfaces [ChessLib] and [EngineLib]; the headers of a
      parsed game are the tags of its text over python-chess's Seven Tag
      Roster ([headers]). *)

From Stdlib Require Import ZArith QArith Qround Qabs Qpower Lqa Lia Floats Uint63.
From stdpp Require Import base option list gmap strings sorting.
From Stdlib Require Import Ascii.

Local Open Scope string_scope.
Local Open Scope list_scope.
Local Open Scope Z_scope.

(** ** Exceptions and state *)

(** The outcome of a Python computation: a value, or an exception, of
    which the code only ever uses the message ([str(e)]). *)
Inductive Exc (A : Type) : Type :=
| Ok (a : A)
| Raise (msg : string).
Arguments Ok {A} a.
Arguments Raise {A} msg.

#[global] Instance Exc_ret : MRet Exc := fun A a => Ok a.
#[global] Instance Exc_bind : MBind Exc := fun A B f c =>
  match c with
  | Ok a => f a
  | Raise msg => Raise msg
  end.

(** [d[k]] on a dictionary field that may be absent: [KeyError]. *)
Definition getitem {A : Type} (key : string) (field : option A) : Exc A :=
  match field with
  | Some a => Ok a
  | None => Raise key
  end.

(** [l[0]]: [IndexError] on an empty list. *)
Definition first {A : Type} (l : list A) : Exc A :=
  match l with
  | a :: _ => Ok a
  | [] => Raise "list index out of range"
  end.

(** A computation over a mutable object of state [S]: the state is kept
    when an exception is raised, since the handler goes on using the
    object. *)
Definition SE (S A : Type) : Type := S -> S * Exc A.

#[global] Instance SE_ret {S} : MRet (SE S) := fun A a s => (s, Ok a).
#[global] Instance SE_bind {S} : MBind (SE S) := fun A B f c s =>
  match c s with
  | (s', Ok a) => f a s'
  | (s', Raise msg) => (s', Raise msg)
  end.

Definition lift {S A} (c : Exc A) : SE S A := fun s => (s, c).

(** [try: c except Exception: pass] *)
Definition try_pass {S} (c : SE S unit) : SE S unit := fun s =>
  match c s with
  | (s', _) => (s', Ok tt)
  end.

(** ** Binary64 arithmetic

    Python floats are IEEE 754 binary64. A float is modelled by the
    rational it denotes, and an operation by the exact operation followed
    by rounding to nearest, ties to even, at 53 bits of precision. The
    exponent range is not modelled: the quantities of this program
    (centipawn gaps, ratios of task counts) are far inside it. *)
Module Binary64.

Definition prec : Z := 53.

(** Numerator and denominator of [(n/d) / 2^e]. *)
Definition scaled_num (n e : Z) : Z := n * 2 ^ Z.max 0 (- e).
Definition scaled_den (d e : Z) : Z := d * 2 ^ Z.max 0 e.

(** [floor (log2 (n/d))] for positive [n] and [d]. *)
Definition floor_log2 (n d : Z) : Z :=
  let k := Z.log2 n - Z.log2 d in
  if scaled_den d k <=? scaled_num n k then k else k - 1.

(** The integer nearest to [n/d], ties to even ([0 <= n], [0 < d]). *)
Definition round_half_even (n d : Z) : Z :=
  let q := n / d in
  match 2 * (n mod d) ?= d with
  | Lt => q
  | Gt => q + 1
  | Eq => if Z.even q then q else q + 1
  end.

(** The float nearest to [n/d], for positive [n] and [d]: a 53-bit
    significand [m] and an exponent [e], denoting [m * 2^e]. *)
Definition significand (n d : Z) : Z * Z :=
  let e := floor_log2 n d - (prec - 1) in
  (round_half_even (scaled_num n e) (scaled_den d e), e).

Definition value (me : Z * Z) : Q :=
  Qmake (fst me * 2 ^ Z.max 0 (snd me)) (Z.to_pos (2 ^ Z.max 0 (- snd me))).

Definition round (q : Q) : Q :=
  match Qnum q with
  | 0 => 0%Q
  | Zpos n => value (significand (Zpos n) (Zpos (Qden q)))
  | Zneg n => Qopp (value (significand (Zpos n) (Zpos (Qden q))))
  end.

End Binary64.

(** [a / b] on two ints (true division): the correctly rounded quotient,
    [ZeroDivisionError] when [b] is zero. *)
Definition int_truediv (a b : Z) : Exc Q :=
  if b =? 0 then Raise "division by zero"
  else Ok (Binary64.round (Qmake (a * Z.sgn b) (Z.to_pos (Z.abs b)))).

(** [x * k] on a float and an int: the int is converted, then the
    product is rounded. *)
Definition float_mul_int (x : Q) (k : Z) : Q :=
  Binary64.round (Qmult x (Binary64.round (inject_Z k))).

(** [a / y] on an int and a non-zero float. *)
Definition int_div_float (a : Z) (y : Q) : Q :=
  Binary64.round (Qdiv (Binary64.round (inject_Z a)) y).

(** [int(x)] on a float: truncation towards zero. *)
Definition int_of_float (x : Q) : Z := Z.quot (Qnum x) (Zpos (Qden x)).

(** The same computations on the kernel's hardware floats, to cross-check
    the model at concrete inputs. *)
Definition hw_percent (completed total : Uint63.int) : float :=
  PrimFloat.mul (PrimFloat.div (PrimFloat.of_uint63 completed) (PrimFloat.of_uint63 total))
                (PrimFloat.of_uint63 100%uint63).

(** ** Configuration (lines 13-31) *)

Definition STOCKFISH_PATH : string := "stockfish_linux/stockfish-ubuntu-x86-64-avx2".
Definition EVAL_DIFFERENCE_THRESHOLD : Z := 100.
Definition STOCKFISH_HASH_SIZE : Z := 64.

(** [MAX_WORKERS = os.cpu_count() or 4]: [os.cpu_count()] is [None] when
    the number of CPUs cannot be determined, and [x or 4] is [4] for a
    falsy [x] ([None] or [0]). *)
Definition MAX_WORKERS (cpu_count : option Z) : Z :=
  match cpu_count with
  | Some n => if n =? 0 then 4 else n
  | None => 4
  end.

(** ** The external libraries *)

(** What the program uses of python-chess: boards, moves and scores. *)
Class ChessLib : Type := {
  Board : Type;
  Move : Type;
  PovScore : Type;
  Score : Type;
  (** the state of [board] after [board.push(move)] *)
  push : Board -> Move -> Board;
  (** [board.fullmove_number] *)
  fullmove_number : Board -> Z;
  (** [board.turn == chess.WHITE] *)
  white_to_move : Board -> bool;
  (** [board.board_fen()] *)
  board_fen : Board -> string;
  (** [board.san(move)], which raises on a move the board cannot render *)
  san : Board -> Move -> Exc string;
  (** [pov_score.white()] *)
  white : PovScore -> Score;
  (** [score.score(mate_score=m)], [None] when the score does not resolve *)
  score : Score -> Z -> option Z;
  (** [str(score)] *)
  score_str : Score -> string;
}.

(** One entry of the engine's answer: python-chess's [InfoDict], whose
    keys are all optional. *)
Record InfoDict `{ChessLib} : Type := {
  info_score : option PovScore;
  info_pv : option (list Move);
}.

(** The options [configure_stockfish] sets. *)
Inductive EngineOption : Type :=
| Threads (n : Z)
| Hash (mb : Z)
| SkillLevel (n : Z)
| UCI_LimitStrength (b : bool).

(** One engine process: [Session] is its state, and every request may
    raise (process gone, time-out, malformed answer) and leaves the
    process in a new state. *)
Class EngineLib `{ChessLib} : Type := {
  Session : Type;
  (** [chess.engine.SimpleEngine.popen_uci(path)] *)
  popen_uci : string -> Exc Session;
  (** [engine.configure({...})] *)
  configure : EngineOption -> SE Session unit;
  (** [engine.analyse(board, chess.engine.Limit(time=t), multipv=n)] *)
  analyse : Board -> Q -> Z -> SE Session (list InfoDict);
  (** [engine.quit()] *)
  quit : SE Session unit;
}.

(** ** Data of the pipeline *)

(** The dictionary [analyze_position] returns for a critical moment. *)
Record CriticalMoment : Type := {
  fen : string;
  move_number : Z;
  cm_turn : string;
  best_move : string;
  best_move_eval : string;
  second_best_move : string;
  second_best_move_eval : string;
  difference : Q;
}.

(** The dictionary the enumerator builds for one ply (lines 197-202).
    [B] is what stands for the board: a reference into the heap of board
    objects while the games are replayed, the board itself when a worker
    reads it. *)
Record PositionData (B : Type) : Type := {
  pd_board : B;
  pd_move_number : Z;
  pd_turn : string;
  pd_game_number : Z;
}.
Arguments pd_board {B} _.
Arguments pd_move_number {B} _.
Arguments pd_turn {B} _.
Arguments pd_game_number {B} _.

(** ** [configure_stockfish] (lines 45-62) *)

Definition configure_stockfish `{EngineLib} : SE Session unit :=
  try_pass (
    configure (Threads 1);;
    configure (Hash STOCKFISH_HASH_SIZE);;
    configure (SkillLevel 20);;
    configure (UCI_LimitStrength false)).

(** ** [analyze_position] (lines 65-131) *)

(** Lines 94-125 without the calls to [engine.quit()]: the decision on
    the engine's ranked answer [info]. *)
Definition detect `{ChessLib} (board : Board) (move_number : Z) (turn : string)
    (info : list InfoDict) : Exc (option CriticalMoment) :=
  match info with
  | info0 :: info1 :: _ =>
    pov1 ← getitem "score" (info_score info0);
    let score1 := white pov1 in
    pov2 ← getitem "score" (info_score info1);
    let score2 := white pov2 in
    match score score1 10000, score score2 10000 with
    | Some eval1_cp, Some eval2_cp =>
      let difference := Z.abs (eval1_cp - eval2_cp) in
      if (EVAL_DIFFERENCE_THRESHOLD <? difference)
         && ((-50 <? eval2_cp) && (eval2_cp <? 50)) then
        best ← (getitem "pv" (info_pv info0) ≫= first) ≫= san board;
        second ← (getitem "pv" (info_pv info1) ≫= first) ≫= san board;
        Ok (Some {| fen := board_fen board;
                    move_number := move_number;
                    cm_turn := turn;
                    best_move := best;
                    best_move_eval := score_str score1;
                    second_best_move := second;
                    second_best_move_eval := score_str score2;
                    difference := int_div_float difference 100 |})
      else Ok None
    | _, _ => Ok None
    end
  | _ => Ok None
  end.

(** The [try] block, lines 83-125, once the engine is started. *)
Definition analyze_position_try `{EngineLib} (position_data : PositionData Board)
    : SE Session (option CriticalMoment) :=
  let board := pd_board position_data in
  configure_stockfish;;
  position_before ← analyse board (3 # 10)%Q 1;
  match position_before with
  | [] => quit;; mret None
  | _ =>
    info ← analyse board (1 # 2)%Q 3;
    result ← lift (detect board (pd_move_number position_data)
                          (pd_turn position_data) info);
    quit;; mret result
  end.

(** The whole function: [Ok None] is [return None], [Raise] an exception
    that leaves the function. The handler (lines 127-131) quits the engine
    when [engine] was bound, that is when [popen_uci] returned. *)
Definition analyze_position `{EngineLib} (position_data : PositionData Board)
    : Exc (option CriticalMoment) :=
  match popen_uci STOCKFISH_PATH with
  | Raise _ => Ok None
  | Ok engine =>
    match analyze_position_try position_data engine with
    | (_, Ok result) => Ok result
    | (engine', Raise _) =>
      match quit engine' with
      | (_, Ok _) => Ok None
      | (_, Raise msg) => Raise msg
      end
    end
  end.

(** ** Games and the position enumerator (lines 168-209) *)

(** What [chess.pgn.read_game] returns for one game. *)
Record Game `{ChessLib} : Type := {
  (** the tag pairs of the game's PGN text, [[White "..."]] and the like *)
  tags : gmap string string;
  (** the state of the board [game.board()] creates *)
  game_board : Board;
  (** [list(game.mainline_moves())] *)
  mainline_moves : list Move;
}.

(** python-chess's [chess.pgn.Headers()]: the headers of a new [Game]
    hold the Seven Tag Roster with PGN's placeholders. *)
Definition SEVEN_TAG_ROSTER : gmap string string :=
  {[ "Event" := "?"; "Site" := "?"; "Date" := "????.??.??"; "Round" := "?";
     "White" := "?"; "Black" := "?"; "Result" := "*" ]}.

(** [game.headers]: [read_game] creates a [Game] and sets on its headers
    the tags it reads, so that the tags of the roster that the text lacks
    keep their placeholder. *)
Definition headers `{ChessLib} (game : Game) : gmap string string :=
  tags game ∪ SEVEN_TAG_ROSTER.

(** The dictionary [game_info] (lines 182-190). *)
Record GameInfo : Type := {
  game_number : Z;
  gi_white : string;
  gi_black : string;
  gi_result : string;
  gi_date : string;
  gi_event : string;
  critical_moments : list CriticalMoment;
}.

(** [d.get(key, fallback)] *)
Definition dict_get {A} (key : string) (fallback : A) (d : gmap string A) : A :=
  default fallback (d !! key).

Definition make_game_info (game_count : Z) (hd : gmap string string) : GameInfo :=
  {| game_number := game_count;
     gi_white := dict_get "White" "Inconnu" hd;
     gi_black := dict_get "Black" "Inconnu" hd;
     gi_result := dict_get "Result" "*" hd;
     gi_date := dict_get "Date" "Inconnu" hd;
     gi_event := dict_get "Event" "Inconnu" hd;
     critical_moments := [] |}.

Definition side_name (white_turn : bool) : string :=
  if white_turn then "Blancs" else "Noirs".

(** Boards are mutable objects: [board.push(move)] changes the board in
    place and [board.copy()] creates a new object. The heap holds the
    state of every board object; a reference is an index into it. *)
Definition alloc {B} (b : B) (heap : list B) : nat * list B :=
  (length heap, heap ++ [b]).

(** The loop of lines 195-207 over the moves of one game, on the board
    object [board]. *)
Fixpoint replay `{ChessLib} (board : nat) (game_count : Z) (moves : list Move)
    (heap : list Board) (all_positions : list (PositionData nat))
    : list Board * list (PositionData nat) :=
  match moves with
  | [] => (heap, all_positions)
  | move :: moves' =>
    match heap !! board with
    | None => (heap, all_positions)
    | Some b =>
      let (copy, heap1) := alloc b heap in
      let position_data :=
        {| pd_board := copy;
           pd_move_number := fullmove_number b;
           pd_turn := side_name (white_to_move b);
           pd_game_number := game_count |} in
      replay board game_count moves' (<[board := push b move]> heap1)
             (all_positions ++ [position_data])
    end
  end.

(** The local variables of the first pass. *)
Record FirstPass `{ChessLib} : Type := {
  fp_heap : list Board;
  all_games : list GameInfo;
  all_positions : list (PositionData nat);
}.

(** The [while True] loop of lines 174-209 over the games of the file. *)
Fixpoint read_games `{ChessLib} (games : list Game) (game_count : Z)
    (st : FirstPass) : FirstPass :=
  match games with
  | [] => st
  | game :: rest =>
    let game_count := game_count + 1 in
    let game_info := make_game_info game_count (headers game) in
    let (board, heap) := alloc (game_board game) (fp_heap st) in
    let (heap', positions) :=
      replay board game_count (mainline_moves game) heap (all_positions st) in
    read_games rest game_count
      {| fp_heap := heap';
         all_games := all_games st ++ [game_info];
         all_positions := positions |}
  end.

Definition first_pass `{ChessLib} (games : list Game) : FirstPass :=
  read_games games 0 {| fp_heap := []; all_games := []; all_positions := [] |}.

(** What a worker reads through [position_data["board"]]. *)
Definition snapshot {B} (heap : list B) (pd : PositionData nat)
    : option (PositionData B) :=
  b ← heap !! pd_board pd;
  Some {| pd_board := b;
          pd_move_number := pd_move_number pd;
          pd_turn := pd_turn pd;
          pd_game_number := pd_game_number pd |}.

(** ** The progress registry (lines 36-37) *)

(** The values stored in an entry of [analysis_progress]. *)
Inductive pyval : Type :=
| VNone
| VInt (z : Z)
| VStr (s : string)
| VGames (games : list GameInfo).

Definition initial_fields : gmap string pyval :=
  <["status" := VStr "starting"]> (
  <["progress" := VInt 0]> (
  <["total_moves" := VInt 0]> (
  <["current_move" := VInt 0]> (
  <["results" := VNone]> (
  <["error" := VNone]> ∅))))).

(** Lines 143-164: a new entry, or [dict.update] of the one that is
    there, which keeps the keys the update does not name. *)
Definition init_progress (analysis_id : string)
    (reg : gmap string (gmap string pyval)) : gmap string (gmap string pyval) :=
  match reg !! analysis_id with
  | None => <[analysis_id := initial_fields]> reg
  | Some progress => <[analysis_id := initial_fields ∪ progress]> reg
  end.

(** Lines 285-293 of [upload_file]. *)
Definition register_upload (analysis_id filename : string)
    (reg : gmap string (gmap string pyval)) : gmap string (gmap string pyval) :=
  <[analysis_id := <["filename" := VStr filename]> initial_fields]> reg.

(** The registry as the job's thread leaves it after each store, the
    latest first: what a poll may read. *)
Record Trace : Type := {
  now : gmap string (gmap string pyval);
  past : list (gmap string (gmap string pyval));
}.

Definition observable (t : Trace) : list (gmap string (gmap string pyval)) :=
  now t :: past t.

(** [analysis_progress[analysis_id][key] = v] *)
Definition set_field (analysis_id key : string) (v : pyval) : SE Trace unit :=
  fun t =>
    ({| now := alter (insert key v) analysis_id (now t);
        past := now t :: past t |}, Ok tt).

(** ** The evaluation pool and the aggregator (lines 225-254) *)

(** Lines 249-252: append to the first game with that number. *)
Fixpoint add_moment (number : Z) (result : CriticalMoment)
    (games : list GameInfo) : list GameInfo :=
  match games with
  | [] => []
  | game :: rest =>
    if game_number game =? number then
      {| game_number := game_number game;
         gi_white := gi_white game;
         gi_black := gi_black game;
         gi_result := gi_result game;
         gi_date := gi_date game;
         gi_event := gi_event game;
         critical_moments := critical_moments game ++ [result] |} :: rest
    else game :: add_moment number result rest
  end.

(** A future with the position it was submitted for: the outcome of
    [future.result()] is the value [analyze_position] returned, or the
    exception that left it. *)
Definition Future `{ChessLib} : Type :=
  (PositionData Board * Exc (option CriticalMoment))%type.

(** Lines 244-254: [future.result()] in its own [try]. *)
Definition collect `{ChessLib} (future : Future) (games : list GameInfo)
    : list GameInfo :=
  match snd future with
  | Ok (Some result) => add_moment (pd_game_number (fst future)) result games
  | Ok None => games
  | Raise _ => games
  end.

(** [int(completed / total_positions * 100)] *)
Definition percent (completed total_positions : Z) : Exc Z :=
  ratio ← int_truediv completed total_positions;
  Ok (int_of_float (float_mul_int ratio 100)).

(** The loop of lines 235-254 over the futures in the order in which
    they complete. *)
Fixpoint pool_loop `{ChessLib} (analysis_id : string) (total_positions : Z)
    (futures : list Future) (completed : Z) (games : list GameInfo)
    : SE Trace (list GameInfo) :=
  match futures with
  | [] => mret games
  | future :: rest =>
    let completed := completed + 1 in
    set_field analysis_id "current_move" (VInt completed);;
    progress ← lift (percent completed total_positions);
    set_field analysis_id "progress" (VInt progress);;
    pool_loop analysis_id total_positions rest completed (collect future games)
  end.

(** What the job's thread meets outside the code: the outcome of opening
    and parsing the file, the order in which the futures complete, and
    possibly an exception of the executor itself, raised in the [with]
    block after some completions were processed. *)
Record JobEnv `{ChessLib} : Type := {
  corpus : Exc (list Game);
  as_completed : list Future -> list Future;
  pool_fault : option (nat * string);
}.

Definition dispatch `{ChessLib} (env : JobEnv) (analysis_id : string)
    (total_positions : Z) (futures : list Future) (games : list GameInfo)
    : SE Trace (list GameInfo) :=
  match pool_fault env with
  | None => pool_loop analysis_id total_positions (as_completed env futures) 0 games
  | Some (k, msg) =>
    pool_loop analysis_id total_positions (take k (as_completed env futures)) 0 games;;
    lift (Raise msg)
  end.

(** ** [analyze_pgn_async] (lines 134-261) *)

(** The [try] block, lines 167-258. *)
Definition analyze_pgn_try `{EngineLib} (env : JobEnv) (analysis_id : string)
    : SE Trace unit :=
  games ← lift (corpus env);
  let fp := first_pass games in
  match all_games fp with
  | [] => set_field analysis_id "error" (VStr "Le fichier PGN est invalide ou vide.")
  | _ =>
    let total_positions := Z.of_nat (length (all_positions fp)) in
    set_field analysis_id "total_moves" (VInt total_positions);;
    set_field analysis_id "status" (VStr "analyzing");;
    let futures :=
      (fun pos_data => (pos_data, analyze_position pos_data))
        <$> omap (snapshot (fp_heap fp)) (all_positions fp) in
    games' ← dispatch env analysis_id total_positions futures (all_games fp);
    set_field analysis_id "status" (VStr "completed");;
    set_field analysis_id "results" (VGames games')
  end.

Definition analyze_pgn_async `{EngineLib} (env : JobEnv) (analysis_id : string)
    (reg : gmap string (gmap string pyval)) : Trace :=
  let start := {| now := init_progress analysis_id reg; past := [] |} in
  match analyze_pgn_try env analysis_id start with
  | (t, Ok _) => t
  | (t, Raise msg) => fst (set_field analysis_id "error" (VStr msg) t)
  end.

(** ** The polling endpoints (lines 317-364) *)

(** [get_progress]: the JSON body and the HTTP status. *)
Definition get_progress (analysis_id : string)
    (reg : gmap string (gmap string pyval)) : gmap string pyval * Z :=
  match reg !! analysis_id with
  | None => ({["error" := VStr "Analyse non trouvée"]}, 404)
  | Some progress => (progress, 200)
  end.

Inductive ResultsResponse : Type :=
| NotFound
| ResultsPage (results : option pyval)
| ErrorPage (error : option pyval)
| StillProcessing
| KeyError.

Definition get_results (analysis_id : string)
    (reg : gmap string (gmap string pyval)) : ResultsResponse :=
  match reg !! analysis_id with
  | None => NotFound
  | Some progress =>
    match progress !! "status" with
    | Some (VStr status) =>
      if String.eqb status "completed" then ResultsPage (progress !! "results")
      else if String.eqb status "error" then ErrorPage (progress !! "error")
      else StillProcessing
    | Some _ => StillProcessing
    | None => KeyError
    end
  end.

(** ** [allowed_file] (lines 40-42)

    A Python [str] is modelled by its UTF-8 bytes. The separator ["."] is
    one byte that occurs in no multi-byte character, so splitting on it is
    the same on bytes; [lower] changes the ASCII capitals only, which
    decides the comparison with ["pgn"] as Python's [lower] does, since no
    other character lowers to [p], [g] or [n]. *)

Definition ALLOWED_EXTENSIONS : gset string := {[ "pgn" ]}.

(** [c in s], for a single character [c]. *)
Fixpoint contains (c : ascii) (s : string) : bool :=
  match s with
  | EmptyString => false
  | String a rest => Ascii.eqb a c || contains c rest
  end.

(** [s.rsplit(c, 1)]: the text before and the text after the last [c],
    or [s] alone when it holds no [c]. *)
Fixpoint rsplit1 (c : ascii) (s : string) : list string :=
  match s with
  | EmptyString => [EmptyString]
  | String a rest =>
    match rsplit1 c rest with
    | [] => []
    | [after] => if Ascii.eqb a c then [EmptyString; after] else [String a after]
    | before :: parts => String a before :: parts
    end
  end.

Definition lower_char (a : ascii) : ascii :=
  let n := nat_of_ascii a in
  if (65 <=? n)%nat && (n <=? 90)%nat then ascii_of_nat (n + 32) else a.

(** [s.lower()] *)
Fixpoint lower (s : string) : string :=
  match s with
  | EmptyString => EmptyString
  | String a rest => String (lower_char a) (lower rest)
  end.

(** [l[i]]: [IndexError] past the end. *)
Definition index {A : Type} (i : nat) (l : list A) : Exc A :=
  match l !! i with
  | Some a => Ok a
  | None => Raise "list index out of range"
  end.

Definition allowed_file (filename : string) : Exc bool :=
  if contains "."%char filename then
    extension ← index 1 (rsplit1 "."%char filename);
    Ok (bool_decide (lower extension ∈ ALLOWED_EXTENSIONS))
  else Ok false.

(** ** [upload_file] (lines 264-314) *)

Definition UPLOAD_FOLDER : string := "uploads".

(** What [upload_file] reads of the Flask request: the method, the URL
    and, for each file part of the form, the name the client gave. *)
Record Request : Type := {
  method : string;
  url : string;
  files : gmap string string;
}.

(** What the handler gets from outside the code: werkzeug's
    [secure_filename], the outcome of [file.save], the identifier drawn by
    [uuid.uuid4()], the outcome of [thread.start()] and the host's
    [os.cpu_count()]. *)
Record WebEnv : Type := {
  secure_filename : string -> string;
  save : string -> Exc unit;
  uuid4 : string;
  start_thread : Exc unit;
  cpu_count : option Z;
}.

Inductive Response : Type :=
| Redirect (location : string)
| IndexPage (analysis : option (string * string)) (workers : Z) (threshold : Z).

(** What a request leaves behind: the response, and the arguments of the
    thread it started, if any. *)
Record Served : Type := {
  response : Response;
  started : option (string * string);
}.

Definition starts_with (c : ascii) (s : string) : bool :=
  match s with
  | String a _ => Ascii.eqb a c
  | EmptyString => false
  end.

Fixpoint ends_with (c : ascii) (s : string) : bool :=
  match s with
  | EmptyString => false
  | String a EmptyString => Ascii.eqb a c
  | String _ rest => ends_with c rest
  end.

(** [os.path.join(a, b)] of [posixpath]. *)
Definition path_join (a b : string) : string :=
  if starts_with "/" b then b
  else if String.eqb a "" || ends_with "/" a then a +:+ b
  else a +:+ "/" +:+ b.

(** [analysis_progress[analysis_id] = {...}] *)
Definition register (analysis_id filename : string)
    : SE (gmap string (gmap string pyval)) unit :=
  fun reg => (register_upload analysis_id filename reg, Ok tt).

Definition upload_file (env : WebEnv) (request : Request)
    : SE (gmap string (gmap string pyval)) Served :=
  let page (analysis : option (string * string)) :=
    IndexPage analysis (MAX_WORKERS (cpu_count env)) EVAL_DIFFERENCE_THRESHOLD in
  if String.eqb (method request) "POST" then
    match files request !! "file" with
    | None => mret {| response := Redirect (url request); started := None |}
    | Some file_filename =>
      if String.eqb file_filename "" then
        mret {| response := Redirect (url request); started := None |}
      else
        allowed ← lift (if negb (String.eqb file_filename "")
                        then allowed_file file_filename else Ok false);
        if (allowed : bool) then
          let filename := secure_filename env file_filename in
          let filepath := path_join UPLOAD_FOLDER filename in
          lift (save env filepath);;
          let analysis_id := uuid4 env in
          register analysis_id filename;;
          lift (start_thread env);;
          mret {| response := page (Some (analysis_id, filename));
                  started := Some (filepath, analysis_id) |}
        else mret {| response := page None; started := None |}
    end
  else mret {| response := page None; started := None |}.

(** ** The engine process [analyze_position] leaves *)

(** [analyze_position] with the engine process as the function leaves
    it: [None] when [popen_uci] raised and no process exists. *)
Definition analyze_position_run `{EngineLib} (position_data : PositionData Board)
    : option Session * Exc (option CriticalMoment) :=
  match popen_uci STOCKFISH_PATH with
  | Raise _ => (None, Ok None)
  | Ok engine =>
    match analyze_position_try position_data engine with
    | (engine', Ok result) => (Some engine', Ok result)
    | (engine', Raise _) =>
      match quit engine' with
      | (engine'', Ok _) => (Some engine'', Ok None)
      | (engine'', Raise msg) => (Some engine'', Raise msg)
      end
    end
  end.

(** ** Vocabulary of the properties *)

(** A candidate whose score is missing or does not resolve. *)
Definition unresolved_in `{ChessLib} (info : InfoDict) : Prop :=
  match info_score info with
  | None => True
  | Some pov => score (white pov) 10000 = None
  end.

(** The boards a game goes through, one before each of its plies. *)
Fixpoint boards_before `{ChessLib} (b : Board) (moves : list Move) : list Board :=
  match moves with
  | [] => []
  | move :: rest => b :: boards_before (push b move) rest
  end.

(** The task for a ply played on board [b] in the game of that number. *)
Definition task_before `{ChessLib} (number : Z) (b : Board) : PositionData Board :=
  {| pd_board := b;
     pd_move_number := fullmove_number b;
     pd_turn := side_name (white_to_move b);
     pd_game_number := number |}.

(** The tasks the specification asks of the enumerator: game after game
    in the order of the file, ply after ply within a game, the games
    numbered from [count + 1]. *)
Fixpoint expected_tasks `{ChessLib} (games : list Game) (count : Z)
    : list (PositionData Board) :=
  match games with
  | [] => []
  | game :: rest =>
    (task_before (count + 1) <$> boards_before (game_board game) (mainline_moves game))
    ++ expected_tasks rest (count + 1)
  end.

(** The game records, numbered from [count + 1]. *)
Fixpoint expected_infos `{ChessLib} (games : list Game) (count : Z) : list GameInfo :=
  match games with
  | [] => []
  | game :: rest =>
    make_game_info (count + 1) (headers game) :: expected_infos rest (count + 1)
  end.

(** The number of plies of a corpus. *)
Definition plies `{ChessLib} (games : list Game) : nat :=
  sum_list (length <$> (mainline_moves <$> games)).

(** What the positions collected so far denote in the heap, none of them
    being the board object that is replayed. *)
Definition denote `{ChessLib} (heap : list Board) (board : nat)
    (positions : list (PositionData nat)) (tasks : list (PositionData Board)) : Prop :=
  Forall2 (fun pd task => pd_board pd <> board /\ snapshot heap pd = Some task)
          positions tasks.

(** The field [key] of the entry of [analysis_id]. *)
Definition field (analysis_id key : string)
    (reg : gmap string (gmap string pyval)) : option pyval :=
  reg !! analysis_id ≫= (fun progress => progress !! key).

(** The stores [analyze_pgn_async] makes once the entry is initialised. *)
Inductive job_write : string -> pyval -> Prop :=
| write_error (msg : string) : job_write "error" (VStr msg)
| write_total (n : Z) : job_write "total_moves" (VInt n)
| write_analyzing : job_write "status" (VStr "analyzing")
| write_completed : job_write "status" (VStr "completed")
| write_current (c : Z) : job_write "current_move" (VInt c)
| write_progress (p : Z) : job_write "progress" (VInt p)
| write_results (games : list GameInfo) : job_write "results" (VGames games).

(** A computation of the job's thread keeps [I] when every state it
    leaves to be read satisfies [I], provided those before it did. *)
Definition keeps {A} (I : gmap string (gmap string pyval) -> Prop)
    (c : SE Trace A) : Prop :=
  forall t, Forall I (observable t) -> Forall I (observable (fst (c t))).

(** The three values [analyze_pgn_async] gives the status field. *)
Definition status_in_lifecycle (analysis_id : string)
    (reg : gmap string (gmap string pyval)) : Prop :=
  exists s, field analysis_id "status" reg = Some (VStr s) /\
            (s = "starting" \/ s = "analyzing" \/ s = "completed").

(** The fields the specification lists for a poll, under the names the
    code gives them. *)
Definition polled_fields : gset string :=
  {[ "status"; "progress"; "total_moves"; "current_move"; "error" ]}.

(** The fields of the entry of an uploaded job. *)
Definition job_fields : gset string :=
  {[ "filename"; "status"; "progress"; "total_moves"; "current_move";
     "results"; "error" ]}.

(** The futures of a corpus, in the order of submission (lines 227-230). *)
Definition submitted `{EngineLib} (games : list Game) : list Future :=
  (fun pos_data => (pos_data, analyze_position pos_data)) <$> expected_tasks games 0.

(** The state of the run when the pool starts. *)
Definition analyzing_state (analysis_id : string) (total : Z)
    (reg : gmap string (gmap string pyval)) : Trace :=
  fst (set_field analysis_id "status" (VStr "analyzing")
    (fst (set_field analysis_id "total_moves" (VInt total)
       {| now := init_progress analysis_id reg; past := [] |}))).

(** The count and the percentage a poll reads in a state. *)
Definition progress_pair (analysis_id : string)
    (reg : gmap string (gmap string pyval)) : option pyval * option pyval :=
  (field analysis_id "current_move" reg, field analysis_id "progress" reg).

(** The counts a poll reads in a state are consistent: the completed
    count is within the total and the percentage within 0 and 100. *)
Definition counts_ok (analysis_id : string)
    (reg : gmap string (gmap string pyval)) : Prop :=
  exists c total p,
    field analysis_id "current_move" reg = Some (VInt c) /\
    field analysis_id "total_moves" reg = Some (VInt total) /\
    field analysis_id "progress" reg = Some (VInt p) /\
    0 <= c <= total /\ 0 <= p <= 100.

(** The state [newer] does not show a smaller percentage than [older]. *)
Definition not_below (analysis_id : string)
    (newer older : gmap string (gmap string pyval)) : Prop :=
  exists p p',
    field analysis_id "progress" older = Some (VInt p) /\
    field analysis_id "progress" newer = Some (VInt p') /\
    p <= p'.

(** Every state of a trace is consistent, and the percentage never
    decreases from a state to a later one. *)
Definition steady (analysis_id : string) (t : Trace) : Prop :=
  Forall (counts_ok analysis_id) (observable t) /\
  StronglySorted (not_below analysis_id) (observable t).

(** Two game records that differ at most by the order of their critical
    moments. *)
Definition same_moments (g g' : GameInfo) : Prop :=
  game_number g = game_number g' /\
  gi_white g = gi_white g' /\ gi_black g = gi_black g' /\
  gi_result g = gi_result g' /\ gi_date g = gi_date g' /\ gi_event g = gi_event g' /\
  critical_moments g ≡ₚ critical_moments g'.

(** The games once the futures have been collected in the given order. *)
Definition aggregate `{ChessLib} (futures : list Future) (games : list GameInfo)
    : list GameInfo :=
  foldl (fun gs future => collect future gs) games futures.

(** The place of a state's status in the lifecycle. *)
Definition status_rank (analysis_id : string)
    (reg : gmap string (gmap string pyval)) : option Z :=
  match field analysis_id "status" reg with
  | Some (VStr s) =>
    if String.eqb s "starting" then Some 0
    else if String.eqb s "analyzing" then Some 1
    else if String.eqb s "completed" then Some 2
    else None
  | _ => None
  end.

(** The status of [newer] is that of [older] or a later one. *)
Definition not_earlier (analysis_id : string)
    (newer older : gmap string (gmap string pyval)) : Prop :=
  exists a b, status_rank analysis_id older = Some a /\
              status_rank analysis_id newer = Some b /\ a <= b.

(** The statuses of a trace only move forward, and the latest is at most
    [rank]. *)
Definition forward (analysis_id : string) (rank : Z) (t : Trace) : Prop :=
  StronglySorted (not_earlier analysis_id) (observable t) /\
  exists a, status_rank analysis_id (now t) = Some a /\ a <= rank.

(** [int(x)] on a hardware float that is finite. *)
Definition hw_int (x : float) : option Z :=
  match Prim2SF x with
  | S754_zero _ => Some 0
  | S754_finite s m e =>
    let magnitude :=
      if 0 <=? e then Z.pos m * 2 ^ e else Z.pos m / 2 ^ (- e) in
    Some (if s then - magnitude else magnitude)
  | _ => None
  end.

(** The model and the hardware give the same percentage for
    [completed] of [total]. *)
Definition hw_agrees (completed total : Z) : bool :=
  match percent completed total,
        hw_int (hw_percent (Uint63.of_Z completed) (Uint63.of_Z total)) with
  | Ok p, Some p' => p =? p'
  | _, _ => false
  end.

(** The request is a POST whose part named [file] carries the name [raw],
    and [allowed_file] accepts that name. *)
Definition accepts (request : Request) (raw : string) : Prop :=
  method request = "POST" /\
  files request !! "file" = Some raw /\
  allowed_file raw = Ok true.

(** A state in which only the six fields of the job's own entry may
    differ from the registry [reg] the run started from. *)
Definition only_job_fields (analysis_id : string)
    (reg reg' : gmap string (gmap string pyval)) : Prop :=
  (forall other, other <> analysis_id -> reg' !! other = reg !! other) /\
  (forall key, initial_fields !! key = None ->
     field analysis_id key reg' = field analysis_id key reg).

(** The moment a future holds, if it holds one. *)
Definition moment_of `{ChessLib} (future : Future) : option CriticalMoment :=
  match snd future with
  | Ok (Some r) => Some r
  | _ => None
  end.

(** The moments held by the futures of the positions of the game
    [number], in the order of the futures. *)
Definition moments_for `{ChessLib} (number : Z) (futures : list Future)
    : list CriticalMoment :=
  omap (fun future =>
          if pd_game_number (fst future) =? number then moment_of future else None)
       futures.

(** The record [g] with the moments [ms] appended. *)
Definition with_more_moments (ms : list CriticalMoment) (g : GameInfo) : GameInfo :=
  {| game_number := game_number g;
     gi_white := gi_white g;
     gi_black := gi_black g;
     gi_result := gi_result g;
     gi_date := gi_date g;
     gi_event := gi_event g;
     critical_moments := critical_moments g ++ ms |}.

(** What the results endpoint may answer for a job that runs. *)
Definition serves_no_error (analysis_id : string)
    (reg : gmap string (gmap string pyval)) : Prop :=
  get_results analysis_id reg = StillProcessing \/
  get_results analysis_id reg = ResultsPage (Some VNone) \/
  exists games, get_results analysis_id reg = ResultsPage (Some (VGames games)).

(** The status and the results of a state are those the job's stores
    can leave. *)
Definition status_and_results (analysis_id : string)
    (reg : gmap string (gmap string pyval)) : Prop :=
  status_in_lifecycle analysis_id reg /\
  (field analysis_id "results" reg = Some VNone \/
   exists games, field analysis_id "results" reg = Some (VGames games)).

(** The requests an engine process receives. *)
Inductive Call `{ChessLib} : Type :=
| CallConfigure (option : EngineOption)
| CallAnalyse (board : Board) (time : Q) (multipv : Z)
| CallQuit.

(** An engine that records the requests it receives, oldest first, and
    otherwise behaves as [E]. *)
Definition logged `{C : ChessLib} (E : @EngineLib C) : @EngineLib C :=
  @Build_EngineLib C (@Session C E * list Call)%type
    (fun path =>
       match @popen_uci C E path with
       | Ok s => Ok (s, [])
       | Raise msg => Raise msg
       end)
    (fun option sl =>
       let (s', out) := @configure C E option (fst sl) in
       ((s', snd sl ++ [CallConfigure option]), out))
    (fun board time multipv sl =>
       let (s', out) := @analyse C E board time multipv (fst sl) in
       ((s', snd sl ++ [CallAnalyse board time multipv]), out))
    (fun sl =>
       let (s', out) := @quit C E (fst sl) in
       ((s', snd sl ++ [CallQuit]), out)).

(** The options of [configure_stockfish], in the order of the calls. *)
Definition stockfish_options : list EngineOption :=
  [Threads 1; Hash STOCKFISH_HASH_SIZE; SkillLevel 20; UCI_LimitStrength false].

(** The requests of one call of [analyze_position] to an engine it
    started: the [options], the probe, perhaps the ranked analysis, then
    [quit], [quits] times. *)
Definition follows_protocol `{ChessLib} (board : Board) (options : list EngineOption)
    (quits : nat) (log : list Call) : Prop :=
  exists analyses,
    log = (CallConfigure <$> options) ++ analyses ++ replicate quits CallQuit /\
    (analyses = [CallAnalyse board (3 # 10)%Q 1] \/
     analyses = [CallAnalyse board (3 # 10)%Q 1; CallAnalyse board (1 # 2)%Q 3]).

(** A binary64 number, the exponent range apart: a significand of at
    most 53 bits times a power of two. *)
Definition binary64 (f : Q) : Prop :=
  exists m e : Z, Z.abs m < 2 ^ 53 /\ (f == inject_Z m * 2 ^ e)%Q.

(** [f] is a binary64 number nearest to [x]: what a float operation
    returns for the exact result [x]. *)
Definition nearest_binary64 (x f : Q) : Prop :=
  binary64 f /\ forall f', binary64 f' -> (Qabs (x - f) <= Qabs (x - f'))%Q.

(** ** A small instance of the two libraries

    A board is the list of the moves played on it, a move is a number and
    a score is its centipawn value; the engine answers from a script.
    The instance serves to run the definitions above on concrete inputs. *)

Definition toy_chess : ChessLib :=
  {| Board := list nat;
     Move := nat;
     PovScore := Z;
     Score := Z;
     push := fun b m => b ++ [m];
     fullmove_number := fun b => Z.of_nat (length b) / 2 + 1;
     white_to_move := fun b => Z.even (Z.of_nat (length b));
     board_fen := fun _ => "8/8/8/8/8/8/8/8";
     san := fun _ m => if Nat.eqb m 0 then Raise "illegal move" else Ok "Nf3";
     white := fun s => s;
     score := fun s _ => Some s;
     score_str := fun _ => "+0.10" |}.

Record Script : Type := {
  start_result : Exc unit;
  probe_result : Exc (list (@InfoDict toy_chess));
  lines_result : Exc (list (@InfoDict toy_chess));
  quit_result : Exc unit;
}.

Definition scripted_engine (sc : Script) : @EngineLib toy_chess :=
  @Build_EngineLib toy_chess unit
    (fun _ => start_result sc)
    (fun _ s => (s, Ok tt))
    (fun _ _ multipv s =>
       (s, if multipv =? 1 then probe_result sc else lines_result sc))
    (fun s => (s, quit_result sc)).

Definition candidate (cp : Z) (mv : nat) : @InfoDict toy_chess :=
  @Build_InfoDict toy_chess (Some cp) (Some [mv]).

(** An engine that finds one move worth 200 and the next worth 10. *)
Definition sharp_script : Script :=
  {| start_result := Ok tt;
     probe_result := Ok [candidate 200 1];
     lines_result := Ok [candidate 200 1; candidate 10 2; candidate 0 3];
     quit_result := Ok tt |}.

(** An engine that hangs: the probe yields nothing and the process does
    not answer [quit] in time. *)
Definition hung_script : Script :=
  {| start_result := Ok tt;
     probe_result := Ok [];
     lines_result := Ok [];
     quit_result := Raise "TimeoutError" |}.

(** An engine whose process dies during the ranked analysis: the
    request raises, and so does [quit] on the dead process. *)
Definition crashed_script : Script :=
  {| start_result := Ok tt;
     probe_result := Ok [candidate 200 1];
     lines_result := Raise "EngineTerminatedError";
     quit_result := Raise "EngineTerminatedError" |}.

Definition toy_position : PositionData (list nat) :=
  {| pd_board := []; pd_move_number := 1; pd_turn := "Blancs"; pd_game_number := 1 |}.

Definition toy_game (hd : gmap string string) (moves : list nat) : @Game toy_chess :=
  @Build_Game toy_chess hd [] moves.

Definition fifo_env (games : Exc (list (@Game toy_chess))) : @JobEnv toy_chess :=
  @Build_JobEnv toy_chess games (fun futures => futures) None.

(** A registry with two uploads. *)
Definition registered_once : gmap string (gmap string pyval) :=
  register_upload "other" "b.pgn" (register_upload "job" "a.pgn" ∅).

(** An engine that cannot be started, and a file without any game. *)
Definition absent_script : Script :=
  {| start_result := Raise "FileNotFoundError";
     probe_result := Ok [];
     lines_result := Ok [];
     quit_result := Ok tt |}.

Definition empty_run : Trace :=
  @analyze_pgn_async toy_chess (scripted_engine absent_script) (fifo_env (Ok []))
    "job" (register_upload "job" "a.pgn" ∅).

(** A file whose only game has no move, and its run. *)
Definition moveless_run : Trace :=
  @analyze_pgn_async toy_chess (scripted_engine sharp_script)
    (fifo_env (Ok [toy_game ∅ []])) "job" (register_upload "job" "a.pgn" ∅).

(** The run of a file whose only game has 100 plies. *)
Definition hundred_run : Trace :=
  @analyze_pgn_async toy_chess (scripted_engine sharp_script)
    (fifo_env (Ok [toy_game ∅ (seq 1 100)])) "job" (register_upload "job" "a.pgn" ∅).

(** The same file with the futures completing in the order of
    submission, and in the reverse order. *)
Definition lifo_env (games : Exc (list (@Game toy_chess))) : @JobEnv toy_chess :=
  @Build_JobEnv toy_chess games (fun futures => rev futures) None.

(** A web layer that keeps the names as they are and never fails, and two
    requests. *)
Definition toy_web : WebEnv :=
  {| secure_filename := fun name => name;
     save := fun _ => Ok tt;
     uuid4 := "job";
     start_thread := Ok tt;
     cpu_count := Some 8 |}.

Definition get_request : Request :=
  {| method := "GET"; url := "/"; files := ∅ |}.

Definition post_request (name : string) : Request :=
  {| method := "POST"; url := "/"; files := {[ "file" := name ]} |}.

(** An engine whose best line carries a score and no move, and an engine
    that finds the sharp answer and does not answer [quit]. *)
Definition blind_script : Script :=
  {| start_result := Ok tt;
     probe_result := Ok [candidate 200 1];
     lines_result := Ok [@Build_InfoDict toy_chess (Some 200) None; candidate 10 2];
     quit_result := Ok tt |}.

Definition stuck_script : Script :=
  {| start_result := Ok tt;
     probe_result := Ok [candidate 200 1];
     lines_result := Ok [candidate 200 1; candidate 10 2; candidate 0 3];
     quit_result := Raise "TimeoutError" |}.

(** * Properties *)

(** ** The worker count *)

(** C7, as stated, fails: on a host that reports two CPUs the pool gets
    two workers, fewer than 4. *)
Lemma max_workers_below_four : MAX_WORKERS (Some 2) = 2 /\ MAX_WORKERS (Some 2) < 4.
Proof. split; [reflexivity | unfold MAX_WORKERS; simpl; lia]. Qed.

(** C7, amended: the worker count is the host's parallelism whenever the
    host reports one (a non-zero count), whatever its size; 4 is only the
    fallback when the count is unknown ([None]) or zero. It is at least 1
    on every host that reports a count that is not negative. *)
Theorem max_workers_fallback :
  (forall n, n <> 0 -> MAX_WORKERS (Some n) = n) /\
  MAX_WORKERS None = 4 /\
  MAX_WORKERS (Some 0) = 4 /\
  (forall c, (forall n, c = Some n -> 0 <= n) -> 1 <= MAX_WORKERS c).
Proof.
  repeat split.
  - intros n Hn. unfold MAX_WORKERS.
    destruct (Z.eqb_spec n 0); [contradiction | reflexivity].
  - intros [n|] Hc; unfold MAX_WORKERS; [|lia].
    specialize (Hc n eq_refl).
    destruct (Z.eqb_spec n 0); lia.
Qed.

(** ** Game metadata *)



Lemma dict_get_absent {A} key (fallback : A) d :
  d !! key = None -> dict_get key fallback d = fallback.
Proof. intros H. unfold dict_get. now rewrite H. Qed.

Lemma dict_get_present {A} key (fallback v : A) d :
  d !! key = Some v -> dict_get key fallback d = v.
Proof. intros H. unfold dict_get. now rewrite H. Qed.


(** ** Starting a run on an id that is registered *)

Lemma initial_fields_lookup key :
  initial_fields !! key =
    if decide (key = "status") then Some (VStr "starting")
    else if decide (key = "progress") then Some (VInt 0)
    else if decide (key = "total_moves") then Some (VInt 0)
    else if decide (key = "current_move") then Some (VInt 0)
    else if decide (key = "results") then Some VNone
    else if decide (key = "error") then Some VNone
    else None.
Proof.
  unfold initial_fields.
  repeat (case_decide; [subst; by simplify_map_eq |]).
  by simplify_map_eq.
Qed.

Lemma init_progress_other analysis_id other reg :
  other <> analysis_id ->
  init_progress analysis_id reg !! other = reg !! other.
Proof.
  intros Hne. unfold init_progress.
  destruct (reg !! analysis_id); by rewrite lookup_insert_ne.
Qed.

(** C10: when the id is already registered, starting a run keeps the
    entry's filename and resets status, progress, total_moves,
    current_move, results and error to their initial values; the entries
    of all other ids are unchanged. *)
Theorem init_progress_keeps_filename (analysis_id : string)
    (reg : gmap string (gmap string pyval)) (progress : gmap string pyval) :
  reg !! analysis_id = Some progress ->
  exists progress',
    init_progress analysis_id reg !! analysis_id = Some progress' /\
    progress' !! "filename" = progress !! "filename" /\
    progress' !! "status" = Some (VStr "starting") /\
    progress' !! "progress" = Some (VInt 0) /\
    progress' !! "total_moves" = Some (VInt 0) /\
    progress' !! "current_move" = Some (VInt 0) /\
    progress' !! "results" = Some VNone /\
    progress' !! "error" = Some VNone /\
    forall other, other <> analysis_id ->
      init_progress analysis_id reg !! other = reg !! other.
Proof.
  intros Hreg. exists (initial_fields ∪ progress).
  split.
  { unfold init_progress. rewrite Hreg. apply lookup_insert_eq. }
  split.
  { rewrite lookup_union_r; [reflexivity|]. by rewrite initial_fields_lookup. }
  repeat split;
    try (apply lookup_union_Some_l; by rewrite initial_fields_lookup).
  intros other Hne. by apply init_progress_other.
Qed.

Lemma init_progress_keeps_filename_witness :
  exists progress',
    init_progress "job" registered_once !! "job" = Some progress' /\
    progress' !! "filename" = Some (VStr "a.pgn") /\
    progress' !! "status" = Some (VStr "starting").
Proof.
  destruct (init_progress_keeps_filename "job" registered_once
              (<["filename" := VStr "a.pgn"]> initial_fields)) as (p & H1 & H2 & H3 & _).
  - reflexivity.
  - exists p. split; [exact H1|]. split; [|exact H3].
    rewrite H2. reflexivity.
Defined.

(** ** The critical-moment detector *)

Lemma detect_resolved `{ChessLib} (board : Board) (number : Z) (turn : string)
    (info0 info1 : InfoDict) (rest : list InfoDict) (pov1 pov2 : PovScore)
    (eval1 eval2 : Z) :
  info_score info0 = Some pov1 ->
  info_score info1 = Some pov2 ->
  score (white pov1) 10000 = Some eval1 ->
  score (white pov2) 10000 = Some eval2 ->
  detect board number turn (info0 :: info1 :: rest) =
    if (100 <? Z.abs (eval1 - eval2)) && ((-50 <? eval2) && (eval2 <? 50)) then
      best ← (getitem "pv" (info_pv info0) ≫= first) ≫= san board;
      second ← (getitem "pv" (info_pv info1) ≫= first) ≫= san board;
      Ok (Some {| fen := board_fen board;
                  move_number := number;
                  cm_turn := turn;
                  best_move := best;
                  best_move_eval := score_str (white pov1);
                  second_best_move := second;
                  second_best_move_eval := score_str (white pov2);
                  difference := int_div_float (Z.abs (eval1 - eval2)) 100 |})
    else Ok None.
Proof.
  intros Hs1 Hs2 He1 He2. unfold detect.
  rewrite Hs1, Hs2. cbn [getitem mbind Exc_bind].
  rewrite He1, He2. reflexivity.
Qed.

Lemma critical_test (eval1 eval2 : Z) :
  (100 <? Z.abs (eval1 - eval2)) && ((-50 <? eval2) && (eval2 <? 50)) = true <->
  100 < Z.abs (eval1 - eval2) /\ -50 < eval2 < 50.
Proof.
  rewrite !andb_true_iff, !Z.ltb_lt. tauto.
Qed.

(** The decision of lines 94-125 alone: on an answer whose two best
    candidates each carry a score that resolves and a first move the
    board renders, [detect] gives a critical moment exactly when the gap
    between the two evaluations exceeds 100 centipawns and the second
    evaluation is strictly between -50 and +50. *)
Lemma detect_critical_iff `{ChessLib} (board : Board) (number : Z) (turn : string)
    (info0 info1 : InfoDict) (rest : list InfoDict) (pov1 pov2 : PovScore)
    (eval1 eval2 : Z) (mv1 mv2 : Move) (pv1 pv2 : list Move) (san1 san2 : string) :
  info_score info0 = Some pov1 ->
  info_score info1 = Some pov2 ->
  score (white pov1) 10000 = Some eval1 ->
  score (white pov2) 10000 = Some eval2 ->
  info_pv info0 = Some (mv1 :: pv1) ->
  info_pv info1 = Some (mv2 :: pv2) ->
  san board mv1 = Ok san1 ->
  san board mv2 = Ok san2 ->
  let gap := Z.abs (eval1 - eval2) in
  let result := detect board number turn (info0 :: info1 :: rest) in
  ((exists r, result = Ok (Some r)) <-> 100 < gap /\ -50 < eval2 < 50) /\
  (forall r, result = Ok (Some r) ->
     difference r = int_div_float gap 100 /\
     best_move r = san1 /\ second_best_move r = san2 /\
     fen r = board_fen board /\ move_number r = number /\ cm_turn r = turn) /\
  (~ (100 < gap /\ -50 < eval2 < 50) -> result = Ok None).
Proof.
  intros Hs1 Hs2 He1 He2 Hpv1 Hpv2 Hsan1 Hsan2 gap result.
  subst result.
  rewrite (detect_resolved board number turn info0 info1 rest pov1 pov2 eval1 eval2)
    by assumption.
  rewrite Hpv1, Hpv2. cbn [getitem first mbind Exc_bind].
  rewrite Hsan1, Hsan2. cbn [mbind Exc_bind].
  fold gap.
  destruct ((100 <? gap) && ((-50 <? eval2) && (eval2 <? 50))) eqn:Htest.
  - apply critical_test in Htest. fold gap in Htest.
    split; [split; [intros _; exact Htest | intros _; eexists; reflexivity] |].
    split; [| intros Hno; contradiction].
    intros r Hr. injection Hr as <-. cbn. repeat split.
  - assert (Hno : ~ (100 < gap /\ -50 < eval2 < 50)).
    { intros Hyes. apply critical_test in Hyes. fold gap in Hyes. congruence. }
    split; [split; [intros [r Hr]; discriminate | intros Hyes; contradiction] |].
    split; [intros r Hr; discriminate | reflexivity].
Qed.

Lemma detect_critical_iff_witness :
  exists r,
    @detect toy_chess [] 1 "Blancs" [candidate 200 1; candidate 10 2; candidate 0 3]
      = Ok (Some r) /\
    difference r = int_div_float 190 100.
Proof.
  destruct (@detect_critical_iff toy_chess [] 1 "Blancs"
              (candidate 200 1) (candidate 10 2) [candidate 0 3]
              200 10 200 10 1%nat 2%nat [] [] "Nf3" "Nf3"
              eq_refl eq_refl eq_refl eq_refl eq_refl eq_refl eq_refl eq_refl)
    as [[_ Hyes] [Hfields _]].
  destruct Hyes as [r Hr]; [simpl; lia |].
  exists r. split; [exact Hr |].
  exact (proj1 (Hfields r Hr)).
Defined.

(** The three examples of the specification's section 8. The first
    difference is the float nearest to 1.9. *)
Example detect_200_10 :
  (@detect toy_chess [] 1 "Blancs" [candidate 200 1; candidate 10 2]
     ≫= getitem "result") ≫= (fun r => Ok (difference r))
    = Ok (8556839292003942 # 4503599627370496)%Q.
Proof. vm_compute. reflexivity. Qed.

Example detect_120_30 :
  @detect toy_chess [] 1 "Blancs" [candidate 120 1; candidate 30 2] = Ok None.
Proof. reflexivity. Qed.

Example detect_300_60 :
  @detect toy_chess [] 1 "Blancs" [candidate 300 1; candidate 60 2] = Ok None.
Proof. reflexivity. Qed.

(** The hardware's 190 / 100.0 has the significand and exponent of the
    model's. *)
Example hw_agrees_190_100 :
  Prim2SF (PrimFloat.div (PrimFloat.of_uint63 190%uint63) (PrimFloat.of_uint63 100%uint63))
    = S754_finite false 8556839292003942 (-52) /\
  Qred (int_div_float 190 100) = Qred (Binary64.value (8556839292003942, -52)).
Proof. split; vm_compute; reflexivity. Qed.

(** Without the assumptions on moves, a [Some] answer still means the
    rule holds. *)
Lemma detect_some_critical `{ChessLib} (board : Board) (number : Z) (turn : string)
    (info : list InfoDict) (r : CriticalMoment) :
  detect board number turn info = Ok (Some r) ->
  exists info0 info1 rest pov1 pov2 eval1 eval2,
    info = info0 :: info1 :: rest /\
    info_score info0 = Some pov1 /\ info_score info1 = Some pov2 /\
    score (white pov1) 10000 = Some eval1 /\
    score (white pov2) 10000 = Some eval2 /\
    100 < Z.abs (eval1 - eval2) /\ -50 < eval2 < 50 /\
    difference r = int_div_float (Z.abs (eval1 - eval2)) 100.
Proof.
  intros Hr. destruct info as [|info0 [|info1 rest]]; try discriminate.
  unfold detect in Hr.
  destruct (info_score info0) as [pov1|] eqn:Hs1; [|discriminate].
  destruct (info_score info1) as [pov2|] eqn:Hs2; [|discriminate].
  cbn [getitem mbind Exc_bind] in Hr.
  destruct (score (white pov1) 10000) as [eval1|] eqn:He1; [|discriminate].
  destruct (score (white pov2) 10000) as [eval2|] eqn:He2; [|discriminate].
  destruct ((EVAL_DIFFERENCE_THRESHOLD <? Z.abs (eval1 - eval2))
            && ((-50 <? eval2) && (eval2 <? 50))) eqn:Htest; [|discriminate].
  apply critical_test in Htest. destruct Htest as [Hgap Hband].
  exists info0, info1, rest, pov1, pov2, eval1, eval2.
  repeat split; try assumption; try lia.
  destruct ((getitem "pv" (info_pv info0) ≫= first) ≫= san board) as [best|];
    [|discriminate].
  destruct ((getitem "pv" (info_pv info1) ≫= first) ≫= san board) as [second|];
    [|discriminate].
  cbn [mbind Exc_bind] in Hr. injection Hr as <-. reflexivity.
Qed.

(** ** Containment of failures in [analyze_position] *)

Lemma configure_stockfish_ok `{EngineLib} (s : Session) :
  snd (configure_stockfish s) = Ok tt.
Proof.
  unfold configure_stockfish, try_pass.
  match goal with |- snd (let (_, _) := ?c in _) = _ => destruct c end.
  reflexivity.
Qed.

(** The [try] block, one engine request after the other. *)
Lemma analyze_position_try_steps `{EngineLib} (pd : PositionData Board) (s0 : Session) :
  analyze_position_try pd s0 =
    match analyse (pd_board pd) (3 # 10)%Q 1 (fst (configure_stockfish s0)) with
    | (s2, Raise msg) => (s2, Raise msg)
    | (s2, Ok []) =>
      match quit s2 with
      | (s3, Ok _) => (s3, Ok None)
      | (s3, Raise msg) => (s3, Raise msg)
      end
    | (s2, Ok (_ :: _)) =>
      match analyse (pd_board pd) (1 # 2)%Q 3 s2 with
      | (s3, Raise msg) => (s3, Raise msg)
      | (s3, Ok info) =>
        match detect (pd_board pd) (pd_move_number pd) (pd_turn pd) info with
        | Raise msg => (s3, Raise msg)
        | Ok result =>
          match quit s3 with
          | (s4, Ok _) => (s4, Ok result)
          | (s4, Raise msg) => (s4, Raise msg)
          end
        end
      end
    end.
Proof.
  unfold analyze_position_try. cbv zeta.
  unfold mbind at 1. unfold SE_bind at 1.
  pose proof (configure_stockfish_ok s0) as Hc.
  destruct (configure_stockfish s0) as [s1 c]. cbn [fst snd] in *. subst c.
  unfold mbind at 1. unfold SE_bind at 1.
  destruct (analyse (pd_board pd) (3 # 10)%Q 1 s1) as [s2 [[|p ps]|msg]];
    [reflexivity | | reflexivity].
  unfold mbind at 1. unfold SE_bind at 1.
  destruct (analyse (pd_board pd) (1 # 2)%Q 3 s2) as [s3 [info|msg]];
    [| reflexivity].
  unfold mbind, SE_bind, lift, mret, SE_ret.
  destruct (detect _ _ _ info) as [result|msg]; reflexivity.
Qed.

(** C2 fails on the code: the engine answers the probe and dies during
    the ranked analysis; the request raises, the handler calls
    [engine.quit()] on the dead process, and that exception leaves
    [analyze_position]. *)
Lemma analyze_position_can_raise :
  @analyze_position toy_chess (scripted_engine crashed_script) toy_position
    = Raise "EngineTerminatedError".
Proof. reflexivity. Qed.

Lemma detect_short `{ChessLib} (board : Board) (number : Z) (turn : string)
    (info : list InfoDict) :
  (length info < 2)%nat -> detect board number turn info = Ok None.
Proof.
  destruct info as [|info0 [|info1 rest]]; cbn [length]; intros Hlen;
    try reflexivity; lia.
Qed.

Lemma detect_unresolved `{ChessLib} (board : Board) (number : Z) (turn : string)
    (info0 info1 : InfoDict) (rest : list InfoDict) :
  unresolved_in info0 \/ unresolved_in info1 ->
  forall r, detect board number turn (info0 :: info1 :: rest) <> Ok (Some r).
Proof.
  intros Hun r Hr. apply detect_some_critical in Hr.
  destruct Hr as (i0 & i1 & rest' & pov1 & pov2 & e1 & e2 & Heq & Hs1 & Hs2 & He1 & He2 & _).
  injection Heq as <- <- <-.
  unfold unresolved_in in Hun. rewrite Hs1, Hs2 in Hun.
  destruct Hun; congruence.
Qed.

Lemma percent_defined (completed total : Z) :
  total <> 0 -> exists p, percent completed total = Ok p.
Proof.
  intros Ht. unfold percent, int_truediv.
  destruct (Z.eqb_spec total 0); [contradiction|].
  eexists. reflexivity.
Qed.

(** The pool's loop goes through all its futures whatever their outcomes:
    an exception a future holds is dropped by [collect]. *)
Lemma pool_loop_runs `{ChessLib} (analysis_id : string) (total : Z)
    (futures : list Future) :
  total <> 0 ->
  forall (completed : Z) (games : list GameInfo) (t : Trace),
  exists t', pool_loop analysis_id total futures completed games t
             = (t', Ok (aggregate futures games)).
Proof.
  intros Ht. induction futures as [|future rest IH]; intros completed games t.
  - exists t. reflexivity.
  - unfold aggregate. cbn [pool_loop foldl]. fold (aggregate rest (collect future games)).
    destruct (percent_defined (completed + 1) total Ht) as [p Hp].
    unfold mbind at 1. unfold SE_bind at 1. cbn [set_field].
    unfold mbind at 1. unfold SE_bind at 1. unfold lift at 1. rewrite Hp.
    unfold mbind at 1. unfold SE_bind at 1. cbn [set_field].
    apply IH.
Qed.

(** What [analyze_position] returns once the engine is started and can
    be released. *)
Lemma analyze_position_released `{EngineLib} (pd : PositionData Board) (s0 : Session) :
  (forall s, snd (quit s) = Ok tt) ->
  popen_uci STOCKFISH_PATH = Ok s0 ->
  analyze_position pd =
    match analyse (pd_board pd) (3 # 10)%Q 1 (fst (configure_stockfish s0)) with
    | (_, Raise _) => Ok None
    | (_, Ok []) => Ok None
    | (s2, Ok (_ :: _)) =>
      match analyse (pd_board pd) (1 # 2)%Q 3 s2 with
      | (_, Raise _) => Ok None
      | (_, Ok info) =>
        match detect (pd_board pd) (pd_move_number pd) (pd_turn pd) info with
        | Raise _ => Ok None
        | Ok result => Ok result
        end
      end
    end.
Proof.
  intros Hquit Hopen. unfold analyze_position. rewrite Hopen.
  rewrite analyze_position_try_steps.
  assert (Hq : forall s, exists s', quit s = (s', Ok tt)).
  { intros s. specialize (Hquit s). destruct (quit s) as [s' q].
    cbn in Hquit. subst q. eauto. }
  destruct (analyse (pd_board pd) (3 # 10)%Q 1 _) as [s2 [[|p ps]|msg]].
  - destruct (Hq s2) as [s3 ->]. reflexivity.
  - destruct (analyse (pd_board pd) (1 # 2)%Q 3 s2) as [s3 [info|msg]].
    + destruct (detect _ _ _ info) as [result|msg].
      * destruct (Hq s3) as [s4 ->]. reflexivity.
      * destruct (Hq s3) as [s4 ->]. reflexivity.
    + destruct (Hq s3) as [s4 ->]. reflexivity.
  - destruct (Hq s2) as [s3 ->]. reflexivity.
Qed.

(** C2: the claim fails on the code, by the call of [engine.quit()] in
    the handler (lines 129-130), which nothing guards: [analyze_position]
    raises exactly when the engine was started, the [try] block raised
    (an engine request, the reading of the answer, or [engine.quit()]
    itself at line 88, 121 or 124) and [engine.quit()] raises in the
    handler; the exception is that of the handler's call. The rest of
    the claim holds. [analyze_position] returns [None], raising nothing,
    when the engine cannot be started; and, provided that
    [engine.quit()] does not raise, it never raises and returns [None]
    when the probe yields nothing, when fewer than 2 candidates come
    back, when a score is missing or does not resolve, and when any
    engine request or the reading of its answer fails. The pool is never
    aborted: its loop processes every future whatever it holds, and a
    future that holds an exception adds no moment. *)
Theorem analyze_position_contained `{EngineLib} (pd : PositionData Board) :
  (forall msg,
     analyze_position pd = Raise msg <->
     exists s0 s1 msg',
       popen_uci STOCKFISH_PATH = Ok s0 /\
       analyze_position_try pd s0 = (s1, Raise msg') /\
       snd (quit s1) = Raise msg) /\
  ((forall msg, popen_uci STOCKFISH_PATH = Raise msg ->
      analyze_position pd = Ok None) /\
   ((forall s, snd (quit s) = Ok tt) ->
    (exists r, analyze_position pd = Ok r) /\
    forall s0, popen_uci STOCKFISH_PATH = Ok s0 ->
      let probe := analyse (pd_board pd) (3 # 10)%Q 1 (fst (configure_stockfish s0)) in
      let lines := analyse (pd_board pd) (1 # 2)%Q 3 (fst probe) in
      let decision info := detect (pd_board pd) (pd_move_number pd) (pd_turn pd) info in
      (snd probe = Ok [] -> analyze_position pd = Ok None) /\
      (forall msg, snd probe = Raise msg -> analyze_position pd = Ok None) /\
      (forall p ps, snd probe = Ok (p :: ps) ->
         (forall msg, snd lines = Raise msg -> analyze_position pd = Ok None) /\
         (forall info, snd lines = Ok info ->
            ((length info < 2)%nat -> analyze_position pd = Ok None) /\
            (forall info0 info1 rest, info = info0 :: info1 :: rest ->
               unresolved_in info0 \/ unresolved_in info1 ->
               analyze_position pd = Ok None) /\
            (forall msg, decision info = Raise msg -> analyze_position pd = Ok None) /\
            (forall r, decision info = Ok r -> analyze_position pd = Ok r))))) /\
  (forall analysis_id total futures completed games t,
     total <> 0 ->
     exists t', pool_loop analysis_id total futures completed games t
                = (t', Ok (aggregate futures games))) /\
  (forall (pos : PositionData Board) msg games, collect (pos, Raise msg) games = games).
Proof.
  split; [| split; [split |]].
  - intros msg. unfold analyze_position. split.
    + destruct (popen_uci STOCKFISH_PATH) as [s0|msg0]; [|discriminate].
      destruct (analyze_position_try pd s0) as [s1 [result|msg']] eqn:Htry;
        [discriminate|].
      destruct (quit s1) as [s2 [[]|msg'']] eqn:Hquit; [discriminate|].
      intros [= ->]. exists s0, s1, msg'. rewrite Hquit. auto.
    + intros (s0 & s1 & msg' & -> & -> & Hquit).
      destruct (quit s1) as [s2 out]. cbn in Hquit. now subst out.
  - intros msg Hopen. unfold analyze_position. now rewrite Hopen.
  - intros Hquit.
    assert (Hcases : forall s0, popen_uci STOCKFISH_PATH = Ok s0 ->
              analyze_position pd = _) by
      (intros s0; exact (analyze_position_released pd s0 Hquit)).
    split.
    + destruct (popen_uci STOCKFISH_PATH) as [s0|msg] eqn:Hopen.
      * rewrite (Hcases s0 eq_refl).
        destruct (analyse (pd_board pd) (3 # 10)%Q 1 _) as [s2 [[|p ps]|msg]]; eauto.
        destruct (analyse (pd_board pd) (1 # 2)%Q 3 s2) as [s3 [info|msg]]; eauto.
        destruct (detect _ _ _ info); eauto.
      * unfold analyze_position. rewrite Hopen. eauto.
    + intros s0 Hopen probe lines decision.
      rewrite (Hcases s0 Hopen). fold probe.
      subst lines. destruct probe as [s2 out]. cbn [fst snd].
      split; [intros ->; reflexivity |].
      split; [intros msg ->; reflexivity |].
      intros p ps ->.
      destruct (analyse (pd_board pd) (1 # 2)%Q 3 s2) as [s3 out]. cbn [snd].
      split; [intros msg ->; reflexivity |].
      intros info ->. fold (decision info).
      split; [| split; [| split]].
      * intros Hlen. subst decision. cbv beta. now rewrite detect_short.
      * intros info0 info1 rest -> Hun.
        pose proof (detect_unresolved (pd_board pd) (pd_move_number pd) (pd_turn pd)
                      info0 info1 rest Hun) as Hnot.
        fold (decision (info0 :: info1 :: rest)) in Hnot.
        destruct (decision (info0 :: info1 :: rest)) as [[r|]|msg];
          [exfalso; exact (Hnot r eq_refl) | reflexivity | reflexivity].
      * intros msg ->. reflexivity.
      * intros r ->. reflexivity.
  - split.
    + intros analysis_id total futures completed games t Ht.
      now apply pool_loop_runs.
    + reflexivity.
Qed.

Lemma analyze_position_contained_witness :
  (forall s, snd (@quit toy_chess (scripted_engine sharp_script) s) = Ok tt) /\
  exists r, @analyze_position toy_chess (scripted_engine sharp_script) toy_position = Ok r.
Proof.
  assert (Hquit : forall s, snd (@quit toy_chess (scripted_engine sharp_script) s) = Ok tt)
    by (intros s; reflexivity).
  split; [exact Hquit |].
  exact (proj1 (proj2 (proj1 (proj2 (@analyze_position_contained toy_chess
           (scripted_engine sharp_script) toy_position))) Hquit)).
Defined.

(** ** The position enumerator *)

Lemma boards_before_length `{ChessLib} (moves : list Move) (b : Board) :
  length (boards_before b moves) = length moves.
Proof.
  revert b. induction moves as [|move rest IH]; intros b; cbn; [reflexivity|].
  now rewrite IH.
Qed.

(** The board before ply [i] is the starting board after the [i] moves
    that precede the ply. *)
Lemma boards_before_lookup `{ChessLib} (moves : list Move) (b : Board) (i : nat) :
  (i < length moves)%nat ->
  boards_before b moves !! i = Some (foldl push b (take i moves)).
Proof.
  revert b i. induction moves as [|move rest IH]; intros b i Hi; cbn in Hi; [lia|].
  destruct i as [|i]; [reflexivity|].
  cbn. apply IH. lia.
Qed.

Lemma expected_tasks_length `{ChessLib} (games : list Game) (count : Z) :
  length (expected_tasks games count) = plies games.
Proof.
  revert count. induction games as [|game rest IH]; intros count; [reflexivity|].
  cbn [expected_tasks]. rewrite length_app, length_fmap, boards_before_length, IH.
  reflexivity.
Qed.

Lemma snapshot_Some {B} (heap : list B) (pd : PositionData nat) (task : PositionData B) :
  snapshot heap pd = Some task ->
  (pd_board pd < length heap)%nat.
Proof.
  unfold snapshot. intros Hs.
  destruct (heap !! pd_board pd) as [b|] eqn:Hb; [|discriminate].
  now apply lookup_lt_Some in Hb.
Qed.

Lemma snapshot_stable {B} (heap : list B) (board : nat) (b b' : B)
    (pd : PositionData nat) (task : PositionData B) :
  pd_board pd <> board ->
  snapshot heap pd = Some task ->
  snapshot (<[board := b']> (heap ++ [b])) pd = Some task.
Proof.
  intros Hne Hs. pose proof (snapshot_Some _ _ _ Hs) as Hlt.
  unfold snapshot in *.
  rewrite list_lookup_insert_ne by congruence.
  now rewrite lookup_app_l.
Qed.

Lemma snapshot_grow {B} (heap : list B) (b : B)
    (pd : PositionData nat) (task : PositionData B) :
  snapshot heap pd = Some task ->
  snapshot (heap ++ [b]) pd = Some task.
Proof.
  intros Hs. pose proof (snapshot_Some _ _ _ Hs) as Hlt.
  unfold snapshot in *. now rewrite lookup_app_l.
Qed.

(** Replaying a game appends its tasks: the copies taken before each
    move keep the state the board had then, whatever is pushed on the
    board afterwards. *)
Lemma replay_denote `{ChessLib} (board : nat) (number : Z) (moves : list Move) :
  forall (heap : list Board) (positions : list (PositionData nat))
         (b : Board) (tasks : list (PositionData Board)),
  heap !! board = Some b ->
  denote heap board positions tasks ->
  denote (fst (replay board number moves heap positions)) board
         (snd (replay board number moves heap positions))
         (tasks ++ (task_before number <$> boards_before b moves)).
Proof.
  induction moves as [|move rest IH]; intros heap positions b tasks Hb Hden.
  - cbn. now rewrite app_nil_r.
  - cbn [replay boards_before fmap list_fmap]. rewrite Hb. cbn [alloc].
    pose proof (lookup_lt_Some _ _ _ Hb) as Hlt.
    replace (tasks ++ task_before number b :: (task_before number <$> boards_before (push b move) rest))
      with ((tasks ++ [task_before number b]) ++ (task_before number <$> boards_before (push b move) rest))
      by (now rewrite <- app_assoc).
    apply IH.
    + apply list_lookup_insert_eq. rewrite length_app. cbn. lia.
    + apply Forall2_app.
      * eapply Forall2_impl; [exact Hden|].
        intros pd task [Hne Hs]. split; [exact Hne|].
        now apply snapshot_stable.
      * constructor; [|constructor]. cbn [pd_board]. split; [lia|].
        unfold snapshot. cbn [pd_board pd_move_number pd_turn pd_game_number].
        rewrite list_lookup_insert_ne by lia.
        rewrite lookup_app_r by lia. rewrite Nat.sub_diag. reflexivity.
Qed.

Lemma denote_snapshots `{ChessLib} heap board positions tasks :
  denote heap board positions tasks ->
  Forall2 (fun pd task => snapshot heap pd = Some task) positions tasks.
Proof. intros Hden. eapply Forall2_impl; [exact Hden|]. now intros pd task [_ Hs]. Qed.

(** The first pass over the games of a file. *)
Lemma read_games_denote `{ChessLib} (games : list Game) :
  forall (count : Z) (st : FirstPass) (tasks : list (PositionData Board)),
  Forall2 (fun pd task => snapshot (fp_heap st) pd = Some task) (all_positions st) tasks ->
  let st' := read_games games count st in
  Forall2 (fun pd task => snapshot (fp_heap st') pd = Some task)
          (all_positions st') (tasks ++ expected_tasks games count) /\
  all_games st' = all_games st ++ expected_infos games count.
Proof.
  induction games as [|game rest IH]; intros count st tasks Hsnap.
  - cbn. now rewrite !app_nil_r.
  - cbn [read_games expected_tasks expected_infos alloc].
    set (board := length (fp_heap st)).
    set (heap := fp_heap st ++ [game_board game]).
    pose proof (replay_denote board (count + 1) (mainline_moves game) heap
                  (all_positions st) (game_board game) tasks) as Hrep.
    destruct (replay board (count + 1) (mainline_moves game) heap (all_positions st))
      as [heap' positions] eqn:Hreplay.
    cbn [fst snd] in Hrep.
    cbv zeta.
    specialize (IH (count + 1)
      {| fp_heap := heap'; all_games := all_games st ++ [make_game_info (count + 1) (headers game)];
         all_positions := positions |}
      (tasks ++ (task_before (count + 1) <$> boards_before (game_board game) (mainline_moves game)))).
    cbn [fp_heap all_positions all_games] in IH. cbv zeta in IH.
    rewrite <- !app_assoc in IH. cbn [app] in IH.
    apply IH. apply denote_snapshots with (board := board). apply Hrep.
    + subst heap board. rewrite lookup_app_r by lia. now rewrite Nat.sub_diag.
    + eapply Forall2_impl; [exact Hsnap|].
      intros pd task Hs. pose proof (snapshot_Some _ _ _ Hs) as Hlt.
      split; [subst board; lia|]. subst heap. now apply snapshot_grow.
Qed.

Lemma first_pass_denote `{ChessLib} (games : list Game) :
  Forall2 (fun pd task => snapshot (fp_heap (first_pass games)) pd = Some task)
          (all_positions (first_pass games)) (expected_tasks games 0) /\
  all_games (first_pass games) = expected_infos games 0.
Proof.
  unfold first_pass.
  pose proof (read_games_denote games 0
     {| fp_heap := []; all_games := []; all_positions := [] |} [] (List.Forall2_nil _)) as Hrd.
  cbv zeta in Hrd. cbn [all_games app] in Hrd. exact Hrd.
Qed.

Lemma omap_Forall2 {A B} (f : A -> option B) (l : list A) (k : list B) :
  Forall2 (fun x y => f x = Some y) l k -> omap f l = k.
Proof.
  induction 1 as [|x y l k Hxy _ IH]; [reflexivity|].
  cbn. rewrite Hxy. cbn. now rewrite IH.
Qed.

(** What the workers are handed. *)
Lemma first_pass_tasks `{ChessLib} (games : list Game) :
  omap (snapshot (fp_heap (first_pass games))) (all_positions (first_pass games))
    = expected_tasks games 0.
Proof. apply omap_Forall2. apply first_pass_denote. Qed.

Lemma first_pass_count `{ChessLib} (games : list Game) :
  length (all_positions (first_pass games)) = plies games.
Proof.
  rewrite (Forall2_length _ _ _ (proj1 (first_pass_denote games))).
  apply expected_tasks_length.
Qed.

(** C6: the enumerator emits one task per mainline ply; read through the
    heap when the first pass is over, the tasks are, game after game in
    the order of the file and ply after ply within a game, the board as
    it was before the ply's move (the starting board after the moves that
    precede the ply), with that board's move number, the number of the
    game, and the side to move: ["Blancs"] when white is to move on that
    board and ["Noirs"] when black is. *)
Theorem enumerator_emits_plies `{ChessLib} (games : list Game) :
  let fp := first_pass games in
  mapM (snapshot (fp_heap fp)) (all_positions fp) = Some (expected_tasks games 0) /\
  length (all_positions fp) = plies games /\
  (forall (game : Game) (count : Z) (i : nat),
     (i < length (mainline_moves game))%nat ->
     (task_before count <$> boards_before (game_board game) (mainline_moves game)) !! i
       = Some {| pd_board := foldl push (game_board game) (take i (mainline_moves game));
                 pd_move_number :=
                   fullmove_number (foldl push (game_board game) (take i (mainline_moves game)));
                 pd_turn :=
                   if white_to_move
                        (foldl push (game_board game) (take i (mainline_moves game)))
                   then "Blancs" else "Noirs";
                 pd_game_number := count |}) /\
  Forall (fun task =>
            pd_move_number task = fullmove_number (pd_board task) /\
            (white_to_move (pd_board task) = true -> pd_turn task = "Blancs") /\
            (white_to_move (pd_board task) = false -> pd_turn task = "Noirs"))
         (expected_tasks games 0).
Proof.
  cbv zeta. split; [| split; [| split]].
  - apply mapM_Some. apply first_pass_denote.
  - apply first_pass_count.
  - intros game count i Hi.
    rewrite list_lookup_fmap, boards_before_lookup by exact Hi. reflexivity.
  - generalize 0. induction games as [|game rest IH]; intros count; [constructor|].
    cbn [expected_tasks]. apply Forall_app. split; [|apply IH].
    apply Forall_fmap, Forall_forall. intros b _. cbn.
    split; [reflexivity|]. split; intros ->; reflexivity.
Qed.

(** Two toy games, of three and two plies. *)
Example enumerator_two_games :
  let fp := @first_pass toy_chess [toy_game ∅ [1; 2; 3]%nat; toy_game ∅ [4; 5]%nat] in
  omap (snapshot (fp_heap fp)) (all_positions fp) =
    [ {| pd_board := []; pd_move_number := 1; pd_turn := "Blancs"; pd_game_number := 1 |};
      {| pd_board := [1%nat]; pd_move_number := 1; pd_turn := "Noirs"; pd_game_number := 1 |};
      {| pd_board := [1; 2]%nat; pd_move_number := 2; pd_turn := "Blancs"; pd_game_number := 1 |};
      {| pd_board := []; pd_move_number := 1; pd_turn := "Blancs"; pd_game_number := 2 |};
      {| pd_board := [4%nat]; pd_move_number := 1; pd_turn := "Noirs"; pd_game_number := 2 |} ].
Proof. reflexivity. Qed.

(** ** The states a poll may read *)

Section Invariants.
Context `{EngineLib}.
Variable analysis_id : string.
Variable I : gmap string (gmap string pyval) -> Prop.
Hypothesis I_write : forall reg key v,
  job_write key v -> I reg -> I (alter (insert key v) analysis_id reg).

Lemma keeps_ret {A} (a : A) : keeps I (mret a).
Proof. intros t Ht. exact Ht. Qed.

Lemma keeps_lift {A} (c : Exc A) : keeps I (lift c).
Proof. intros t Ht. exact Ht. Qed.

Lemma keeps_bind {A B} (c : SE Trace A) (f : A -> SE Trace B) :
  keeps I c -> (forall a, keeps I (f a)) -> keeps I (c ≫= f).
Proof.
  intros Hc Hf t Ht. unfold mbind, SE_bind.
  specialize (Hc t Ht).
  destruct (c t) as [t' [a|msg]]; cbn [fst] in *; [|exact Hc].
  now apply Hf.
Qed.

Lemma keeps_set_field key v :
  job_write key v -> keeps I (set_field analysis_id key v).
Proof.
  intros Hw t Ht. cbn. constructor; [|exact Ht].
  apply I_write; [exact Hw|]. now inversion Ht.
Qed.

Lemma keeps_pool_loop total futures :
  forall completed games, keeps I (pool_loop analysis_id total futures completed games).
Proof.
  induction futures as [|future rest IH]; intros completed games.
  - apply keeps_ret.
  - cbn [pool_loop].
    apply keeps_bind; [apply keeps_set_field; constructor | intros _].
    apply keeps_bind; [apply keeps_lift | intros p].
    apply keeps_bind; [apply keeps_set_field; constructor | intros _].
    apply IH.
Qed.

Lemma keeps_dispatch env total futures games :
  keeps I (dispatch env analysis_id total futures games).
Proof.
  unfold dispatch. destruct (pool_fault env) as [[k msg]|].
  - apply keeps_bind; [apply keeps_pool_loop | intros _; apply keeps_lift].
  - apply keeps_pool_loop.
Qed.

Lemma keeps_try env : keeps I (analyze_pgn_try env analysis_id).
Proof.
  unfold analyze_pgn_try.
  apply keeps_bind; [apply keeps_lift | intros games].
  cbv zeta. destruct (all_games (first_pass games)).
  - apply keeps_set_field. constructor.
  - apply keeps_bind; [apply keeps_set_field; constructor | intros _].
    apply keeps_bind; [apply keeps_set_field; constructor | intros _].
    apply keeps_bind; [apply keeps_dispatch | intros games'].
    apply keeps_bind; [apply keeps_set_field; constructor | intros _].
    apply keeps_set_field; constructor.
Qed.

(** Every state the run leaves to be read satisfies an invariant of the
    job's stores that holds when the entry is initialised. *)
Lemma run_invariant env reg :
  I (init_progress analysis_id reg) ->
  Forall I (observable (analyze_pgn_async env analysis_id reg)).
Proof.
  intros Hinit. unfold analyze_pgn_async. cbv zeta.
  pose proof (keeps_try env {| now := init_progress analysis_id reg; past := [] |}) as Htry.
  destruct (analyze_pgn_try env analysis_id _) as [t [[]|msg]]; cbn [fst] in Htry.
  - apply Htry. repeat constructor. exact Hinit.
  - apply keeps_set_field; [constructor|].
    apply Htry. repeat constructor. exact Hinit.
Qed.

End Invariants.

(** ** Fields of the job's entry *)

Lemma field_alter_same analysis_id key v reg :
  is_Some (reg !! analysis_id) ->
  field analysis_id key (alter (insert key v) analysis_id reg) = Some v.
Proof.
  intros [progress Hp]. unfold field. rewrite lookup_alter_eq, Hp. cbn.
  apply lookup_insert_eq.
Qed.

Lemma field_alter_ne analysis_id key key' v reg :
  key' <> key ->
  field analysis_id key' (alter (insert key v) analysis_id reg)
    = field analysis_id key' reg.
Proof.
  intros Hne. unfold field. rewrite lookup_alter_eq.
  destruct (reg !! analysis_id) as [progress|]; cbn; [|reflexivity].
  now apply lookup_insert_ne.
Qed.

Lemma alter_present analysis_id key v (reg : gmap string (gmap string pyval)) :
  is_Some (alter (insert key v) analysis_id reg !! analysis_id)
  <-> is_Some (reg !! analysis_id).
Proof. rewrite lookup_alter_eq. apply fmap_is_Some. Qed.

Lemma init_progress_present analysis_id reg :
  is_Some (init_progress analysis_id reg !! analysis_id).
Proof.
  unfold init_progress. destruct (reg !! analysis_id); rewrite lookup_insert_eq; eauto.
Qed.

Lemma init_progress_field analysis_id key v reg :
  initial_fields !! key = Some v ->
  field analysis_id key (init_progress analysis_id reg) = Some v.
Proof.
  intros Hk. unfold field, init_progress.
  destruct (reg !! analysis_id); rewrite lookup_insert_eq; cbn; [|exact Hk].
  now apply lookup_union_Some_l.
Qed.

(** ** The job's status *)

Lemma status_in_lifecycle_write analysis_id reg key v :
  job_write key v ->
  status_in_lifecycle analysis_id reg ->
  status_in_lifecycle analysis_id (alter (insert key v) analysis_id reg).
Proof.
  intros Hw (s & Hs & Hcases).
  assert (Hpresent : is_Some (reg !! analysis_id)).
  { unfold field in Hs. destruct (reg !! analysis_id); [eauto | discriminate]. }
  destruct Hw;
    try (exists s; rewrite field_alter_ne by discriminate; now split).
  - exists "analyzing". rewrite field_alter_same by exact Hpresent. auto.
  - exists "completed". rewrite field_alter_same by exact Hpresent. auto.
Qed.

(** Whatever happens to a run, its status is never ["error"]: it stays
    one of starting, analyzing and completed in every state a poll may
    read. *)
Lemma status_never_error `{EngineLib} (env : JobEnv) (analysis_id : string)
    (reg : gmap string (gmap string pyval)) :
  Forall (status_in_lifecycle analysis_id)
         (observable (analyze_pgn_async env analysis_id reg)).
Proof.
  apply run_invariant.
  - intros r key v. apply status_in_lifecycle_write.
  - exists "starting". split; [|auto].
    apply init_progress_field. reflexivity.
Qed.

(** The run on a file that cannot be read, or that holds no game. *)
Lemma run_unreadable `{EngineLib} (env : JobEnv) analysis_id reg msg :
  corpus env = Raise msg ->
  analyze_pgn_async env analysis_id reg =
    fst (set_field analysis_id "error" (VStr msg)
           {| now := init_progress analysis_id reg; past := [] |}).
Proof.
  intros Hc. unfold analyze_pgn_async, analyze_pgn_try. cbv zeta.
  unfold mbind at 1. unfold SE_bind at 1. unfold lift at 1. now rewrite Hc.
Qed.

Lemma run_no_game `{EngineLib} (env : JobEnv) analysis_id reg :
  corpus env = Ok [] ->
  analyze_pgn_async env analysis_id reg =
    fst (set_field analysis_id "error" (VStr "Le fichier PGN est invalide ou vide.")
           {| now := init_progress analysis_id reg; past := [] |}).
Proof.
  intros Hc. unfold analyze_pgn_async, analyze_pgn_try. cbv zeta.
  unfold mbind at 1. unfold SE_bind at 1. unfold lift at 1. now rewrite Hc.
Qed.

Lemma get_results_processing analysis_id reg s :
  field analysis_id "status" reg = Some (VStr s) ->
  s <> "completed" -> s <> "error" ->
  get_results analysis_id reg = StillProcessing.
Proof.
  unfold field, get_results. intros Hs Hc He.
  destruct (reg !! analysis_id) as [progress|]; [|discriminate].
  cbn in Hs. rewrite Hs.
  destruct (String.eqb_spec s "completed"); [contradiction|].
  destruct (String.eqb_spec s "error"); [contradiction|]. reflexivity.
Qed.

(** ** The run on a file that holds games *)

Lemma expected_infos_cons `{ChessLib} (game : Game) (rest : list Game) (count : Z) :
  exists info infos, expected_infos (game :: rest) count = info :: infos.
Proof. cbn. eauto. Qed.

Lemma run_games `{EngineLib} (env : JobEnv) analysis_id reg (games : list Game) :
  corpus env = Ok games ->
  games <> [] ->
  analyze_pgn_async env analysis_id reg =
    match dispatch env analysis_id (Z.of_nat (plies games)) (submitted games)
            (expected_infos games 0)
            (analyzing_state analysis_id (Z.of_nat (plies games)) reg) with
    | (t, Ok games') =>
      fst (set_field analysis_id "results" (VGames games')
             (fst (set_field analysis_id "status" (VStr "completed") t)))
    | (t, Raise msg) => fst (set_field analysis_id "error" (VStr msg) t)
    end.
Proof.
  intros Hc Hne. unfold analyze_pgn_async, analyze_pgn_try. cbv zeta.
  unfold mbind at 1. unfold SE_bind at 1. unfold lift at 1. rewrite Hc.
  rewrite first_pass_tasks, first_pass_count.
  rewrite (proj2 (first_pass_denote games)).
  destruct games as [|game rest]; [contradiction|].
  destruct (expected_infos_cons game rest 0) as (info & infos & Hinfos).
  rewrite Hinfos.
  unfold mbind at 1. unfold SE_bind at 1.
  unfold mbind at 1. unfold SE_bind at 1.
  unfold mbind at 1. unfold SE_bind at 1.
  fold (submitted (game :: rest)).
  unfold analyzing_state. cbn [set_field fst].
  destruct (dispatch _ _ _ _ _ _) as [t [games'|msg]]; reflexivity.
Qed.

Lemma set_field_now analysis_id key v t :
  now (fst (set_field analysis_id key v t)) = alter (insert key v) analysis_id (now t).
Proof. reflexivity. Qed.

Lemma analyzing_state_present analysis_id total reg :
  is_Some (now (analyzing_state analysis_id total reg) !! analysis_id).
Proof.
  unfold analyzing_state. rewrite !set_field_now.
  apply alter_present, alter_present, init_progress_present.
Qed.

Lemma analyzing_state_field analysis_id total reg key :
  field analysis_id key (now (analyzing_state analysis_id total reg)) =
    if decide (key = "status") then Some (VStr "analyzing")
    else if decide (key = "total_moves") then Some (VInt total)
    else field analysis_id key (init_progress analysis_id reg).
Proof.
  unfold analyzing_state. rewrite !set_field_now.
  case_decide as Hs.
  - subst. apply field_alter_same, alter_present, init_progress_present.
  - rewrite field_alter_ne by exact Hs.
    case_decide as Ht.
    + subst. apply field_alter_same, init_progress_present.
    + now rewrite field_alter_ne.
Qed.

(** The pool's loop, when the total is not zero: it ends without an
    exception, having stored the count and the percentage of each
    completion; the last ones stay in the entry. *)
Lemma pool_loop_fields `{ChessLib} (analysis_id : string) (total : Z) (futures : list Future) :
  total <> 0 ->
  forall (completed : Z) (games : list GameInfo) (t : Trace),
  exists t',
    pool_loop analysis_id total futures completed games t
      = (t', Ok (aggregate futures games)) /\
    (is_Some (now t' !! analysis_id) <-> is_Some (now t !! analysis_id)) /\
    (forall key, key <> "current_move" -> key <> "progress" ->
       field analysis_id key (now t') = field analysis_id key (now t)) /\
    (futures = [] -> t' = t) /\
    (futures <> [] -> is_Some (now t !! analysis_id) ->
       field analysis_id "current_move" (now t')
         = Some (VInt (completed + Z.of_nat (length futures))) /\
       exists p, percent (completed + Z.of_nat (length futures)) total = Ok p /\
                 field analysis_id "progress" (now t') = Some (VInt p)).
Proof.
  intros Ht. induction futures as [|future rest IH]; intros completed games t.
  - exists t. repeat split; try tauto; try contradiction.
  - unfold aggregate. cbn [pool_loop foldl]. fold (aggregate rest (collect future games)).
    destruct (percent_defined (completed + 1) total Ht) as [p Hp].
    unfold mbind at 1. unfold SE_bind at 1. cbn [set_field].
    unfold mbind at 1. unfold SE_bind at 1. unfold lift at 1. rewrite Hp.
    unfold mbind at 1. unfold SE_bind at 1. cbn [set_field].
    match goal with |- context [pool_loop _ _ rest _ _ ?t1] => set (t1' := t1) end.
    destruct (IH (completed + 1) (collect future games) t1')
      as (t' & Hrun & Hpresent & Hother & Hnil & Hcons).
    exists t'. split; [exact Hrun|].
    assert (Hp1 : is_Some (now t1' !! analysis_id) <-> is_Some (now t !! analysis_id)).
    { subst t1'. cbn [now]. now rewrite !alter_present. }
    split; [now rewrite Hpresent|].
    split.
    { intros key Hk1 Hk2. rewrite Hother by assumption.
      subst t1'. cbn [now]. now rewrite !field_alter_ne. }
    split; [discriminate|].
    intros _ Hsome.
    replace (completed + Z.of_nat (length (future :: rest)))
      with (completed + 1 + Z.of_nat (length rest)) by (cbn [length]; lia).
    destruct rest as [|future' rest'].
    + rewrite (Hnil eq_refl). subst t1'. cbn [now length].
      rewrite Z.add_0_r. split.
      * rewrite field_alter_ne by discriminate.
        now apply field_alter_same.
      * exists p. split; [exact Hp|].
        apply field_alter_same. now apply alter_present.
    + apply Hcons; [discriminate|]. now apply Hp1.
Qed.

(** ** Failed jobs *)

(** The run on a file without any game, from upload to the end: the
    message is stored, the status is still ["starting"], and the results
    endpoint, which looks for the status ["error"], answers that the job
    is still processing. *)
Example empty_run_status :
  field "job" "status" (now empty_run) = Some (VStr "starting") /\
  field "job" "error" (now empty_run) = Some (VStr "Le fichier PGN est invalide ou vide.") /\
  field "job" "results" (now empty_run) = Some VNone /\
  get_results "job" (now empty_run) = StillProcessing.
Proof. repeat split; reflexivity. Qed.

(** C3: what the code does on the two failures. On a file without any
    game the fixed message is stored and the results stay [None], but the
    status stays ["starting"]; on an exception raised in the pool's [with]
    block the message is stored over the last state recorded, whose other
    fields (counts, percentage) are kept, and the results stay [None], but
    the status stays ["analyzing"]. In both cases the status is not
    ["error"], and [get_results] answers that the job is still
    processing. *)
Theorem failed_job_keeps_status `{EngineLib} (env : JobEnv) (analysis_id : string)
    (reg : gmap string (gmap string pyval)) :
  (corpus env = Ok [] ->
   let final := now (analyze_pgn_async env analysis_id reg) in
   field analysis_id "status" final = Some (VStr "starting") /\
   field analysis_id "error" final = Some (VStr "Le fichier PGN est invalide ou vide.") /\
   field analysis_id "results" final = Some VNone /\
   get_results analysis_id final = StillProcessing) /\
  (forall games k msg,
   corpus env = Ok games ->
   plies games <> 0%nat ->
   pool_fault env = Some (k, msg) ->
   let run := analyze_pgn_async env analysis_id reg in
   field analysis_id "status" (now run) = Some (VStr "analyzing") /\
   field analysis_id "error" (now run) = Some (VStr msg) /\
   field analysis_id "results" (now run) = Some VNone /\
   get_results analysis_id (now run) = StillProcessing /\
   exists before earlier,
     past run = before :: earlier /\
     now run = alter (insert "error" (VStr msg)) analysis_id before).
Proof.
  split.
  - intros Hc. cbv zeta. rewrite (run_no_game env analysis_id reg Hc).
    rewrite set_field_now.
    assert (Hstatus : field analysis_id "status"
              (alter (insert "error" (VStr "Le fichier PGN est invalide ou vide."))
                 analysis_id (init_progress analysis_id reg)) = Some (VStr "starting")).
    { rewrite field_alter_ne by discriminate. now apply init_progress_field. }
    split; [exact Hstatus|].
    split; [apply field_alter_same, init_progress_present|].
    split; [rewrite field_alter_ne by discriminate; now apply init_progress_field|].
    eapply get_results_processing; [exact Hstatus | discriminate | discriminate].
  - intros games k msg Hc Hplies Hfault. cbv zeta.
    assert (Hne : games <> []) by (intros ->; now apply Hplies).
    rewrite (run_games env analysis_id reg games Hc Hne).
    unfold dispatch. rewrite Hfault.
    assert (Htotal : Z.of_nat (plies games) <> 0) by lia.
    destruct (pool_loop_fields analysis_id (Z.of_nat (plies games))
                (take k (as_completed env (submitted games))) Htotal 0
                (expected_infos games 0)
                (analyzing_state analysis_id (Z.of_nat (plies games)) reg))
      as (t & Hrun & Hpresent & Hother & _).
    match goal with |- context [(?c ≫= ?f) ?s] =>
      assert (Hd : (c ≫= f) s = (t, Raise msg))
        by (unfold mbind, SE_bind; rewrite Hrun; reflexivity);
      rewrite !Hd
    end.
    cbn [fst set_field now past].
    assert (Hsome : is_Some (now t !! analysis_id))
      by (apply Hpresent, analyzing_state_present).
    assert (Hstatus : field analysis_id "status"
              (alter (insert "error" (VStr msg)) analysis_id (now t))
            = Some (VStr "analyzing")).
    { rewrite field_alter_ne by discriminate.
      rewrite Hother by discriminate. now rewrite analyzing_state_field. }
    split; [exact Hstatus|].
    split; [now apply field_alter_same|].
    split.
    { rewrite field_alter_ne by discriminate.
      rewrite Hother by discriminate. rewrite analyzing_state_field.
      cbn. now apply init_progress_field. }
    split; [eapply get_results_processing; [exact Hstatus | discriminate | discriminate]|].
    exists (now t), (past t). split; reflexivity.
Qed.

(** ** Completed jobs *)

Lemma significand_self (p : positive) :
  Binary64.significand (Zpos p) (Zpos p) = (2 ^ 52, -52).
Proof.
  unfold Binary64.significand, Binary64.floor_log2.
  rewrite Z.sub_diag.
  assert (Hk : (Binary64.scaled_den (Z.pos p) 0 <=? Binary64.scaled_num (Z.pos p) 0) = true).
  { apply Z.leb_le. unfold Binary64.scaled_den, Binary64.scaled_num.
    change (Z.max 0 (- 0)) with 0. change (Z.max 0 0) with 0. lia. }
  cbv zeta. rewrite Hk.
  change (0 - (Binary64.prec - 1)) with (-52).
  unfold Binary64.scaled_num, Binary64.scaled_den, Binary64.round_half_even.
  change (Z.max 0 (- -52)) with 52. change (Z.max 0 (-52)) with 0.
  rewrite Z.pow_0_r, Z.mul_1_r.
  rewrite (Z.mul_comm (Z.pos p)).
  rewrite Z.div_mul by lia. rewrite Z.mod_mul by lia.
  cbv zeta.
  replace (2 * 0 ?= Z.pos p) with Lt; [reflexivity|].
  symmetry. apply Z.compare_lt_iff. lia.
Qed.

(** [n / n] is the float 1.0, and [1.0 * 100] truncates to 100. *)
Lemma percent_full (n : Z) : 0 < n -> percent n n = Ok 100.
Proof.
  intros Hn. unfold percent, int_truediv.
  destruct (Z.eqb_spec n 0) as [->|_]; [lia|].
  destruct n as [|p|p]; try lia.
  change (Z.to_pos (Z.abs (Z.pos p))) with p.
  change (Z.sgn (Z.pos p)) with 1. rewrite Z.mul_1_r.
  replace (Binary64.round (Z.pos p # p)) with (Binary64.value (2 ^ 52, -52)).
  2:{ unfold Binary64.round. cbn [Qnum Qden]. now rewrite significand_self. }
  vm_compute. reflexivity.
Qed.

(** C5, as stated, fails: a file whose only game has no move gives a job
    over 0 positions that completes with a percentage of 0, not 100. *)
Lemma moveless_job_completes_at_zero :
  field "job" "status" (now moveless_run) = Some (VStr "completed") /\
  field "job" "total_moves" (now moveless_run) = Some (VInt 0) /\
  field "job" "current_move" (now moveless_run) = Some (VInt 0) /\
  field "job" "progress" (now moveless_run) = Some (VInt 0) /\
  field "job" "progress" (now moveless_run) <> Some (VInt 100).
Proof. repeat split; try reflexivity. discriminate. Qed.

(** A run that meets no exception: its last two stores, made on the
    state the pool's loop leaves. *)
Lemma run_completes `{EngineLib} (env : JobEnv) (analysis_id : string)
    (reg : gmap string (gmap string pyval)) (games : list Game) :
  corpus env = Ok games ->
  plies games <> 0%nat ->
  pool_fault env = None ->
  as_completed env (submitted games) ≡ₚ submitted games ->
  exists t,
    analyze_pgn_async env analysis_id reg =
      fst (set_field analysis_id "results"
             (VGames (aggregate (as_completed env (submitted games))
                                (expected_infos games 0)))
             (fst (set_field analysis_id "status" (VStr "completed") t))) /\
    is_Some (now t !! analysis_id) /\
    field analysis_id "current_move" (now t) = Some (VInt (Z.of_nat (plies games))) /\
    field analysis_id "progress" (now t) = Some (VInt 100) /\
    (forall key, key <> "current_move" -> key <> "progress" ->
       field analysis_id key (now t)
         = field analysis_id key
             (now (analyzing_state analysis_id (Z.of_nat (plies games)) reg))).
Proof.
  intros Hc Hplies Hfault Hperm.
  assert (Hne : games <> []) by (intros ->; now apply Hplies).
  rewrite (run_games env analysis_id reg games Hc Hne).
  unfold dispatch. rewrite Hfault.
  assert (Htotal : Z.of_nat (plies games) <> 0) by lia.
  assert (Hlen : length (as_completed env (submitted games)) = plies games).
  { rewrite (Permutation_length Hperm). unfold submitted.
    now rewrite length_fmap, expected_tasks_length. }
  destruct (pool_loop_fields analysis_id (Z.of_nat (plies games))
              (as_completed env (submitted games)) Htotal 0
              (expected_infos games 0)
              (analyzing_state analysis_id (Z.of_nat (plies games)) reg))
    as (t & Hrun & Hpresent & Hother & _ & Hlast).
  rewrite Hrun. exists t.
  split; [reflexivity|].
  split; [apply Hpresent, analyzing_state_present|].
  destruct Hlast as (Hcur & p & Hp & Hprog).
  { intros Hnil. rewrite Hnil in Hlen. cbn in Hlen. lia. }
  { apply analyzing_state_present. }
  rewrite Hlen, Z.add_0_l in Hcur, Hp.
  rewrite percent_full in Hp by lia. injection Hp as <-.
  now repeat split.
Qed.

(** C5, amended: for a job over N >= 1 positions, without an exception
    of the executor, once each of the N futures has completed (in any
    order) the entry has current_move = total_moves = N, progress = 100
    and status completed, and its results are the games with the moments
    of the futures appended in the order of completion. *)
Theorem completed_job_is_full `{EngineLib} (env : JobEnv) (analysis_id : string)
    (reg : gmap string (gmap string pyval)) (games : list Game) :
  corpus env = Ok games ->
  plies games <> 0%nat ->
  pool_fault env = None ->
  as_completed env (submitted games) ≡ₚ submitted games ->
  let final := now (analyze_pgn_async env analysis_id reg) in
  let total := Z.of_nat (plies games) in
  field analysis_id "current_move" final = Some (VInt total) /\
  field analysis_id "total_moves" final = Some (VInt total) /\
  field analysis_id "progress" final = Some (VInt 100) /\
  field analysis_id "status" final = Some (VStr "completed") /\
  field analysis_id "results" final =
    Some (VGames (aggregate (as_completed env (submitted games))
                            (expected_infos games 0))) /\
  field analysis_id "error" final = Some VNone.
Proof.
  intros Hc Hplies Hfault Hperm. cbv zeta.
  destruct (run_completes env analysis_id reg games Hc Hplies Hfault Hperm)
    as (t & -> & Hsome & Hcur & Hprog & Hother).
  rewrite !set_field_now.
  repeat split.
  - rewrite !field_alter_ne by discriminate. exact Hcur.
  - rewrite !field_alter_ne by discriminate.
    rewrite Hother by discriminate. now rewrite analyzing_state_field.
  - rewrite !field_alter_ne by discriminate. exact Hprog.
  - rewrite field_alter_ne by discriminate. now apply field_alter_same.
  - apply field_alter_same. now apply alter_present.
  - rewrite !field_alter_ne by discriminate.
    rewrite Hother by discriminate. rewrite analyzing_state_field. cbn.
    now apply init_progress_field.
Qed.

Lemma completed_job_is_full_witness :
  let run := @analyze_pgn_async toy_chess (scripted_engine sharp_script)
               (fifo_env (Ok [toy_game ∅ [1; 2; 3]%nat])) "job"
               (register_upload "job" "a.pgn" ∅) in
  field "job" "current_move" (now run) = Some (VInt 3) /\
  field "job" "progress" (now run) = Some (VInt 100) /\
  field "job" "status" (now run) = Some (VStr "completed").
Proof.
  cbv zeta.
  destruct (@completed_job_is_full toy_chess (scripted_engine sharp_script)
              (fifo_env (Ok [toy_game ∅ [1; 2; 3]%nat])) "job"
              (register_upload "job" "a.pgn" ∅) [toy_game ∅ [1; 2; 3]%nat])
    as (Hcur & _ & Hprog & Hstatus & _).
  - reflexivity.
  - cbn. lia.
  - reflexivity.
  - reflexivity.
  - repeat split; assumption.
Defined.

(** ** Polling *)

Lemma initial_fields_dom :
  dom initial_fields =@{gset string}
    {[ "status"; "progress"; "total_moves"; "current_move"; "results"; "error" ]}.
Proof.
  unfold initial_fields. rewrite !dom_insert_L, dom_empty_L.
  apply set_eq. intros key. set_unfold. tauto.
Qed.

Lemma job_write_field key v : job_write key v -> key ∈ job_fields.
Proof. unfold job_fields. destruct 1; set_unfold; tauto. Qed.

(** C8, as stated, fails: the snapshot of an uploaded job also holds the
    fields [results] and [filename], which are not among status, progress,
    total_moves, current_move and error. *)
Lemma poll_exposes_results_and_filename :
  let body := fst (get_progress "job" (register_upload "job" "a.pgn" ∅)) in
  body !! "results" = Some VNone /\
  body !! "filename" = Some (VStr "a.pgn") /\
  ("results" ∉ polled_fields) /\
  ("filename" ∉ polled_fields).
Proof.
  cbv zeta. split; [reflexivity|]. split; [reflexivity|].
  unfold polled_fields. split; set_unfold; intuition discriminate.
Qed.

Lemma uploaded_fields analysis_id filename reg :
  exists progress,
    init_progress analysis_id (register_upload analysis_id filename reg) !! analysis_id
      = Some progress /\
    dom progress = job_fields.
Proof.
  unfold init_progress, register_upload. rewrite lookup_insert_eq.
  eexists. split; [apply lookup_insert_eq|].
  rewrite dom_union_L, dom_insert_L, initial_fields_dom. unfold job_fields.
  apply set_eq. intros key. set_unfold. tauto.
Qed.

(** C8, amended: for an id that is not registered the poll answers with
    the not-found body and the status 404; for a registered id it answers
    200 with the job's whole entry as it is at that moment. For a job
    created by an upload, in every state of its run, that entry has
    exactly the fields filename, status, progress, total_moves,
    current_move, results and error ([None] while unset). *)
Theorem get_progress_snapshot :
  (forall analysis_id reg,
     reg !! analysis_id = None ->
     get_progress analysis_id reg = ({[ "error" := VStr "Analyse non trouvée" ]}, 404)) /\
  (forall analysis_id reg progress,
     reg !! analysis_id = Some progress ->
     get_progress analysis_id reg = (progress, 200)) /\
  (forall (C : ChessLib) (E : EngineLib) (env : JobEnv) analysis_id filename reg,
     Forall (fun reg' => exists body,
               get_progress analysis_id reg' = (body, 200) /\
               reg' !! analysis_id = Some body /\
               dom body = job_fields)
            (observable (analyze_pgn_async env analysis_id
                           (register_upload analysis_id filename reg)))).
Proof.
  split; [| split].
  - intros analysis_id reg Hnone. unfold get_progress. now rewrite Hnone.
  - intros analysis_id reg progress Hsome. unfold get_progress. now rewrite Hsome.
  - intros C E env analysis_id filename reg.
    apply run_invariant.
    + intros r key v Hw (body & Hget & Hbody & Hdom).
      exists (<[key := v]> body).
      assert (Hlookup : alter (insert key v) analysis_id r !! analysis_id
                        = Some (<[key := v]> body))
        by (rewrite lookup_alter_eq, Hbody; reflexivity).
      split; [unfold get_progress; now rewrite Hlookup|].
      split; [exact Hlookup|].
      rewrite dom_insert_L, Hdom.
      apply job_write_field in Hw.
      apply set_eq. intros key'. set_unfold. intuition congruence.
    + destruct (uploaded_fields analysis_id filename reg) as (progress & Hp & Hdom).
      exists progress. split; [unfold get_progress; now rewrite Hp|]. now split.
Qed.

(** A poll changes nothing: [get_progress] only reads the registry, and
    the answer for one id does not depend on the other entries. *)
Lemma get_progress_local analysis_id reg reg' :
  reg !! analysis_id = reg' !! analysis_id ->
  get_progress analysis_id reg = get_progress analysis_id reg'.
Proof. intros Heq. unfold get_progress. now rewrite Heq. Qed.

(** ** Rounding to binary64 is monotone *)

Lemma round_half_even_bounds (n d : Z) :
  0 < d -> n / d <= Binary64.round_half_even n d <= n / d + 1.
Proof.
  intros Hd. unfold Binary64.round_half_even.
  destruct (2 * (n mod d) ?= d); [destruct (Z.even (n / d)) | |]; lia.
Qed.

Lemma div_cross_le (n1 d1 n2 d2 : Z) :
  0 < d1 -> 0 < d2 -> n1 * d2 <= n2 * d1 -> n1 / d1 <= n2 / d2.
Proof.
  intros Hd1 Hd2 Hle.
  apply Z.div_le_lower_bound; [exact Hd2|].
  pose proof (Z.mul_div_le n1 d1 Hd1) as Hq.
  nia.
Qed.

(** Nearest-even rounding of a fraction is monotone in the fraction. *)
Lemma round_half_even_mono (n1 d1 n2 d2 : Z) :
  0 < d1 -> 0 < d2 -> n1 * d2 <= n2 * d1 ->
  Binary64.round_half_even n1 d1 <= Binary64.round_half_even n2 d2.
Proof.
  intros Hd1 Hd2 Hle.
  pose proof (div_cross_le n1 d1 n2 d2 Hd1 Hd2 Hle) as Hq.
  pose proof (round_half_even_bounds n1 d1 Hd1) as Hb1.
  pose proof (round_half_even_bounds n2 d2 Hd2) as Hb2.
  destruct (Z.eq_dec (n1 / d1) (n2 / d2)) as [Heq|Hne]; [|lia].
  unfold Binary64.round_half_even in *.
  pose proof (Z.div_mod n1 d1 ltac:(lia)) as Hn1.
  pose proof (Z.div_mod n2 d2 ltac:(lia)) as Hn2.
  pose proof (Z.mod_pos_bound n1 d1 Hd1) as Hr1.
  pose proof (Z.mod_pos_bound n2 d2 Hd2) as Hr2.
  rewrite <- Heq in *.
  set (q := n1 / d1) in *. set (r1 := n1 mod d1) in *. set (r2 := n2 mod d2) in *.
  assert (Hr : r1 * d2 <= r2 * d1) by nia.
  destruct (Z.compare_spec (2 * r1) d1) as [He1|Hl1|Hg1];
    destruct (Z.compare_spec (2 * r2) d2) as [He2|Hl2|Hg2];
    try destruct (Z.even q); try lia; nia.
Qed.

Lemma round_half_even_integer (a : Z) : Binary64.round_half_even a 1 = a.
Proof.
  unfold Binary64.round_half_even. rewrite Z.div_1_r, Z.mod_1_r. reflexivity.
Qed.

Lemma round_half_even_ge (a n d : Z) :
  0 < d -> a * d <= n -> a <= Binary64.round_half_even n d.
Proof.
  intros Hd Hle. rewrite <- (round_half_even_integer a).
  apply round_half_even_mono; lia.
Qed.

Lemma round_half_even_le (b n d : Z) :
  0 < d -> n <= b * d -> Binary64.round_half_even n d <= b.
Proof.
  intros Hd Hle. rewrite <- (round_half_even_integer b).
  apply round_half_even_mono; lia.
Qed.

Lemma pow2_max_pos (x : Z) : 0 < 2 ^ Z.max 0 x.
Proof. apply Z.pow_pos_nonneg; lia. Qed.

(** [2^(e+j) / 2^e = 2^j], with each power split into its numerator and
    its denominator. *)
Lemma pow2_shift (e j : Z) :
  0 <= j ->
  2 ^ Z.max 0 (e + j) * 2 ^ Z.max 0 (- e)
    = 2 ^ j * 2 ^ Z.max 0 e * 2 ^ Z.max 0 (- (e + j)).
Proof.
  intros Hj. rewrite <- !Z.pow_add_r by lia. f_equal. lia.
Qed.

(** [2^(e+j) <= n/d] gives [2^j <= (n/d) / 2^e], and the same for [<]. *)
Lemma scaled_ge_shift (n d e j : Z) :
  0 <= j ->
  Binary64.scaled_den d (e + j) <= Binary64.scaled_num n (e + j) ->
  2 ^ j * Binary64.scaled_den d e <= Binary64.scaled_num n e.
Proof.
  unfold Binary64.scaled_den, Binary64.scaled_num. intros Hj Hle.
  pose proof (pow2_shift e j Hj) as Hs.
  pose proof (pow2_max_pos (e + j)) as H1. pose proof (pow2_max_pos (- e)) as H2.
  pose proof (pow2_max_pos e) as H3. pose proof (pow2_max_pos (- (e + j))) as H4.
  set (A := 2 ^ Z.max 0 (e + j)) in *. set (B := 2 ^ Z.max 0 (- e)) in *.
  set (C := 2 ^ Z.max 0 e) in *. set (D := 2 ^ Z.max 0 (- (e + j))) in *.
  set (J := 2 ^ j) in *.
  apply (Z.mul_le_mono_pos_r _ _ D H4).
  replace (J * (d * C) * D) with (d * (J * C * D)) by ring.
  rewrite <- Hs.
  replace (d * (A * B)) with (d * A * B) by ring.
  replace (n * B * D) with (n * D * B) by ring.
  apply Z.mul_le_mono_nonneg_r; lia.
Qed.

Lemma scaled_lt_shift (n d e j : Z) :
  0 <= j ->
  Binary64.scaled_num n (e + j) < Binary64.scaled_den d (e + j) ->
  Binary64.scaled_num n e < 2 ^ j * Binary64.scaled_den d e.
Proof.
  unfold Binary64.scaled_den, Binary64.scaled_num. intros Hj Hlt.
  pose proof (pow2_shift e j Hj) as Hs.
  pose proof (pow2_max_pos (e + j)) as H1. pose proof (pow2_max_pos (- e)) as H2.
  pose proof (pow2_max_pos e) as H3. pose proof (pow2_max_pos (- (e + j))) as H4.
  set (A := 2 ^ Z.max 0 (e + j)) in *. set (B := 2 ^ Z.max 0 (- e)) in *.
  set (C := 2 ^ Z.max 0 e) in *. set (D := 2 ^ Z.max 0 (- (e + j))) in *.
  set (J := 2 ^ j) in *.
  apply (Z.mul_lt_mono_pos_r D _ _ H4).
  replace (J * (d * C) * D) with (d * (J * C * D)) by ring.
  rewrite <- Hs.
  replace (d * (A * B)) with (d * A * B) by ring.
  replace (n * B * D) with (n * D * B) by ring.
  apply Z.mul_lt_mono_pos_r; lia.
Qed.

(** [floor_log2 n d] is the binade of [n/d]:
    [2^L <= n/d < 2^(L+1)]. *)
Lemma floor_log2_spec (n d : Z) :
  0 < n -> 0 < d ->
  let L := Binary64.floor_log2 n d in
  Binary64.scaled_den d L <= Binary64.scaled_num n L /\
  Binary64.scaled_num n (L + 1) < Binary64.scaled_den d (L + 1).
Proof.
  intros Hn Hd. cbv zeta. unfold Binary64.floor_log2.
  pose proof (Z.log2_spec n Hn) as [Hn1 Hn2].
  pose proof (Z.log2_spec d Hd) as [Hd1 Hd2].
  pose proof (Z.log2_nonneg n) as Ha. pose proof (Z.log2_nonneg d) as Hb.
  set (a := Z.log2 n) in *. set (b := Z.log2 d) in *.
  cbv zeta.
  destruct (Z.leb_spec (Binary64.scaled_den d (a - b)) (Binary64.scaled_num n (a - b)))
    as [Htest|Htest].
  - split; [exact Htest|].
    unfold Binary64.scaled_den, Binary64.scaled_num.
    assert (Heq : 2 ^ Z.succ a * 2 ^ Z.max 0 (- (a - b + 1))
                  = 2 ^ b * 2 ^ Z.max 0 (a - b + 1)).
    { rewrite <- !Z.pow_add_r by lia. f_equal. lia. }
    pose proof (pow2_max_pos (- (a - b + 1))) as H1.
    pose proof (pow2_max_pos (a - b + 1)) as H2.
    nia.
  - split; [|now replace (a - b - 1 + 1) with (a - b) by lia].
    unfold Binary64.scaled_den, Binary64.scaled_num.
    assert (Heq : 2 ^ Z.succ b * 2 ^ Z.max 0 (a - b - 1)
                  = 2 ^ a * 2 ^ Z.max 0 (- (a - b - 1))).
    { rewrite <- !Z.pow_add_r by lia. f_equal. lia. }
    pose proof (pow2_max_pos (- (a - b - 1))) as H1.
    pose proof (pow2_max_pos (a - b - 1)) as H2.
    nia.
Qed.

Lemma scaled_den_pos (d e : Z) : 0 < d -> 0 < Binary64.scaled_den d e.
Proof. intros Hd. unfold Binary64.scaled_den. pose proof (pow2_max_pos e). nia. Qed.

(** The significand has 53 bits (or is [2^53], when rounding carries). *)
Lemma significand_bounds (n d : Z) :
  0 < n -> 0 < d ->
  snd (Binary64.significand n d) = Binary64.floor_log2 n d - 52 /\
  2 ^ 52 <= fst (Binary64.significand n d) <= 2 ^ 53.
Proof.
  intros Hn Hd. unfold Binary64.significand. cbv zeta. cbn [fst snd].
  change (Binary64.prec - 1) with 52. split; [reflexivity|].
  destruct (floor_log2_spec n d Hn Hd) as [Hge Hlt].
  set (L := Binary64.floor_log2 n d) in *.
  pose proof (scaled_den_pos d (L - 52) Hd) as Hpos.
  split.
  - apply round_half_even_ge; [exact Hpos|].
    apply scaled_ge_shift; [lia|]. now replace (L - 52 + 52) with L by lia.
  - apply round_half_even_le; [exact Hpos|].
    apply Z.lt_le_incl. apply scaled_lt_shift; [lia|].
    now replace (L - 52 + 53) with (L + 1) by lia.
Qed.

Lemma floor_log2_mono (n1 d1 n2 d2 : Z) :
  0 < n1 -> 0 < d1 -> 0 < n2 -> 0 < d2 ->
  n1 * d2 <= n2 * d1 ->
  Binary64.floor_log2 n1 d1 <= Binary64.floor_log2 n2 d2.
Proof.
  intros Hn1 Hd1 Hn2 Hd2 Hle.
  destruct (floor_log2_spec n1 d1 Hn1 Hd1) as [Hge1 _].
  destruct (floor_log2_spec n2 d2 Hn2 Hd2) as [_ Hlt2].
  set (L1 := Binary64.floor_log2 n1 d1) in *.
  set (L2 := Binary64.floor_log2 n2 d2) in *.
  destruct (Z.le_gt_cases L1 L2) as [Hok|Hgt]; [exact Hok|exfalso].
  pose proof (scaled_ge_shift n1 d1 (L2 + 1) (L1 - (L2 + 1)) ltac:(lia)) as Hs.
  replace (L2 + 1 + (L1 - (L2 + 1))) with L1 in Hs by lia.
  specialize (Hs Hge1).
  assert (Hj : 1 <= 2 ^ (L1 - (L2 + 1))) by (apply Z.lt_pred_le, Z.pow_pos_nonneg; lia).
  unfold Binary64.scaled_den, Binary64.scaled_num in *.
  pose proof (pow2_max_pos (L2 + 1)) as HP. pose proof (pow2_max_pos (- (L2 + 1))) as HN.
  set (P := 2 ^ Z.max 0 (L2 + 1)) in *. set (N := 2 ^ Z.max 0 (- (L2 + 1))) in *.
  set (J := 2 ^ (L1 - (L2 + 1))) in *.
  assert (H1 : d1 * P <= n1 * N) by nia.
  assert (H2 : n1 * N * d2 <= n2 * N * d1) by nia.
  assert (H3 : n2 * N * d1 < d2 * P * d1) by nia.
  assert (H4 : d1 * P * d2 <= n1 * N * d2) by nia.
  lia.
Qed.

Lemma value_le (m1 e1 m2 e2 : Z) :
  m1 * 2 ^ Z.max 0 e1 * 2 ^ Z.max 0 (- e2) <= m2 * 2 ^ Z.max 0 e2 * 2 ^ Z.max 0 (- e1) ->
  (Binary64.value (m1, e1) <= Binary64.value (m2, e2))%Q.
Proof.
  intros Hle. unfold Binary64.value, Qle. cbn [fst snd Qnum Qden].
  rewrite !Z2Pos.id by apply pow2_max_pos. exact Hle.
Qed.

(** Rounding to the nearest float is monotone on positive fractions. *)
Lemma significand_mono (n1 d1 n2 d2 : Z) :
  0 < n1 -> 0 < d1 -> 0 < n2 -> 0 < d2 ->
  n1 * d2 <= n2 * d1 ->
  (Binary64.value (Binary64.significand n1 d1)
   <= Binary64.value (Binary64.significand n2 d2))%Q.
Proof.
  intros Hn1 Hd1 Hn2 Hd2 Hle.
  pose proof (floor_log2_mono n1 d1 n2 d2 Hn1 Hd1 Hn2 Hd2 Hle) as HL.
  destruct (significand_bounds n1 d1 Hn1 Hd1) as [He1 Hm1].
  destruct (significand_bounds n2 d2 Hn2 Hd2) as [He2 Hm2].
  destruct (Z.eq_dec (Binary64.floor_log2 n1 d1) (Binary64.floor_log2 n2 d2)) as [Heq|Hne].
  - (* the same binade: the significands are ordered *)
    unfold Binary64.significand in *. cbv zeta in *. cbn [fst snd] in *.
    rewrite <- Heq in *.
    set (e := Binary64.floor_log2 n1 d1 - (Binary64.prec - 1)) in *.
    apply value_le.
    assert (Hm : Binary64.round_half_even (Binary64.scaled_num n1 e) (Binary64.scaled_den d1 e)
                 <= Binary64.round_half_even (Binary64.scaled_num n2 e) (Binary64.scaled_den d2 e)).
    { apply round_half_even_mono; try (now apply scaled_den_pos).
      unfold Binary64.scaled_num, Binary64.scaled_den.
      pose proof (pow2_max_pos e). pose proof (pow2_max_pos (- e)). nia. }
    pose proof (pow2_max_pos e). pose proof (pow2_max_pos (- e)). nia.
  - (* a lower binade: the whole binade is below *)
    destruct (Binary64.significand n1 d1) as [m1 e1].
    destruct (Binary64.significand n2 d2) as [m2 e2].
    cbn [fst snd] in *. apply value_le.
    assert (Hj : 1 <= e2 - e1) by lia.
    pose proof (pow2_shift e1 (e2 - e1) ltac:(lia)) as Hs.
    replace (e1 + (e2 - e1)) with e2 in Hs by lia.
    assert (H2 : 2 <= 2 ^ (e2 - e1)).
    { change 2 with (2 ^ 1) at 1. apply Z.pow_le_mono_r; lia. }
    pose proof (pow2_max_pos e1). pose proof (pow2_max_pos (- e1)).
    pose proof (pow2_max_pos e2). pose proof (pow2_max_pos (- e2)).
    set (P1 := 2 ^ Z.max 0 e1) in *. set (N1 := 2 ^ Z.max 0 (- e1)) in *.
    set (P2 := 2 ^ Z.max 0 e2) in *. set (N2 := 2 ^ Z.max 0 (- e2)) in *.
    set (J := 2 ^ (e2 - e1)) in *.
    change (2 ^ 53) with (2 * 2 ^ 52) in Hm1.
    set (T := 2 ^ 52) in *.
    assert (HT : 0 < T) by (subst T; lia).
    replace (m2 * P2 * N1) with (m2 * (P2 * N1)) by ring.
    rewrite Hs.
    assert (Ha : m1 * P1 * N2 <= 2 * T * (P1 * N2)) by nia.
    assert (Hb : 2 * T * (P1 * N2) <= m2 * J * (P1 * N2)).
    { apply Z.mul_le_mono_nonneg_r; nia. }
    nia.
Qed.

Lemma round_nonneg (q : Q) : 0 <= Qnum q -> (0 <= Binary64.round q)%Q.
Proof.
  intros Hq. unfold Binary64.round.
  destruct (Qnum q) as [|n|n] eqn:Hn; [apply Qle_refl | | lia].
  destruct (significand_bounds (Zpos n) (Zpos (Qden q)) ltac:(lia) ltac:(lia)) as [_ [Hm _]].
  unfold Binary64.value, Qle. cbn [Qnum Qden].
  pose proof (pow2_max_pos (snd (Binary64.significand (Z.pos n) (Z.pos (Qden q))))).
  nia.
Qed.

(** Rounding to binary64 is monotone on the non-negative rationals. *)
Lemma round_mono (x y : Q) :
  0 <= Qnum x -> (x <= y)%Q -> (Binary64.round x <= Binary64.round y)%Q.
Proof.
  intros Hx Hle.
  assert (Hy : 0 <= Qnum y).
  { unfold Qle in Hle. destruct x as [nx dx], y as [ny dy]. cbn in *. nia. }
  pose proof (round_nonneg y Hy) as Hry.
  unfold Binary64.round in *. unfold Qle in Hle.
  destruct (Qnum x) as [|nx|nx] eqn:Hnx; [exact Hry | | lia].
  destruct (Qnum y) as [|ny|ny] eqn:Hny; [lia | | lia].
  apply significand_mono; lia.
Qed.

(** ** The displayed percentage *)

(** C4: the percentage the code stores is not always
    floor(completed / total * 100). With 29 of 100 tasks completed,
    [29 / 100] rounds to the float 0.28999999999999998, its product with
    100 rounds to 28.999999999999996, and [int] truncates it to 28, while
    floor(29 / 100 * 100) is 29. The hardware's floats give the same
    product, below 29. The same happens at 57 and 58 of 100. *)
Theorem percent_29_of_100 :
  percent 29 100 = Ok 28 /\
  29 * 100 / 100 = 29 /\
  Prim2SF (hw_percent 29 100) = S754_finite false 8162774324609023 (-48) /\
  PrimFloat.ltb (hw_percent 29 100) (PrimFloat.of_uint63 29%uint63) = true /\
  In (Some (VInt 29), Some (VInt 28)) (progress_pair "job" <$> observable hundred_run) /\
  percent 57 100 = Ok 56 /\
  percent 58 100 = Ok 57.
Proof.
  split; [vm_compute; reflexivity|].
  split; [reflexivity|].
  split; [vm_compute; reflexivity|].
  split; [vm_compute; reflexivity|].
  split; [|split; vm_compute; reflexivity].
  assert (Hpairs : exists l, progress_pair "job" <$> observable hundred_run = l /\
                             In (Some (VInt 29), Some (VInt 28)) l).
  { eexists. split; [vm_compute; reflexivity|].
    repeat (first [left; reflexivity | right]). }
  destruct Hpairs as (l & -> & Hin). exact Hin.
Qed.

(** The model of binary64 and the hardware's floats agree on the
    percentage of every count up to every total up to 120. *)
Example hw_agrees_up_to_120 :
  forallb (fun total =>
             forallb (fun completed => hw_agrees completed total)
                     (Z.of_nat <$> seq 0 (S (Z.to_nat total))))
          (Z.of_nat <$> seq 1 120) = true.
Proof. vm_compute. reflexivity. Qed.

Lemma Qnum_nonneg (q : Q) : (0 <= q)%Q -> 0 <= Qnum q.
Proof. unfold Qle. cbn. lia. Qed.

Lemma int_of_float_mono (x y : Q) :
  0 <= Qnum x -> (x <= y)%Q -> int_of_float x <= int_of_float y.
Proof.
  intros Hx Hle. unfold int_of_float.
  assert (Hy : 0 <= Qnum y).
  { unfold Qle in Hle. destruct x as [nx dx], y as [ny dy]. cbn in *. nia. }
  rewrite !Z.quot_div_nonneg by lia.
  apply div_cross_le; try lia. exact Hle.
Qed.

(** The percentage as the code computes it, for a positive total. *)
Lemma percent_value (c t : Z) :
  0 < t ->
  percent c t =
    Ok (int_of_float
          (Binary64.round (Binary64.round (c # Z.to_pos t)
                           * Binary64.round (inject_Z 100)))).
Proof.
  intros Ht. unfold percent, int_truediv, float_mul_int.
  destruct (Z.eqb_spec t 0); [lia|].
  rewrite Z.sgn_pos, Z.mul_1_r, Z.abs_eq by lia. reflexivity.
Qed.

Lemma scaled_ratio_nonneg (c t : Z) :
  0 <= c ->
  0 <= Qnum (Binary64.round (c # Z.to_pos t) * Binary64.round (inject_Z 100)).
Proof.
  intros Hc. apply Qnum_nonneg. apply Qmult_le_0_compat.
  - apply round_nonneg. exact Hc.
  - apply round_nonneg. cbn. lia.
Qed.

(** The percentage never decreases as tasks complete. *)
Lemma percent_mono (c1 c2 t p1 p2 : Z) :
  0 <= c1 <= c2 -> 0 < t ->
  percent c1 t = Ok p1 -> percent c2 t = Ok p2 ->
  p1 <= p2.
Proof.
  intros Hc Ht. rewrite !percent_value by exact Ht.
  intros [= <-] [= <-].
  apply int_of_float_mono;
    [apply Qnum_nonneg, round_nonneg, scaled_ratio_nonneg; lia|].
  apply round_mono; [apply scaled_ratio_nonneg; lia|].
  apply Qmult_le_compat_r; [|apply round_nonneg; cbn; lia].
  apply round_mono; [cbn; lia|].
  unfold Qle. cbn. nia.
Qed.

(** The percentage lies between 0 and 100. *)
Lemma percent_bounds (c t p : Z) :
  0 <= c <= t -> 0 < t -> percent c t = Ok p -> 0 <= p <= 100.
Proof.
  intros Hc Ht Hp. split.
  - rewrite percent_value in Hp by exact Ht. injection Hp as <-.
    unfold int_of_float. apply Z.quot_pos; [|lia].
    apply Qnum_nonneg, round_nonneg, scaled_ratio_nonneg. lia.
  - pose proof (percent_full t Ht) as Hfull.
    eapply percent_mono; [| exact Ht | exact Hp | exact Hfull]. lia.
Qed.

(** ** Counts and percentage in the states a poll may read *)

Lemma not_below_trans analysis_id a b c :
  not_below analysis_id a b -> not_below analysis_id b c -> not_below analysis_id a c.
Proof.
  intros (p1 & p2 & H1 & H2 & H12) (q1 & q2 & H3 & H4 & H34).
  exists q1, p2. repeat split; try assumption.
  rewrite H1 in H4. injection H4 as <-. lia.
Qed.

Lemma steady_store analysis_id (t : Trace) (new : gmap string (gmap string pyval)) :
  steady analysis_id t ->
  counts_ok analysis_id new ->
  not_below analysis_id new (now t) ->
  steady analysis_id {| now := new; past := now t :: past t |}.
Proof.
  intros [Hcounts Hsorted] Hnew Hnb. unfold steady, observable in *. cbn [now past].
  split; [now constructor|].
  constructor; [exact Hsorted|].
  constructor; [exact Hnb|].
  apply StronglySorted_inv in Hsorted. destruct Hsorted as [_ Hall].
  eapply Forall_impl; [exact Hall|].
  intros older Hold. eapply not_below_trans; eassumption.
Qed.

(** A store to a field other than the counts and the percentage. *)
Lemma steady_neutral analysis_id key v (t : Trace) :
  key <> "current_move" -> key <> "total_moves" -> key <> "progress" ->
  steady analysis_id t ->
  steady analysis_id (fst (set_field analysis_id key v t)).
Proof.
  intros Hk1 Hk2 Hk3 Hst. cbn [set_field fst].
  pose proof (proj1 Hst) as Hcounts. apply Forall_inv in Hcounts.
  destruct Hcounts as (c & total & p & Hc & Ht & Hp & Hbounds).
  apply steady_store; [exact Hst | |].
  - exists c, total, p. rewrite !field_alter_ne by congruence. now repeat split.
  - exists p, p. rewrite field_alter_ne by congruence. repeat split; try assumption. lia.
Qed.

Lemma steady_init analysis_id reg :
  steady analysis_id {| now := init_progress analysis_id reg; past := [] |}.
Proof.
  split; unfold observable; cbn [now past].
  - constructor; [|constructor].
    exists 0, 0, 0. repeat split; try lia; now apply init_progress_field.
  - constructor; constructor.
Qed.

Lemma steady_analyzing analysis_id total reg :
  0 <= total ->
  steady analysis_id (analyzing_state analysis_id total reg).
Proof.
  intros Htotal. unfold analyzing_state.
  apply steady_neutral; try discriminate.
  cbn [set_field fst].
  apply steady_store; [apply steady_init | |]; cbn [now].
  - exists 0, total, 0.
    rewrite field_alter_same by apply init_progress_present.
    rewrite !field_alter_ne by discriminate.
    repeat split; try lia; now apply init_progress_field.
  - exists 0, 0. rewrite field_alter_ne by discriminate.
    repeat split; try lia; now apply init_progress_field.
Qed.

(** The pool's loop: each completion stores a count within the total and
    a percentage that is not below the one before. *)
Lemma pool_loop_steady `{ChessLib} (analysis_id : string) (total : Z) (futures : list Future) :
  0 < total ->
  forall (completed : Z) (games : list GameInfo) (t : Trace) (p0 : Z),
  0 <= completed ->
  completed + Z.of_nat (length futures) <= total ->
  steady analysis_id t ->
  is_Some (now t !! analysis_id) ->
  field analysis_id "total_moves" (now t) = Some (VInt total) ->
  field analysis_id "progress" (now t) = Some (VInt p0) ->
  (forall c p, completed < c <= total -> percent c total = Ok p -> p0 <= p) ->
  steady analysis_id (fst (pool_loop analysis_id total futures completed games t)).
Proof.
  intros Htotal. induction futures as [|future rest IH];
    intros completed games t p0 Hc Hlen Hst Hsome Hfield Hprog Hbelow.
  - exact Hst.
  - cbn [pool_loop length] in *.
    assert (Hne : total <> 0) by lia.
    destruct (percent_defined (completed + 1) total Hne) as [p Hp].
    unfold mbind at 1. unfold SE_bind at 1. cbn [set_field].
    unfold mbind at 1. unfold SE_bind at 1. unfold lift at 1. rewrite Hp.
    unfold mbind at 1. unfold SE_bind at 1. cbn [set_field].
    pose proof (percent_bounds (completed + 1) total p ltac:(lia) Htotal Hp) as Hpb.
    pose proof (Hbelow (completed + 1) p ltac:(lia) Hp) as Hp0.
    pose proof (proj1 Hst) as Hcounts. apply Forall_inv in Hcounts.
    destruct Hcounts as (c0 & total0 & p0' & Hc0 & Ht0 & Hp0' & Hb0).
    rewrite Hprog in Hp0'. injection Hp0' as <-.
    set (reg1 := alter (insert "current_move" (VInt (completed + 1))) analysis_id (now t)).
    assert (Hsome1 : is_Some (reg1 !! analysis_id)) by (now apply alter_present).
    assert (Hst1 : steady analysis_id {| now := reg1; past := now t :: past t |}).
    { apply steady_store; [exact Hst | |].
      - exists (completed + 1), total, p0. subst reg1.
        rewrite field_alter_same by exact Hsome.
        rewrite !field_alter_ne by discriminate.
        repeat split; try assumption; lia.
      - exists p0, p0. subst reg1. rewrite field_alter_ne by discriminate.
        repeat split; try assumption. lia. }
    eapply (IH (completed + 1) _ _ p); try lia.
    + apply (steady_store analysis_id {| now := reg1; past := now t :: past t |});
        [exact Hst1 | |]; cbn [now].
      * exists (completed + 1), total, p.
        rewrite field_alter_same by exact Hsome1.
        rewrite !field_alter_ne by discriminate. subst reg1.
        rewrite field_alter_same by exact Hsome.
        rewrite field_alter_ne by discriminate.
        repeat split; try assumption; lia.
      * exists p0, p. rewrite field_alter_same by exact Hsome1. subst reg1.
        rewrite field_alter_ne by discriminate. repeat split; try assumption.
    + cbn [now]. now apply alter_present.
    + cbn [now]. rewrite field_alter_ne by discriminate. subst reg1.
      now rewrite field_alter_ne by discriminate.
    + cbn [now]. now apply field_alter_same.
    + intros c' p' Hc' Hp'.
      eapply (percent_mono (completed + 1) c' total); [| exact Htotal | exact Hp | exact Hp'].
      lia.
Qed.

(** The pool phase of a run, for any futures no more numerous than the
    tasks. *)
Lemma pool_phase_steady `{ChessLib} (analysis_id : string) (n : nat)
    (futures : list Future) (games : list GameInfo) reg :
  (length futures <= n)%nat ->
  steady analysis_id
    (fst (pool_loop analysis_id (Z.of_nat n) futures 0 games
            (analyzing_state analysis_id (Z.of_nat n) reg))).
Proof.
  intros Hlen. destruct n as [|n].
  - destruct futures; [|cbn in Hlen; lia]. cbn [pool_loop mret SE_ret fst].
    now apply steady_analyzing.
  - apply (pool_loop_steady analysis_id (Z.of_nat (S n)) futures ltac:(lia) 0 games _ 0);
      try lia.
    + apply steady_analyzing. lia.
    + apply analyzing_state_present.
    + now rewrite analyzing_state_field.
    + rewrite analyzing_state_field. cbn. now apply init_progress_field.
    + intros c p Hc Hp.
      apply (percent_bounds c (Z.of_nat (S n)) p); [lia | lia | exact Hp].
Qed.

Lemma dispatch_steady `{ChessLib} (env : JobEnv) (analysis_id : string) (n : nat)
    (futures : list Future) (games : list GameInfo) reg :
  (length (as_completed env futures) <= n)%nat ->
  steady analysis_id
    (fst (dispatch env analysis_id (Z.of_nat n) futures games
            (analyzing_state analysis_id (Z.of_nat n) reg))).
Proof.
  intros Hlen. unfold dispatch. destruct (pool_fault env) as [[k msg]|].
  - pose proof (pool_phase_steady analysis_id n (take k (as_completed env futures))
                  games reg) as Hst.
    unfold mbind, SE_bind.
    destruct (pool_loop _ _ _ _ _ _) as [t [games'|msg']]; cbn [fst] in *;
      apply Hst; rewrite length_take; lia.
  - now apply pool_phase_steady.
Qed.

(** X1: in every state a poll may read during a run, the completed count is
    within the total and the percentage within 0 and 100, and the
    percentage never decreases from one state to a later one; this holds
    whatever the order of completion, provided each future completes
    once. *)
Lemma progress_within_bounds `{EngineLib} (env : JobEnv) (analysis_id : string)
    (reg : gmap string (gmap string pyval)) :
  (forall games, corpus env = Ok games ->
     as_completed env (submitted games) ≡ₚ submitted games) ->
  Forall (counts_ok analysis_id) (observable (analyze_pgn_async env analysis_id reg)) /\
  StronglySorted (not_below analysis_id)
    (observable (analyze_pgn_async env analysis_id reg)).
Proof.
  intros Hperm. fold (steady analysis_id (analyze_pgn_async env analysis_id reg)).
  destruct (corpus env) as [games|msg] eqn:Hc.
  - destruct games as [|game rest].
    + rewrite (run_no_game env analysis_id reg Hc).
      apply steady_neutral; try discriminate. apply steady_init.
    + rewrite (run_games env analysis_id reg (game :: rest) Hc ltac:(discriminate)).
      pose proof (dispatch_steady env analysis_id (plies (game :: rest))
                    (submitted (game :: rest)) (expected_infos (game :: rest) 0) reg) as Hd.
      destruct (dispatch _ _ _ _ _ _) as [t [games'|msg]]; cbn [fst] in Hd.
      * apply steady_neutral; try discriminate.
        apply steady_neutral; try discriminate.
        apply Hd. rewrite (Permutation_length (Hperm _ eq_refl)).
        unfold submitted. now rewrite length_fmap, expected_tasks_length.
      * apply steady_neutral; try discriminate.
        apply Hd. rewrite (Permutation_length (Hperm _ eq_refl)).
        unfold submitted. now rewrite length_fmap, expected_tasks_length.
  - rewrite (run_unreadable env analysis_id reg msg Hc).
    apply steady_neutral; try discriminate. apply steady_init.
Qed.

Lemma progress_within_bounds_example :
  Forall (counts_ok "job") (observable hundred_run) /\
  StronglySorted (not_below "job") (observable hundred_run).
Proof.
  apply (@progress_within_bounds toy_chess (scripted_engine sharp_script)).
  intros games _. reflexivity.
Defined.

(** ** The aggregator *)

Lemma same_moments_refl g : same_moments g g.
Proof. unfold same_moments. repeat split; reflexivity. Qed.

Lemma same_moments_trans g1 g2 g3 :
  same_moments g1 g2 -> same_moments g2 g3 -> same_moments g1 g3.
Proof.
  unfold same_moments. intros (? & ? & ? & ? & ? & ? & ?) (? & ? & ? & ? & ? & ? & ?).
  repeat split; try congruence. etransitivity; eassumption.
Qed.

Lemma same_games_refl gs : Forall2 same_moments gs gs.
Proof. induction gs; constructor; [apply same_moments_refl | assumption]. Qed.

Lemma same_games_trans gs1 gs2 gs3 :
  Forall2 same_moments gs1 gs2 -> Forall2 same_moments gs2 gs3 ->
  Forall2 same_moments gs1 gs3.
Proof.
  intros H12. revert gs3. induction H12 as [|g1 g2 gs1 gs2 Hg _ IH]; intros gs3 H23.
  - inversion H23. constructor.
  - inversion H23 as [|g2' g3 gs2' gs3' Hg' Hrest]; subst.
    constructor; [eapply same_moments_trans; eassumption | now apply IH].
Qed.

(** Appending a moment respects the order-insensitive comparison. *)
Lemma add_moment_same number r gs gs' :
  Forall2 same_moments gs gs' ->
  Forall2 same_moments (add_moment number r gs) (add_moment number r gs').
Proof.
  induction 1 as [|g g' gs gs' Hg Hrest IH]; [constructor|].
  cbn [add_moment].
  destruct Hg as (Hn & Hw & Hb & Hr & Hd & He & Hm).
  rewrite <- Hn. destruct (game_number g =? number).
  - constructor; [|exact Hrest].
    unfold same_moments. cbn. repeat split; try assumption.
    now apply Permutation_app_tail.
  - constructor; [|exact IH]. unfold same_moments. now repeat split.
Qed.

(** Two moments appended in either order give the same games, up to the
    order of the moments within a game. *)
Lemma add_moment_swap n1 r1 n2 r2 gs :
  Forall2 same_moments (add_moment n1 r1 (add_moment n2 r2 gs))
                       (add_moment n2 r2 (add_moment n1 r1 gs)).
Proof.
  induction gs as [|g gs IH]; [constructor|].
  cbn [add_moment].
  destruct (game_number g =? n2) eqn:H2; destruct (game_number g =? n1) eqn:H1;
    cbn [add_moment game_number]; rewrite ?H1, ?H2.
  - constructor; [|apply same_games_refl].
    unfold same_moments. cbn. repeat split.
    rewrite <- !app_assoc. apply Permutation_app_head. cbn. apply perm_swap.
  - apply same_games_refl.
  - apply same_games_refl.
  - constructor; [apply same_moments_refl | exact IH].
Qed.

Lemma collect_same `{ChessLib} (future : Future) gs gs' :
  Forall2 same_moments gs gs' ->
  Forall2 same_moments (collect future gs) (collect future gs').
Proof.
  intros Hs. unfold collect. destruct (snd future) as [[r|]|msg]; try exact Hs.
  now apply add_moment_same.
Qed.

Lemma collect_swap `{ChessLib} (f1 f2 : Future) gs :
  Forall2 same_moments (collect f1 (collect f2 gs)) (collect f2 (collect f1 gs)).
Proof.
  unfold collect. destruct (snd f1) as [[r1|]|msg1]; destruct (snd f2) as [[r2|]|msg2];
    try apply same_games_refl.
  apply add_moment_swap.
Qed.

Lemma aggregate_same `{ChessLib} (futures : list Future) gs gs' :
  Forall2 same_moments gs gs' ->
  Forall2 same_moments (aggregate futures gs) (aggregate futures gs').
Proof.
  revert gs gs'. induction futures as [|future rest IH]; intros gs gs' Hs; [exact Hs|].
  unfold aggregate in *. cbn [foldl]. apply IH. now apply collect_same.
Qed.

(** The games do not depend on the order in which the futures complete,
    except for the order of the moments within a game. *)
Lemma aggregate_permutation `{ChessLib} (futures futures' : list Future) :
  futures ≡ₚ futures' ->
  forall gs, Forall2 same_moments (aggregate futures gs) (aggregate futures' gs).
Proof.
  induction 1 as [|future l l' _ IH|f1 f2 l|l1 l2 l3 _ IH12 _ IH23]; intros gs.
  - apply same_games_refl.
  - unfold aggregate in *. cbn [foldl]. apply IH.
  - unfold aggregate. cbn [foldl]. apply (aggregate_same l). apply collect_swap.
  - eapply same_games_trans; [apply IH12 | apply IH23].
Qed.

(** X2: two runs over the same file with the same engine, each without
    an exception of the executor and each completing every future once,
    store the same games with the same critical moments per game, up to
    the order of the moments within a game. *)
Theorem runs_agree_up_to_order `{EngineLib} (env env' : JobEnv)
    (analysis_id analysis_id' : string)
    (reg reg' : gmap string (gmap string pyval)) (games : list Game) :
  corpus env = Ok games -> corpus env' = Ok games ->
  plies games <> 0%nat ->
  pool_fault env = None -> pool_fault env' = None ->
  as_completed env (submitted games) ≡ₚ submitted games ->
  as_completed env' (submitted games) ≡ₚ submitted games ->
  exists results results',
    field analysis_id "results" (now (analyze_pgn_async env analysis_id reg))
      = Some (VGames results) /\
    field analysis_id' "results" (now (analyze_pgn_async env' analysis_id' reg'))
      = Some (VGames results') /\
    Forall2 same_moments results results'.
Proof.
  intros Hc Hc' Hplies Hf Hf' Hp Hp'.
  destruct (run_completes env analysis_id reg games Hc Hplies Hf Hp)
    as (t & -> & Hsome & _).
  destruct (run_completes env' analysis_id' reg' games Hc' Hplies Hf' Hp')
    as (t' & -> & Hsome' & _).
  rewrite !set_field_now.
  eexists _, _.
  split; [apply field_alter_same; now apply alter_present|].
  split; [apply field_alter_same; now apply alter_present|].
  apply (aggregate_permutation (as_completed env (submitted games))
                               (as_completed env' (submitted games))).
  now rewrite Hp, Hp'.
Qed.

(** X3: a critical moment is appended to the games without touching any
    game of another number; when no game has the number of the event, the
    event is dropped and the games are unchanged. *)
Theorem add_moment_frame (number : Z) (r : CriticalMoment) (games : list GameInfo) :
  Forall2 (fun g g' => game_number g' = game_number g /\
                       (game_number g <> number -> g' = g))
          games (add_moment number r games) /\
  (Forall (fun g => game_number g <> number) games ->
   add_moment number r games = games).
Proof.
  split.
  - induction games as [|g games IH]; [constructor|].
    cbn [add_moment]. destruct (Z.eqb_spec (game_number g) number) as [Heq|Hne].
    + constructor.
      * cbn. split; [reflexivity | intros Hno; contradiction].
      * clear IH. induction games; constructor; auto.
    + constructor; [split; auto | exact IH].
  - induction 1 as [|g games Hg _ IH]; [reflexivity|].
    cbn [add_moment]. destruct (Z.eqb_spec (game_number g) number); [contradiction|].
    now rewrite IH.
Qed.

(** ** Fetching the results *)

(** X4: once a job over at least one position has completed, the results
    endpoint serves the games stored as its results. *)
Theorem results_served_once_completed `{EngineLib} (env : JobEnv) (analysis_id : string)
    (reg : gmap string (gmap string pyval)) (games : list Game) :
  corpus env = Ok games ->
  plies games <> 0%nat ->
  pool_fault env = None ->
  as_completed env (submitted games) ≡ₚ submitted games ->
  get_results analysis_id (now (analyze_pgn_async env analysis_id reg)) =
    ResultsPage (Some (VGames (aggregate (as_completed env (submitted games))
                                         (expected_infos games 0)))).
Proof.
  intros Hc Hplies Hfault Hperm.
  destruct (run_completes env analysis_id reg games Hc Hplies Hfault Hperm)
    as (t & -> & [progress Hsome] & _).
  rewrite !set_field_now. unfold get_results.
  rewrite !lookup_alter_eq, Hsome. cbn.
  rewrite lookup_insert_ne by discriminate.
  rewrite lookup_insert_eq. cbn.
  now rewrite lookup_insert_eq.
Qed.

Lemma results_served_once_completed_example :
  exists games,
    get_results "job" (now hundred_run) = ResultsPage (Some (VGames games)) /\
    length games = 1%nat.
Proof.
  eexists. split.
  - apply (@results_served_once_completed toy_chess (scripted_engine sharp_script)
             (fifo_env (Ok [toy_game ∅ (seq 1 100)])) "job"
             (register_upload "job" "a.pgn" ∅) [toy_game ∅ (seq 1 100)]).
    + reflexivity.
    + cbn. lia.
    + reflexivity.
    + reflexivity.
  - vm_compute. reflexivity.
Defined.

Lemma runs_agree_up_to_order_example :
  exists results results',
    field "job" "results"
      (now (@analyze_pgn_async toy_chess (scripted_engine sharp_script)
              (fifo_env (Ok [toy_game ∅ [1; 2; 3]%nat])) "job" ∅))
      = Some (VGames results) /\
    field "again" "results"
      (now (@analyze_pgn_async toy_chess (scripted_engine sharp_script)
              (lifo_env (Ok [toy_game ∅ [1; 2; 3]%nat])) "again" ∅))
      = Some (VGames results') /\
    Forall2 same_moments results results'.
Proof.
  apply (@runs_agree_up_to_order toy_chess (scripted_engine sharp_script)
           (fifo_env (Ok [toy_game ∅ [1; 2; 3]%nat]))
           (lifo_env (Ok [toy_game ∅ [1; 2; 3]%nat]))
           "job" "again" ∅ ∅ [toy_game ∅ [1; 2; 3]%nat]).
  - reflexivity.
  - reflexivity.
  - cbn. lia.
  - reflexivity.
  - reflexivity.
  - reflexivity.
  - symmetry. apply Permutation_rev.
Defined.

(** ** The lifecycle of the status *)

Lemma not_earlier_trans analysis_id a b c :
  not_earlier analysis_id a b -> not_earlier analysis_id b c ->
  not_earlier analysis_id a c.
Proof.
  intros (x1 & x2 & H1 & H2 & H12) (y1 & y2 & H3 & H4 & H34).
  exists y1, x2. repeat split; try assumption.
  rewrite H1 in H4. injection H4 as <-. lia.
Qed.

Lemma forward_store analysis_id rank rank' (t : Trace)
    (new : gmap string (gmap string pyval)) (a b : Z) :
  forward analysis_id rank t ->
  status_rank analysis_id (now t) = Some a ->
  status_rank analysis_id new = Some b ->
  a <= b <= rank' ->
  forward analysis_id rank' {| now := new; past := now t :: past t |}.
Proof.
  intros [Hsorted _] Ha Hb Hab. unfold forward, observable in *. cbn [now past].
  split; [|exists b; split; [exact Hb | lia]].
  constructor; [exact Hsorted|].
  assert (Hnew : not_earlier analysis_id new (now t))
    by (exists a, b; repeat split; try assumption; lia).
  constructor; [exact Hnew|].
  apply StronglySorted_inv in Hsorted. destruct Hsorted as [_ Hall].
  eapply Forall_impl; [exact Hall|].
  intros older Hold. eapply not_earlier_trans; eassumption.
Qed.

(** A store to a field other than the status. *)
Lemma forward_neutral analysis_id rank key v :
  key <> "status" ->
  forall t, forward analysis_id rank t ->
            forward analysis_id rank (fst (set_field analysis_id key v t)).
Proof.
  intros Hk t Hf. pose proof Hf as [_ (a & Ha & Hle)]. cbn [set_field fst].
  apply (forward_store analysis_id rank rank t _ a a); try assumption; [|lia].
  unfold status_rank in *. now rewrite field_alter_ne by congruence.
Qed.

Lemma forward_pool_loop `{ChessLib} analysis_id rank total futures :
  forall completed games t,
  forward analysis_id rank t ->
  forward analysis_id rank (fst (pool_loop analysis_id total futures completed games t)).
Proof.
  induction futures as [|future rest IH]; intros completed games t Hf; [exact Hf|].
  cbn [pool_loop].
  unfold mbind at 1. unfold SE_bind at 1.
  pose proof (forward_neutral analysis_id rank "current_move" (VInt (completed + 1))
                ltac:(discriminate) t Hf) as H1.
  destruct (set_field analysis_id "current_move" (VInt (completed + 1)) t)
    as [t1 [[]|msg]] eqn:Hs1; cbn [fst] in H1; [|exact H1].
  unfold mbind at 1. unfold SE_bind at 1. unfold lift at 1.
  destruct (percent (completed + 1) total) as [p|msg]; [|exact H1].
  unfold mbind at 1. unfold SE_bind at 1.
  pose proof (forward_neutral analysis_id rank "progress" (VInt p)
                ltac:(discriminate) t1 H1) as H2.
  destruct (set_field analysis_id "progress" (VInt p) t1)
    as [t2 [[]|msg]] eqn:Hs2; cbn [fst] in H2; [|exact H2].
  now apply IH.
Qed.

Lemma forward_dispatch `{ChessLib} (env : JobEnv) analysis_id rank total futures games t :
  forward analysis_id rank t ->
  forward analysis_id rank (fst (dispatch env analysis_id total futures games t)).
Proof.
  intros Hf. unfold dispatch. destruct (pool_fault env) as [[k msg]|].
  - pose proof (forward_pool_loop analysis_id rank total
                  (take k (as_completed env futures)) 0 games t Hf) as Hl.
    unfold mbind, SE_bind.
    destruct (pool_loop _ _ _ _ _ _) as [t' [games'|msg']]; exact Hl.
  - now apply forward_pool_loop.
Qed.

Lemma status_rank_init analysis_id reg :
  status_rank analysis_id (init_progress analysis_id reg) = Some 0.
Proof.
  unfold status_rank. now rewrite (init_progress_field analysis_id "status" (VStr "starting")).
Qed.

Lemma forward_init analysis_id reg :
  forward analysis_id 0 {| now := init_progress analysis_id reg; past := [] |}.
Proof.
  split; [repeat constructor|].
  exists 0. split; [apply status_rank_init | lia].
Qed.

Lemma forward_weaken analysis_id rank rank' t :
  rank <= rank' -> forward analysis_id rank t -> forward analysis_id rank' t.
Proof. intros Hle [Hs (a & Ha & Hr)]. split; [exact Hs|]. exists a. split; [exact Ha | lia]. Qed.

Lemma forward_analyzing analysis_id total reg :
  forward analysis_id 1 (analyzing_state analysis_id total reg).
Proof.
  unfold analyzing_state.
  pose proof (forward_neutral analysis_id 0 "total_moves" (VInt total) ltac:(discriminate)
                _ (forward_init analysis_id reg)) as H1.
  destruct H1 as [Hs1 (a & Ha & Hle)].
  cbn [set_field fst] in *.
  eapply (forward_store analysis_id 0 1 _ _ a 1); [split; [exact Hs1 | eauto] | exact Ha | | lia].
  unfold status_rank. rewrite field_alter_same; [reflexivity|].
  apply alter_present, init_progress_present.
Qed.

(** X5: in the states a poll may read during a run, the status only
    moves forward through starting, analyzing and completed: no state
    shows a status that precedes the status of an earlier state. *)
Theorem status_moves_forward `{EngineLib} (env : JobEnv) (analysis_id : string)
    (reg : gmap string (gmap string pyval)) :
  StronglySorted (not_earlier analysis_id)
    (observable (analyze_pgn_async env analysis_id reg)).
Proof.
  enough (Hf : forward analysis_id 2 (analyze_pgn_async env analysis_id reg))
    by exact (proj1 Hf).
  destruct (corpus env) as [games|msg] eqn:Hc.
  - destruct games as [|game rest].
    + rewrite (run_no_game env analysis_id reg Hc).
      apply forward_neutral; [discriminate|].
      apply (forward_weaken analysis_id 0); [lia | apply forward_init].
    + rewrite (run_games env analysis_id reg (game :: rest) Hc ltac:(discriminate)).
      pose proof (forward_dispatch env analysis_id 1 (Z.of_nat (plies (game :: rest)))
                    (submitted (game :: rest)) (expected_infos (game :: rest) 0) _
                    (forward_analyzing analysis_id (Z.of_nat (plies (game :: rest))) reg))
        as Hd.
      destruct (dispatch _ _ _ _ _ _) as [t [games'|msg]]; cbn [fst] in Hd.
      * apply forward_neutral; [discriminate|].
        pose proof Hd as [_ (a & Ha & Hle)].
        cbn [set_field fst].
        apply (forward_store analysis_id 1 2 t _ a 2); try assumption; [|lia].
        unfold status_rank. rewrite field_alter_same; [reflexivity|].
        unfold status_rank, field in Ha.
        destruct (now t !! analysis_id); [eauto | discriminate].
      * apply forward_neutral; [discriminate|].
        now apply (forward_weaken analysis_id 1); [lia|].
  - rewrite (run_unreadable env analysis_id reg msg Hc).
    apply forward_neutral; [discriminate|].
    apply (forward_weaken analysis_id 0); [lia | apply forward_init].
Qed.

(** ** File names the upload accepts *)

Lemma rsplit1_absent (c : ascii) (s : string) :
  contains c s = false -> rsplit1 c s = [s].
Proof.
  induction s as [|a rest IH]; [reflexivity|].
  cbn [contains rsplit1]. intros Hc. apply orb_false_iff in Hc. destruct Hc as [Ha Hrest].
  rewrite (IH Hrest), Ha. reflexivity.
Qed.

(** Splitting gives back the text around the last separator. *)
Lemma rsplit1_last (c : ascii) (before after : string) :
  contains c after = false ->
  rsplit1 c (before +:+ String c after) = [before; after].
Proof.
  intros Hafter. induction before as [|a rest IH].
  - change (rsplit1 c (String c after) = [EmptyString; after]).
    cbn [rsplit1]. rewrite (rsplit1_absent c after Hafter).
    now rewrite Ascii.eqb_refl.
  - change (rsplit1 c (String a (rest +:+ String c after)) = [String a rest; after]).
    cbn [rsplit1]. rewrite IH. reflexivity.
Qed.

Lemma contains_last (c : ascii) (s : string) :
  contains c s = true ->
  exists before after, s = before +:+ String c after /\ contains c after = false.
Proof.
  induction s as [|a rest IH]; [discriminate|].
  cbn [contains]. intros Hc.
  destruct (contains c rest) eqn:Hrest.
  - destruct (IH eq_refl) as (before & after & -> & Hafter).
    exists (String a before), after. split; [reflexivity | exact Hafter].
  - rewrite orb_false_r in Hc. apply Ascii.eqb_eq in Hc. subst a.
    exists EmptyString, rest. split; [reflexivity | exact Hrest].
Qed.

Lemma contains_append (c : ascii) (before after : string) :
  contains c (before +:+ String c after) = true.
Proof.
  induction before as [|a rest IH].
  - change (contains c (String c after) = true). cbn [contains].
    now rewrite Ascii.eqb_refl.
  - change (contains c (String a (rest +:+ String c after)) = true). cbn [contains].
    rewrite IH. apply orb_true_r.
Qed.

Lemma allowed_extension (extension : string) :
  bool_decide (lower extension ∈ ALLOWED_EXTENSIONS) = true <-> lower extension = "pgn".
Proof.
  rewrite bool_decide_eq_true. unfold ALLOWED_EXTENSIONS. apply elem_of_singleton.
Qed.

(** The decision is made on the text after the last dot. *)
Lemma allowed_file_last_dot (filename : string) :
  (exists b, allowed_file filename = Ok b) /\
  (allowed_file filename = Ok true <->
   exists stem extension,
     filename = stem +:+ String "."%char extension /\
     contains "."%char extension = false /\
     lower extension = "pgn") /\
  (contains "."%char filename = false -> allowed_file filename = Ok false).
Proof.
  unfold allowed_file.
  destruct (contains "."%char filename) eqn:Hdot.
  - destruct (contains_last _ _ Hdot) as (stem & extension & -> & Hext).
    rewrite (rsplit1_last "."%char stem extension Hext). cbn [index lookup list_lookup mbind Exc_bind].
    split; [eauto|]. split; [|discriminate].
    split.
    + intros [= Hok]. apply allowed_extension in Hok. eauto.
    + intros (stem' & extension' & Heq & Hext' & Hlower).
      assert (Hsame : [stem; extension] = [stem'; extension']).
      { rewrite <- (rsplit1_last "."%char stem extension Hext), Heq.
        now apply rsplit1_last. }
      injection Hsame as -> ->.
      f_equal. now apply allowed_extension.
  - split; [eauto|]. split; [|reflexivity].
    split; [discriminate|].
    intros (stem & extension & -> & _). now rewrite contains_append in Hdot.
Qed.

Lemma lower_char_letter (a target upper : ascii) :
  (target = "p" /\ upper = "P" \/ target = "g" /\ upper = "G" \/
   target = "n" /\ upper = "N")%char ->
  lower_char a = target <-> a = target \/ a = upper.
Proof.
  intros Hcase.
  destruct a as [[] [] [] [] [] [] [] []];
    destruct Hcase as [[-> ->]|[[-> ->]|[-> ->]]];
    vm_compute; split; intros H; try discriminate; auto;
    destruct H as [H|H]; try discriminate H; reflexivity.
Qed.

(** The extensions that lower to [pgn]: three letters, each in either
    case. *)
Lemma lower_pgn (extension : string) :
  lower extension = "pgn" <->
  exists a b c, extension = String a (String b (String c EmptyString)) /\
    (a = "p" \/ a = "P")%char /\ (b = "g" \/ b = "G")%char /\ (c = "n" \/ c = "N")%char.
Proof.
  split.
  - destruct extension as [|a [|b [|c [|d rest]]]]; cbn [lower]; try discriminate.
    intros [= Ha Hb Hc]. exists a, b, c. split; [reflexivity|].
    apply (lower_char_letter a "p" "P") in Ha; [|auto].
    apply (lower_char_letter b "g" "G") in Hb; [|auto].
    apply (lower_char_letter c "n" "N") in Hc; [|auto]. auto.
  - intros (a & b & c & -> & Ha & Hb & Hc). cbn [lower].
    apply (lower_char_letter a "p" "P") in Ha; [|auto].
    apply (lower_char_letter b "g" "G") in Hb; [|auto].
    apply (lower_char_letter c "n" "N") in Hc; [|auto].
    now rewrite Ha, Hb, Hc.
Qed.

(** X6: [allowed_file] never raises, and it accepts a name exactly when
    the name ends with a dot followed by the three letters p, g, n, each
    in upper or lower case; a name without a dot is refused. *)
Theorem allowed_file_extension (filename : string) :
  (exists b, allowed_file filename = Ok b) /\
  (allowed_file filename = Ok true <->
   exists stem a b c,
     filename = stem +:+ String "."%char (String a (String b (String c EmptyString))) /\
     (a = "p" \/ a = "P")%char /\ (b = "g" \/ b = "G")%char /\
     (c = "n" \/ c = "N")%char) /\
  (contains "."%char filename = false -> allowed_file filename = Ok false).
Proof.
  destruct (allowed_file_last_dot filename) as (Htotal & Hiff & Hnodot).
  split; [exact Htotal|]. split; [|exact Hnodot].
  rewrite Hiff. split.
  - intros (stem & extension & Heq & _ & Hlower).
    apply lower_pgn in Hlower. destruct Hlower as (a & b & c & -> & Ha & Hb & Hc).
    exists stem, a, b, c. auto.
  - intros (stem & a & b & c & Heq & Ha & Hb & Hc).
    exists stem, (String a (String b (String c EmptyString))).
    split; [exact Heq|]. split.
    + destruct Ha as [-> | ->]; destruct Hb as [-> | ->]; destruct Hc as [-> | ->];
        reflexivity.
    + apply lower_pgn. exists a, b, c. auto.
Qed.

Example allowed_file_examples :
  allowed_file "game.pgn" = Ok true /\
  allowed_file "GAME.PgN" = Ok true /\
  allowed_file ".pgn" = Ok true /\
  allowed_file "game.pgn.txt" = Ok false /\
  allowed_file "pgn" = Ok false /\
  allowed_file "game." = Ok false /\
  allowed_file "" = Ok false.
Proof. repeat split; vm_compute; reflexivity. Qed.

(** ** Uploads *)

Lemma allowed_file_empty : allowed_file "" = Ok false.
Proof. reflexivity. Qed.

(** X7: a request that is not a POST with a file part of an allowed name
    changes nothing: the registry is as before, no analysis is started
    and no exception is raised. A POST without a file part, or with an
    empty file name, is redirected to the same URL; the other refused
    requests get the index page without analysis. *)
Theorem upload_refused (env : WebEnv) (request : Request)
    (reg : gmap string (gmap string pyval)) :
  (forall raw, ~ accepts request raw) ->
  exists page,
    upload_file env request reg = (reg, Ok {| response := page; started := None |}) /\
    (page = Redirect (url request) <->
     method request = "POST" /\
     (files request !! "file" = None \/ files request !! "file" = Some "")) /\
    (page <> Redirect (url request) ->
     page = IndexPage None (MAX_WORKERS (cpu_count env)) EVAL_DIFFERENCE_THRESHOLD).
Proof.
  intros Hrefused. unfold upload_file. cbv zeta.
  destruct (String.eqb_spec (method request) "POST") as [Hpost|Hget].
  - destruct (files request !! "file") as [raw|] eqn:Hfile.
    + destruct (String.eqb_spec raw "") as [->|Hname].
      * eexists. split; [reflexivity|]. split; [|intros Hne; contradiction].
        split; [auto | reflexivity].
      * cbn [negb]. unfold mbind at 1. unfold SE_bind at 1. unfold lift at 1.
        destruct (allowed_file_last_dot raw) as ([b Hb] & _).
        rewrite Hb. destruct b.
        { exfalso. apply (Hrefused raw). now repeat split. }
        eexists. split; [reflexivity|]. split; [|reflexivity].
        split; [discriminate|].
        intros [_ [Hnone|Hsome]]; [discriminate | congruence].
    + eexists. split; [reflexivity|]. split; [|intros Hne; contradiction].
      split; [auto | reflexivity].
  - eexists. split; [reflexivity|]. split; [|reflexivity].
    split; [discriminate | intros [Hpost _]; contradiction].
Qed.

Lemma upload_refused_witness :
  exists page, upload_file toy_web get_request ∅
               = (∅, Ok {| response := page; started := None |}).
Proof.
  destruct (upload_refused toy_web get_request ∅) as (page & Hpage & _).
  - intros raw (Hpost & _). discriminate Hpost.
  - exists page. exact Hpage.
Defined.

(** The handler on a request it accepts. *)
Lemma upload_file_accepts (env : WebEnv) (request : Request) (raw : string)
    (reg : gmap string (gmap string pyval)) :
  accepts request raw ->
  upload_file env request reg =
    match save env (path_join UPLOAD_FOLDER (secure_filename env raw)) with
    | Raise msg => (reg, Raise msg)
    | Ok _ =>
      (register_upload (uuid4 env) (secure_filename env raw) reg,
       match start_thread env with
       | Ok _ =>
         Ok {| response := IndexPage (Some (uuid4 env, secure_filename env raw))
                             (MAX_WORKERS (cpu_count env)) EVAL_DIFFERENCE_THRESHOLD;
               started := Some (path_join UPLOAD_FOLDER (secure_filename env raw),
                                uuid4 env) |}
       | Raise msg => Raise msg
       end)
    end.
Proof.
  intros (Hpost & Hfile & Hallowed). unfold upload_file. cbv zeta.
  rewrite Hpost, Hfile, String.eqb_refl.
  destruct (String.eqb_spec raw "") as [->|Hname]; [discriminate Hallowed|].
  unfold mbind, SE_bind, lift, mret, SE_ret, register, negb.
  rewrite Hallowed.
  destruct (save env _) as [[]|msg]; [|reflexivity].
  destruct (start_thread env) as [[]|msg]; reflexivity.
Qed.

(** X8: for a POST whose file part has an allowed name, the file is saved
    under [uploads/] with the name [secure_filename] gives; if saving
    raises, the exception leaves the handler and the registry is
    unchanged. Otherwise the entry of the new identifier is the initial
    entry with that file name (a poll of it answers 200 with it), the
    other entries are unchanged, and the analysis thread is started with
    the saved path and the identifier, which the page returns. *)
Theorem upload_accepted (env : WebEnv) (request : Request) (raw : string)
    (reg : gmap string (gmap string pyval)) :
  accepts request raw ->
  let filename := secure_filename env raw in
  let filepath := path_join UPLOAD_FOLDER filename in
  let analysis_id := uuid4 env in
  let served := upload_file env request reg in
  match save env filepath with
  | Raise msg => served = (reg, Raise msg)
  | Ok _ =>
    fst served = register_upload analysis_id filename reg /\
    (forall other, other <> analysis_id -> fst served !! other = reg !! other) /\
    get_progress analysis_id (fst served)
      = (<["filename" := VStr filename]> initial_fields, 200) /\
    snd served =
      match start_thread env with
      | Ok _ =>
        Ok {| response := IndexPage (Some (analysis_id, filename))
                            (MAX_WORKERS (cpu_count env)) EVAL_DIFFERENCE_THRESHOLD;
              started := Some (filepath, analysis_id) |}
      | Raise msg => Raise msg
      end
  end.
Proof.
  intros Hacc. cbv zeta. rewrite (upload_file_accepts env request raw reg Hacc).
  destruct (save env _) as [[]|msg]; [|reflexivity]. cbn [fst snd].
  split; [reflexivity|].
  split; [intros other Hne; unfold register_upload; now rewrite lookup_insert_ne|].
  split; [unfold get_progress, register_upload; now rewrite lookup_insert_eq|].
  reflexivity.
Qed.

Lemma upload_accepted_witness :
  fst (upload_file toy_web (post_request "Game.PGN") ∅)
    = register_upload "job" "Game.PGN" ∅.
Proof.
  pose proof (upload_accepted toy_web (post_request "Game.PGN") "Game.PGN" ∅) as H.
  cbv zeta in H. change (save toy_web _) with (@Ok unit tt) in H.
  apply H. repeat split; vm_compute; reflexivity.
Defined.

(** ** What a run leaves untouched *)

Lemma only_job_fields_write analysis_id reg reg' key v :
  job_write key v ->
  only_job_fields analysis_id reg reg' ->
  only_job_fields analysis_id reg (alter (insert key v) analysis_id reg').
Proof.
  intros Hw [Hother Hkeys]. split.
  - intros other Hne. rewrite lookup_alter_ne by congruence. now apply Hother.
  - intros key' Hnone. rewrite field_alter_ne; [now apply Hkeys|].
    intros ->. destruct Hw; rewrite initial_fields_lookup in Hnone; discriminate.
Qed.

Lemma only_job_fields_init analysis_id reg :
  only_job_fields analysis_id reg (init_progress analysis_id reg).
Proof.
  split.
  - intros other Hne. now apply init_progress_other.
  - intros key Hnone. unfold field, init_progress.
    destruct (reg !! analysis_id) as [progress|] eqn:Hreg;
      rewrite lookup_insert_eq; cbn.
    + now rewrite lookup_union_r.
    + exact Hnone.
Qed.

(** X9: in every state a run leaves to be read, whatever its outcome,
    the entries of the other identifiers are those of the registry the
    run started from, and so is every field of the run's own entry other
    than status, progress, total_moves, current_move, results and error
    (the file name in particular). *)
Theorem run_touches_only_its_fields `{EngineLib} (env : JobEnv) (analysis_id : string)
    (reg : gmap string (gmap string pyval)) :
  Forall (only_job_fields analysis_id reg)
         (observable (analyze_pgn_async env analysis_id reg)).
Proof.
  apply run_invariant.
  - intros r key v. apply only_job_fields_write.
  - apply only_job_fields_init.
Qed.

(** X10: the run an accepted upload starts shows, in every state a poll
    may read, the file name the upload stored. *)
Theorem uploaded_name_is_kept `{EngineLib} (web : WebEnv) (request : Request)
    (raw : string) (reg : gmap string (gmap string pyval)) (env : JobEnv) :
  accepts request raw ->
  (exists u, save web (path_join UPLOAD_FOLDER (secure_filename web raw)) = Ok u) ->
  Forall (fun reg' => field (uuid4 web) "filename" reg'
                      = Some (VStr (secure_filename web raw)))
         (observable (analyze_pgn_async env (uuid4 web)
                        (fst (upload_file web request reg)))).
Proof.
  intros Hacc [u Hsave].
  rewrite (upload_file_accepts web request raw reg Hacc), Hsave. cbn [fst].
  eapply Forall_impl.
  { apply (run_invariant (uuid4 web) (only_job_fields (uuid4 web)
             (register_upload (uuid4 web) (secure_filename web raw) reg))).
    - intros r key v. apply only_job_fields_write.
    - apply only_job_fields_init. }
  intros reg' [_ Hkeys]. rewrite Hkeys by reflexivity.
  unfold field, register_upload. rewrite lookup_insert_eq. cbn.
  apply lookup_insert_eq.
Qed.

Lemma uploaded_name_is_kept_witness :
  Forall (fun reg' => field "job" "filename" reg' = Some (VStr "Game.PGN"))
         (observable (@analyze_pgn_async toy_chess (scripted_engine sharp_script)
                        (fifo_env (Ok [toy_game ∅ [1; 2; 3]%nat])) "job"
                        (fst (upload_file toy_web (post_request "Game.PGN") ∅)))).
Proof.
  apply (@uploaded_name_is_kept toy_chess (scripted_engine sharp_script)
           toy_web (post_request "Game.PGN") "Game.PGN" ∅).
  - repeat split; vm_compute; reflexivity.
  - exists tt. reflexivity.
Defined.

(** ** What the results endpoint answers during a run *)

Lemma status_and_results_write analysis_id reg key v :
  job_write key v ->
  status_and_results analysis_id reg ->
  status_and_results analysis_id (alter (insert key v) analysis_id reg).
Proof.
  intros Hw [Hstatus Hresults].
  split; [now apply status_in_lifecycle_write|].
  assert (Hpresent : is_Some (reg !! analysis_id)).
  { destruct Hstatus as (s & Hs & _). unfold field in Hs.
    destruct (reg !! analysis_id); [eauto | discriminate]. }
  destruct Hw; try (rewrite field_alter_ne by discriminate; exact Hresults).
  right. exists games. now apply field_alter_same.
Qed.

Lemma status_and_results_serves analysis_id reg :
  status_and_results analysis_id reg -> serves_no_error analysis_id reg.
Proof.
  intros [(s & Hs & Hcases) Hresults]. unfold serves_no_error, get_results.
  unfold field in *. destruct (reg !! analysis_id) as [progress|]; [|discriminate].
  cbn in *. rewrite Hs.
  destruct Hcases as [-> | [-> | ->]]; cbn; auto.
  destruct Hresults as [-> | [games ->]]; eauto.
Qed.

(** X11: in every state a run leaves to be read, whatever its outcome
    (unreadable file, no game, exception in the pool, completion), the
    results endpoint answers that the job is still processing or serves
    the results page; it never answers with the error page or with not
    found. *)
Theorem results_endpoint_never_errs `{EngineLib} (env : JobEnv) (analysis_id : string)
    (reg : gmap string (gmap string pyval)) :
  Forall (serves_no_error analysis_id)
         (observable (analyze_pgn_async env analysis_id reg)).
Proof.
  eapply Forall_impl.
  - apply (run_invariant analysis_id (status_and_results analysis_id)).
    + intros r key v. apply status_and_results_write.
    + split.
      * exists "starting". split; [|auto]. now apply init_progress_field.
      * left. now apply init_progress_field.
  - intros r. apply status_and_results_serves.
Qed.

(** X12: a job that completes stores the status before the results: the
    state before its last one has the status completed and no results
    yet, and the results endpoint asked in that state serves the page
    with the results [None]. *)
Theorem completed_before_results `{EngineLib} (env : JobEnv) (analysis_id : string)
    (reg : gmap string (gmap string pyval)) (games : list Game) :
  corpus env = Ok games ->
  plies games <> 0%nat ->
  pool_fault env = None ->
  as_completed env (submitted games) ≡ₚ submitted games ->
  exists before earlier,
    past (analyze_pgn_async env analysis_id reg) = before :: earlier /\
    field analysis_id "status" before = Some (VStr "completed") /\
    field analysis_id "results" before = Some VNone /\
    get_results analysis_id before = ResultsPage (Some VNone).
Proof.
  intros Hc Hplies Hfault Hperm.
  destruct (run_completes env analysis_id reg games Hc Hplies Hfault Hperm)
    as (t & -> & Hsome & _ & _ & Hother).
  cbn [set_field fst past now].
  eexists _, _. split; [reflexivity|].
  assert (Hstatus : field analysis_id "status"
                      (alter (insert "status" (VStr "completed")) analysis_id (now t))
                    = Some (VStr "completed")) by now apply field_alter_same.
  assert (Hresults : field analysis_id "results"
                       (alter (insert "status" (VStr "completed")) analysis_id (now t))
                     = Some VNone).
  { rewrite field_alter_ne by discriminate. rewrite Hother by discriminate.
    rewrite analyzing_state_field. cbn. now apply init_progress_field. }
  split; [exact Hstatus|]. split; [exact Hresults|].
  unfold get_results. unfold field in Hstatus, Hresults.
  destruct (alter _ analysis_id (now t) !! analysis_id) as [progress|]; [|discriminate].
  cbn in *. now rewrite Hstatus, Hresults.
Qed.

Lemma completed_before_results_witness :
  exists before earlier,
    past hundred_run = before :: earlier /\
    get_results "job" before = ResultsPage (Some VNone).
Proof.
  destruct (@completed_before_results toy_chess (scripted_engine sharp_script)
              (fifo_env (Ok [toy_game ∅ (seq 1 100)])) "job"
              (register_upload "job" "a.pgn" ∅) [toy_game ∅ (seq 1 100)])
    as (before & earlier & Hpast & _ & _ & Hget).
  - reflexivity.
  - cbn. lia.
  - reflexivity.
  - reflexivity.
  - exists before, earlier. split; [exact Hpast | exact Hget].
Defined.

(** ** The stored results, game by game *)

Lemma expected_infos_numbers `{ChessLib} (games : list Game) (count : Z) :
  game_number <$> expected_infos games count
  = (fun i => count + Z.of_nat i) <$> seq 1 (length games).
Proof.
  revert count. induction games as [|game rest IH]; intros count; [reflexivity|].
  cbn [expected_infos fmap list_fmap length seq game_number make_game_info].
  change (count + 1 :: (game_number <$> expected_infos rest (count + 1))
          = count + Z.of_nat 1 :: ((fun i => count + Z.of_nat i) <$> seq 2 (length rest))).
  rewrite IH. f_equal. rewrite <- (fmap_S_seq 1), <- list_fmap_compose.
  apply list_fmap_ext. intros ? i ?. cbn. lia.
Qed.

Lemma expected_infos_distinct `{ChessLib} (games : list Game) (count : Z) :
  NoDup (game_number <$> expected_infos games count).
Proof.
  rewrite expected_infos_numbers. apply NoDup_fmap_2; [|apply NoDup_seq].
  intros i j Hij. lia.
Qed.

Lemma with_more_moments_nil (g : GameInfo) : with_more_moments [] g = g.
Proof. destruct g. unfold with_more_moments. cbn. now rewrite app_nil_r. Qed.

Lemma with_more_moments_app (ms ms' : list CriticalMoment) (g : GameInfo) :
  with_more_moments ms' (with_more_moments ms g) = with_more_moments (ms ++ ms') g.
Proof. unfold with_more_moments. cbn. now rewrite app_assoc. Qed.

(** With distinct numbers the search of lines 249-252 changes the one
    game that has the number, wherever it stands. *)
Lemma add_moment_distinct (number : Z) (r : CriticalMoment) (games : list GameInfo) :
  NoDup (game_number <$> games) ->
  add_moment number r games
  = (fun g => if game_number g =? number then with_more_moments [r] g else g) <$> games.
Proof.
  induction games as [|g rest IH]; [reflexivity|].
  cbn [fmap list_fmap]. intros Hnd. apply NoDup_cons in Hnd as [Hnotin Hnd].
  cbn [add_moment]. destruct (game_number g =? number) eqn:Hg.
  - f_equal. symmetry. etransitivity; [|apply list_fmap_id].
    apply list_fmap_ext. intros i g' Hin. cbn.
    destruct (game_number g' =? number) eqn:Hg'; [|reflexivity].
    exfalso. apply Hnotin. apply Z.eqb_eq in Hg, Hg'. rewrite Hg, <- Hg'.
    apply list_elem_of_fmap. exists g'. split; [reflexivity|].
    eapply list_elem_of_lookup_2; eassumption.
  - f_equal. now apply IH.
Qed.

Lemma aggregate_distinct `{ChessLib} (futures : list Future) (games : list GameInfo) :
  NoDup (game_number <$> games) ->
  aggregate futures games
  = (fun g => with_more_moments (moments_for (game_number g) futures) g) <$> games.
Proof.
  revert games. induction futures as [|future rest IH]; intros games Hnd.
  - unfold aggregate. cbn. symmetry. etransitivity; [|apply list_fmap_id].
    apply list_fmap_ext. intros ? g ?. apply with_more_moments_nil.
  - unfold aggregate in *. cbn [foldl].
    assert (Hstep : collect future games
                    = (fun g => with_more_moments (moments_for (game_number g) [future]) g)
                      <$> games).
    { unfold collect, moments_for, moment_of. cbn [omap list_omap].
      destruct (snd future) as [[r|]|msg].
      - rewrite add_moment_distinct by exact Hnd.
        apply list_fmap_ext. intros ? g ?. cbn.
        rewrite (Z.eqb_sym (pd_game_number (fst future))).
        now destruct (game_number g =? pd_game_number (fst future)); cbn;
          rewrite ?with_more_moments_nil.
      - symmetry. etransitivity; [|apply list_fmap_id].
        apply list_fmap_ext. intros ? g ?. cbn.
        destruct (_ =? _); apply with_more_moments_nil.
      - symmetry. etransitivity; [|apply list_fmap_id].
        apply list_fmap_ext. intros ? g ?. cbn.
        destruct (_ =? _); apply with_more_moments_nil. }
    rewrite Hstep, IH.
    + rewrite <- list_fmap_compose. apply list_fmap_ext. intros ? g ?. cbn.
      rewrite with_more_moments_app. f_equal.
      unfold moments_for. cbn [omap list_omap with_more_moments game_number].
      destruct (pd_game_number future.1 =? game_number g);
        [destruct (moment_of future)|]; reflexivity.
    + rewrite <- list_fmap_compose.
      erewrite list_fmap_ext; [exact Hnd|]. now intros.
Qed.

(** X13: the results a completed job stores hold one record per game of
    the file, in the order of the file and numbered from 1, with the
    metadata read from the headers; the critical moments of a record
    are the moments that [analyze_position] returned for the positions
    of that game and no other, in the order in which the futures
    completed, hence a rearrangement of those in the order of play. *)
Theorem results_game_by_game `{EngineLib} (env : JobEnv) (analysis_id : string)
    (reg : gmap string (gmap string pyval)) (games : list Game) :
  corpus env = Ok games ->
  plies games <> 0%nat ->
  pool_fault env = None ->
  as_completed env (submitted games) ≡ₚ submitted games ->
  exists results,
    field analysis_id "results" (now (analyze_pgn_async env analysis_id reg))
      = Some (VGames results) /\
    game_number <$> results = Z.of_nat <$> seq 1 (length games) /\
    Forall2 (fun (game : Game) (record : GameInfo) =>
               exists number,
                 record =
                   with_more_moments
                     (moments_for number (as_completed env (submitted games)))
                     (make_game_info number (headers game)) /\
                 critical_moments record ≡ₚ moments_for number (submitted games))
            games results.
Proof.
  intros Hc Hplies Hfault Hperm.
  destruct (run_completes env analysis_id reg games Hc Hplies Hfault Hperm)
    as (t & -> & Hsome & _).
  rewrite aggregate_distinct by apply expected_infos_distinct.
  eexists. split; [|split].
  - cbn [set_field fst now]. apply field_alter_same.
    apply alter_present. exact Hsome.
  - rewrite <- list_fmap_compose.
    erewrite list_fmap_ext; [apply (expected_infos_numbers games 0)|].
    now intros.
  - revert Hperm. generalize (as_completed env (submitted games)), (submitted games).
    intros completed futures Hcompleted. generalize 0. clear Hc Hplies Hfault Hsome.
    revert completed futures Hcompleted. induction games as [|game rest IH]; intros completed futures Hcompleted count;
      [constructor|].
    cbn [expected_infos fmap list_fmap]. constructor; [|now apply IH].
    exists (count + 1). split; [reflexivity|].
    cbn. unfold moments_for. now rewrite Hcompleted.
Qed.

Lemma results_game_by_game_witness :
  exists results,
    field "job" "results" (now hundred_run) = Some (VGames results) /\
    game_number <$> results = [1].
Proof.
  destruct (@results_game_by_game toy_chess (scripted_engine sharp_script)
              (fifo_env (Ok [toy_game ∅ (seq 1 100)])) "job"
              (register_upload "job" "a.pgn" ∅) [toy_game ∅ (seq 1 100)])
    as (results & Hfield & Hnumbers & _).
  - reflexivity.
  - cbn. lia.
  - reflexivity.
  - reflexivity.
  - exists results. split; [exact Hfield | exact Hnumbers].
Defined.

(** ** What a returned moment says *)

(** The gap of a moment is above one pawn, also after the rounding of
    the division. *)
Lemma difference_above_one (d : Z) :
  EVAL_DIFFERENCE_THRESHOLD < d -> (1 < int_div_float d 100)%Q.
Proof.
  unfold EVAL_DIFFERENCE_THRESHOLD. intros Hd. unfold int_div_float.
  assert (H101 : (inject_Z 101 <= Binary64.round (inject_Z d))%Q).
  { apply Qle_trans with (Binary64.round (inject_Z 101)).
    - apply Qle_bool_iff. vm_compute. reflexivity.
    - apply round_mono; [cbn; lia|]. unfold Qle. cbn. lia. }
  apply Qlt_le_trans with (Binary64.round (inject_Z 101 / 100)).
  - unfold Qlt. vm_compute. reflexivity.
  - apply round_mono; [vm_compute; discriminate|].
    unfold Qdiv. apply Qmult_le_compat_r; [exact H101|].
    unfold Qle. vm_compute. discriminate.
Qed.

(** Everything a [Some] answer of the detector says about the engine's
    answer and about the moment. *)
Lemma detect_some_fields `{ChessLib} (board : Board) (number : Z) (turn : string)
    (info : list InfoDict) (r : CriticalMoment) :
  detect board number turn info = Ok (Some r) ->
  exists info0 info1 rest pov1 pov2 eval1 eval2 mv1 pv1 mv2 pv2,
    info = info0 :: info1 :: rest /\
    info_score info0 = Some pov1 /\ info_score info1 = Some pov2 /\
    score (white pov1) 10000 = Some eval1 /\
    score (white pov2) 10000 = Some eval2 /\
    info_pv info0 = Some (mv1 :: pv1) /\ info_pv info1 = Some (mv2 :: pv2) /\
    san board mv1 = Ok (best_move r) /\ san board mv2 = Ok (second_best_move r) /\
    best_move_eval r = score_str (white pov1) /\
    second_best_move_eval r = score_str (white pov2) /\
    fen r = board_fen board /\ move_number r = number /\ cm_turn r = turn /\
    EVAL_DIFFERENCE_THRESHOLD < Z.abs (eval1 - eval2) /\ -50 < eval2 < 50 /\
    difference r = int_div_float (Z.abs (eval1 - eval2)) 100.
Proof.
  intros Hr. destruct info as [|info0 [|info1 rest]]; try discriminate.
  unfold detect in Hr.
  destruct (info_score info0) as [pov1|] eqn:Hs1; [|discriminate].
  destruct (info_score info1) as [pov2|] eqn:Hs2; [|discriminate].
  cbn [getitem mbind Exc_bind] in Hr.
  destruct (score (white pov1) 10000) as [eval1|] eqn:He1; [|discriminate].
  destruct (score (white pov2) 10000) as [eval2|] eqn:He2; [|discriminate].
  destruct ((EVAL_DIFFERENCE_THRESHOLD <? Z.abs (eval1 - eval2))
            && ((-50 <? eval2) && (eval2 <? 50))) eqn:Htest; [|discriminate].
  apply andb_true_iff in Htest as [Hgap Hband].
  apply andb_true_iff in Hband as [Hlow Hhigh].
  apply Z.ltb_lt in Hgap, Hlow, Hhigh.
  destruct (info_pv info0) as [[|mv1 pv1]|] eqn:Hp1; try discriminate.
  cbn [getitem first mbind Exc_bind] in Hr.
  destruct (san board mv1) as [best|] eqn:Hb; [|discriminate].
  destruct (info_pv info1) as [[|mv2 pv2]|] eqn:Hp2; try discriminate.
  cbn [getitem first mbind Exc_bind] in Hr.
  destruct (san board mv2) as [second|] eqn:Hsn; [|discriminate].
  cbn [mbind Exc_bind] in Hr. injection Hr as <-.
  exists info0, info1, rest, pov1, pov2, eval1, eval2, mv1, pv1, mv2, pv2.
  cbn. repeat split; try assumption; try reflexivity; lia.
Qed.

(** X14: a moment that [analyze_position] returns is sound. The engine
    was started, its probe of the position was not empty, its ranked
    answer had two candidates with scores that resolve, whose gap
    exceeds the threshold while the second is strictly between -50 and
    50, and [engine.quit()] returned without raising; the moment carries
    the position's board, move number and side, the two first moves as
    the board renders them and the two scores as text, and its
    difference, the gap divided by 100.0, is above one pawn. *)
Theorem returned_moment_is_sound `{EngineLib} (pd : PositionData Board)
    (r : CriticalMoment) :
  analyze_position pd = Ok (Some r) ->
  exists s0 s2 s3 probe info0 info1 rest pov1 pov2 eval1 eval2 mv1 pv1 mv2 pv2,
    popen_uci STOCKFISH_PATH = Ok s0 /\
    analyse (pd_board pd) (3 # 10)%Q 1 (fst (configure_stockfish s0))
      = (s2, Ok probe) /\
    probe <> [] /\
    analyse (pd_board pd) (1 # 2)%Q 3 s2 = (s3, Ok (info0 :: info1 :: rest)) /\
    snd (quit s3) = Ok tt /\
    info_score info0 = Some pov1 /\ info_score info1 = Some pov2 /\
    score (white pov1) 10000 = Some eval1 /\
    score (white pov2) 10000 = Some eval2 /\
    info_pv info0 = Some (mv1 :: pv1) /\ info_pv info1 = Some (mv2 :: pv2) /\
    san (pd_board pd) mv1 = Ok (best_move r) /\
    san (pd_board pd) mv2 = Ok (second_best_move r) /\
    best_move_eval r = score_str (white pov1) /\
    second_best_move_eval r = score_str (white pov2) /\
    fen r = board_fen (pd_board pd) /\
    move_number r = pd_move_number pd /\
    cm_turn r = pd_turn pd /\
    EVAL_DIFFERENCE_THRESHOLD < Z.abs (eval1 - eval2) /\ -50 < eval2 < 50 /\
    difference r = int_div_float (Z.abs (eval1 - eval2)) 100 /\
    (1 < difference r)%Q.
Proof.
  unfold analyze_position.
  destruct (popen_uci STOCKFISH_PATH) as [s0|msg] eqn:Hopen; [|discriminate].
  rewrite analyze_position_try_steps.
  destruct (analyse (pd_board pd) (3 # 10)%Q 1 _) as [s2 [[|p ps]|msg]] eqn:Hprobe.
  - destruct (quit s2) as [s3 [[]|msg]]; [discriminate|].
    destruct (quit s3) as [s4 [[]|msg']]; discriminate.
  - destruct (analyse (pd_board pd) (1 # 2)%Q 3 s2) as [s3 [info|msg]] eqn:Hlines.
    + destruct (detect _ _ _ info) as [result|msg] eqn:Hdetect.
      * destruct (quit s3) as [s4 [[]|msg]] eqn:Hquit.
        -- intros Hr. injection Hr as ->.
           destruct (detect_some_fields _ _ _ _ _ Hdetect)
             as (info0 & info1 & rest & pov1 & pov2 & eval1 & eval2 & mv1 & pv1 & mv2
                 & pv2 & -> & Hs1 & Hs2 & He1 & He2 & Hp1 & Hp2 & Hb & Hsn & Hbe & Hse
                 & Hfen & Hnum & Hturn & Hgap & Hband & Hdiff).
           exists s0, s2, s3, (p :: ps), info0, info1, rest, pov1, pov2, eval1, eval2,
                  mv1, pv1, mv2, pv2.
           repeat (split; [first [assumption | reflexivity | discriminate
                                  | now rewrite Hquit | lia]|]).
           rewrite Hdiff. now apply difference_above_one.
        -- destruct (quit s4) as [s5 [[]|msg']]; discriminate.
      * destruct (quit s3) as [s4 [[]|msg']]; discriminate.
    + destruct (quit s3) as [s4 [[]|msg']]; discriminate.
  - destruct (quit s2) as [s3 [[]|msg']]; discriminate.
Qed.

Lemma returned_moment_is_sound_witness :
  exists r,
    @analyze_position toy_chess (scripted_engine sharp_script) toy_position
      = Ok (Some r) /\
    (1 < difference r)%Q.
Proof.
  eexists. split; [reflexivity|].
  destruct (@returned_moment_is_sound toy_chess (scripted_engine sharp_script)
              toy_position _ eq_refl)
    as (s0 & s2 & s3 & probe & info0 & info1 & rest & pov1 & pov2 & eval1 & eval2
        & mv1 & pv1 & mv2 & pv2 & H).
  exact (proj2 (proj2 (proj2 (proj2 (proj2 (proj2 (proj2 (proj2 (proj2 (proj2
         (proj2 (proj2 (proj2 (proj2 (proj2 (proj2 (proj2 (proj2 (proj2 (proj2
         (proj2 H))))))))))))))))))))).
Defined.

(** ** The requests an engine receives *)

Lemma analyze_position_run_result `{EngineLib} (pd : PositionData Board) :
  snd (analyze_position_run pd) = analyze_position pd.
Proof.
  unfold analyze_position_run, analyze_position.
  destruct (popen_uci STOCKFISH_PATH) as [s0|msg]; [|reflexivity].
  destruct (analyze_position_try pd s0) as [s1 [r|msg]]; [reflexivity|].
  destruct (quit s1) as [s2 [[]|msg']]; reflexivity.
Qed.

(** [configure_stockfish] on a recording engine: the options sent are a
    non-empty prefix of the four, and all four unless a request raised. *)
Lemma configure_stockfish_logged `{C : ChessLib} (E : @EngineLib C)
    (s : @Session C E) (log : list Call) :
  exists options,
    @configure_stockfish C (logged E) (s, log)
      = ((fst (@configure_stockfish C E s), log ++ (CallConfigure <$> options)), Ok tt) /\
    options `prefix_of` stockfish_options /\ options <> [] /\
    ((forall option s', snd (@configure C E option s') = Ok tt) ->
     options = stockfish_options).
Proof.
  unfold configure_stockfish, try_pass, stockfish_options.
  unfold mbind, SE_bind. cbn [logged configure fst snd].
  destruct (@configure C E (Threads 1) s) as [s1 [[]|m1]] eqn:H1; cbn [fst snd].
  - destruct (@configure C E (Hash STOCKFISH_HASH_SIZE) s1) as [s2 [[]|m2]] eqn:H2;
      cbn [fst snd].
    + destruct (@configure C E (SkillLevel 20) s2) as [s3 [[]|m3]] eqn:H3;
        cbn [fst snd].
      * destruct (@configure C E (UCI_LimitStrength false) s3) as [s4 o4] eqn:H4.
        exists [Threads 1; Hash STOCKFISH_HASH_SIZE; SkillLevel 20;
                UCI_LimitStrength false].
        cbn [fst snd fmap list_fmap]. rewrite <- !app_assoc. cbn [app].
        repeat split; [reflexivity | discriminate].
      * exists [Threads 1; Hash STOCKFISH_HASH_SIZE; SkillLevel 20].
        cbn [fst snd fmap list_fmap]. rewrite <- !app_assoc. cbn [app].
        repeat split; [now exists [UCI_LimitStrength false] | discriminate |].
        intros Hok. specialize (Hok (SkillLevel 20) s2). rewrite H3 in Hok.
        discriminate.
    + exists [Threads 1; Hash STOCKFISH_HASH_SIZE].
      cbn [fst snd fmap list_fmap]. rewrite <- !app_assoc. cbn [app].
      repeat split; [now exists [SkillLevel 20; UCI_LimitStrength false]
                    | discriminate |].
      intros Hok. specialize (Hok (Hash STOCKFISH_HASH_SIZE) s1). rewrite H2 in Hok.
      discriminate.
  - exists [Threads 1]. cbn [fst snd fmap list_fmap].
    repeat split;
      [now exists [Hash STOCKFISH_HASH_SIZE; SkillLevel 20; UCI_LimitStrength false]
      | discriminate |].
    intros Hok. specialize (Hok (Threads 1) s). rewrite H1 in Hok. discriminate.
Qed.

Ltac log_shape :=
  cbn [fst snd]; rewrite <- ?app_assoc; cbn [app]; rewrite ?app_nil_r;
  repeat split; auto.

(** The [try] block on a recording engine: the requests it sends, and
    the same outcome as on the engine that is recorded. *)
Lemma analyze_position_try_logged `{C : ChessLib} (E : @EngineLib C)
    (pd : PositionData Board) (s : @Session C E) (log : list Call) :
  exists options analyses quits,
    @analyze_position_try C (logged E) pd (s, log)
      = ((fst (@analyze_position_try C E pd s),
          log ++ (CallConfigure <$> options) ++ analyses ++ quits),
         snd (@analyze_position_try C E pd s)) /\
    options `prefix_of` stockfish_options /\ options <> [] /\
    ((forall option s', snd (@configure C E option s') = Ok tt) ->
     options = stockfish_options) /\
    (analyses = [CallAnalyse (pd_board pd) (3 # 10)%Q 1] \/
     analyses = [CallAnalyse (pd_board pd) (3 # 10)%Q 1;
                 CallAnalyse (pd_board pd) (1 # 2)%Q 3]) /\
    match snd (@analyze_position_try C E pd s) with
    | Ok _ => quits = [CallQuit]
    | Raise msg =>
      quits = [] \/
      (quits = [CallQuit] /\ exists s3, snd (@quit C E s3) = Raise msg)
    end.
Proof.
  rewrite (@analyze_position_try_steps C (logged E)).
  rewrite (@analyze_position_try_steps C E).
  destruct (configure_stockfish_logged E s log) as (options & -> & Hprefix & Hne & Hall).
  exists options. cbn [fst snd logged analyse quit].
  destruct (@analyse C E (pd_board pd) (3 # 10)%Q 1 (fst (@configure_stockfish C E s)))
    as [s2 [[|p ps]|msg]]; cbn [fst snd].
  - destruct (@quit C E s2) as [s3 [[]|msg]] eqn:Hquit; cbn [fst snd].
    + exists [CallAnalyse (pd_board pd) (3 # 10)%Q 1], [CallQuit].
      log_shape.
    + exists [CallAnalyse (pd_board pd) (3 # 10)%Q 1], [CallQuit].
      log_shape.
      right. split; [reflexivity|]. exists s2. now rewrite Hquit.
  - destruct (@analyse C E (pd_board pd) (1 # 2)%Q 3 s2) as [s3 [info|msg]];
      cbn [fst snd].
    + destruct (detect _ _ _ info) as [result|msg].
      * destruct (@quit C E s3) as [s4 [[]|msg]] eqn:Hquit; cbn [fst snd].
        -- exists [CallAnalyse (pd_board pd) (3 # 10)%Q 1;
                   CallAnalyse (pd_board pd) (1 # 2)%Q 3], [CallQuit].
           log_shape.
        -- exists [CallAnalyse (pd_board pd) (3 # 10)%Q 1;
                   CallAnalyse (pd_board pd) (1 # 2)%Q 3], [CallQuit].
           log_shape.
           right. split; [reflexivity|]. exists s3. now rewrite Hquit.
      * exists [CallAnalyse (pd_board pd) (3 # 10)%Q 1;
                CallAnalyse (pd_board pd) (1 # 2)%Q 3], [].
        log_shape.
    + exists [CallAnalyse (pd_board pd) (3 # 10)%Q 1;
              CallAnalyse (pd_board pd) (1 # 2)%Q 3], [].
      log_shape.
  - exists [CallAnalyse (pd_board pd) (3 # 10)%Q 1], [].
    log_shape.
Qed.

(** X15: the requests one call of [analyze_position] sends to the
    engine. When [popen_uci] raises there is no process and the call
    returns [None]. Otherwise the process receives, in this order: a
    non-empty prefix of the four options (all four when no
    [engine.configure] raises), the probe at 0.3 s with one line,
    possibly the ranked analysis at 0.5 s with three lines, and then
    [engine.quit()] as its last request, once or twice, and exactly once
    when [engine.quit()] does not raise. Recording the requests does not
    change what the call returns. *)
Theorem engine_is_released `{C : ChessLib} (E : @EngineLib C) (pd : PositionData Board) :
  snd (@analyze_position_run C (logged E) pd) = @analyze_position C E pd /\
  match fst (@analyze_position_run C (logged E) pd) with
  | None =>
    (exists msg, @popen_uci C E STOCKFISH_PATH = Raise msg) /\
    @analyze_position C E pd = Ok None
  | Some (_, log) =>
    exists options quits,
      follows_protocol (pd_board pd) options quits log /\
      options `prefix_of` stockfish_options /\ options <> [] /\
      ((forall option s, snd (@configure C E option s) = Ok tt) ->
       options = stockfish_options) /\
      (quits = 1 \/ quits = 2)%nat /\
      ((forall s, snd (@quit C E s) = Ok tt) -> quits = 1%nat)
  end.
Proof.
  unfold analyze_position_run, analyze_position, follows_protocol.
  cbn [logged popen_uci].
  destruct (@popen_uci C E STOCKFISH_PATH) as [s0|msg0]; [|cbn; eauto].
  destruct (analyze_position_try_logged E pd s0 [])
    as (options & analyses & quits & -> & Hprefix & Hne & Hall & Hanalyses & Hquits).
  destruct (@analyze_position_try C E pd s0) as [s1 [result|msg]]; cbn [fst snd] in *.
  - subst quits. split; [reflexivity|]. exists options, 1%nat.
    split; [exists analyses; now split|]. auto 10.
  - cbn [logged quit fst snd].
    destruct (@quit C E s1) as [s2 out] eqn:Hquit.
    split; [destruct out as [[]|msg']; reflexivity|].
    assert (Hlog : exists n,
              (((CallConfigure <$> options) ++ analyses ++ quits) ++ [CallQuit]
               = (CallConfigure <$> options) ++ analyses ++ replicate n CallQuit) /\
              (n = 1 \/ n = 2)%nat /\
              ((forall s, snd (@quit C E s) = Ok tt) -> n = 1%nat)).
    { destruct Hquits as [-> | [-> (s3 & Hs3)]].
      - exists 1%nat. rewrite app_nil_r, <- !app_assoc. auto.
      - exists 2%nat. rewrite <- !app_assoc. repeat split; auto.
        intros Hok. rewrite Hok in Hs3. discriminate. }
    destruct Hlog as (n & Hlog & Hn & Honce).
    assert (Hgoal : exists options0 quits0,
              (exists analyses0,
                 ((CallConfigure <$> options) ++ analyses ++ quits) ++ [CallQuit]
                 = (CallConfigure <$> options0) ++ analyses0
                     ++ replicate quits0 CallQuit /\
                 (analyses0 = [CallAnalyse (pd_board pd) (3 # 10)%Q 1] \/
                  analyses0 = [CallAnalyse (pd_board pd) (3 # 10)%Q 1;
                               CallAnalyse (pd_board pd) (1 # 2)%Q 3])) /\
              options0 `prefix_of` stockfish_options /\ options0 <> [] /\
              ((forall option s, snd (@configure C E option s) = Ok tt) ->
               options0 = stockfish_options) /\
              (quits0 = 1 \/ quits0 = 2)%nat /\
              ((forall s, snd (@quit C E s) = Ok tt) -> quits0 = 1%nat)).
    { exists options, n. split; [exists analyses; now split|]. auto 10. }
    destruct out as [[]|msg']; exact Hgoal.
Qed.

(** The hung engine is asked to quit twice, the sharp one once. *)
Lemma engine_requests_examples :
  fst (@analyze_position_run toy_chess (logged (scripted_engine hung_script))
         toy_position)
    = Some (tt, (CallConfigure <$> stockfish_options)
                ++ [@CallAnalyse toy_chess [] (3 # 10)%Q 1; CallQuit; CallQuit]) /\
  fst (@analyze_position_run toy_chess (logged (scripted_engine sharp_script))
         toy_position)
    = Some (tt, (CallConfigure <$> stockfish_options)
                ++ [@CallAnalyse toy_chess [] (3 # 10)%Q 1;
                    @CallAnalyse toy_chess [] (1 # 2)%Q 3; CallQuit]).
Proof. split; reflexivity. Qed.

(** ** Rounding to binary64 is to nearest *)

Lemma pow2_Qpower (e : Z) : 0 <= e -> (inject_Z (2 ^ e) == 2 ^ e)%Q.
Proof. intros He. now rewrite Zpower_Qpower. Qed.

Lemma pow2_Q_pos (e : Z) : (0 < 2 ^ e)%Q.
Proof. apply Qpower_0_lt. reflexivity. Qed.

(** The value of a significand and an exponent is [m * 2^e]. *)
Lemma value_Qpower (m e : Z) : (Binary64.value (m, e) == inject_Z m * 2 ^ e)%Q.
Proof.
  unfold Binary64.value. cbn [fst snd].
  destruct (Z.le_gt_cases 0 e) as [He|He].
  - rewrite (Z.max_r 0 e), (Z.max_l 0 (- e)) by lia.
    rewrite <- pow2_Qpower by exact He.
    rewrite <- inject_Z_mult. unfold Qeq. cbn. lia.
  - rewrite (Z.max_l 0 e), (Z.max_r 0 (- e)) by lia.
    replace e with (- - e) at 2 by lia. rewrite Qpower_opp.
    rewrite <- pow2_Qpower by lia.
    assert (Hpos : 0 < 2 ^ (- e)) by (apply Z.pow_pos_nonneg; lia).
    rewrite Z.pow_0_r, Z.mul_1_r.
    rewrite (Qmake_Qdiv m (Z.to_pos (2 ^ (- e)))).
    rewrite Z2Pos.id by exact Hpos. reflexivity.
Qed.

(** Nearest-even rounding of a fraction gives an integer nearest to it. *)
Lemma round_half_even_nearest (n d k : Z) :
  0 < d ->
  Z.abs (n - Binary64.round_half_even n d * d) <= Z.abs (n - k * d).
Proof.
  intros Hd. unfold Binary64.round_half_even.
  pose proof (Z.div_mod n d ltac:(lia)) as Hn.
  pose proof (Z.mod_pos_bound n d Hd) as Hr.
  set (q := n / d) in *. set (r := n mod d) in *.
  assert (Hk : k <= q \/ q + 1 <= k) by lia.
  destruct (Z.compare_spec (2 * r) d) as [He|Hl|Hg];
    [destruct (Z.even q)| |]; destruct Hk; nia.
Qed.

Lemma Qabs_quotient (a c : Z) :
  0 < c -> (Qabs (inject_Z a / inject_Z c) == inject_Z (Z.abs a) / inject_Z c)%Q.
Proof.
  intros Hc.
  assert (Hcq : (0 < inject_Z c)%Q) by (rewrite <- (Zlt_Qlt 0); exact Hc).
  assert (Hinv : (0 <= / inject_Z c)%Q) by (apply Qlt_le_weak, Qinv_lt_0_compat, Hcq).
  unfold Qdiv. rewrite Qabs_Qmult. rewrite (Qabs_pos (/ inject_Z c)) by exact Hinv.
  apply Qmult_comp; [|reflexivity].
  unfold Qabs, inject_Z. cbn. reflexivity.
Qed.

Lemma inject_Z_nonzero (c : Z) : 0 < c -> ~ (inject_Z c == 0)%Q.
Proof.
  intros Hc H. rewrite (Zlt_Qlt 0) in Hc. rewrite H in Hc. now apply Qlt_irrefl in Hc.
Qed.

(** The difference between [n/d] and [k * 2^e], over the integers. *)
Lemma difference_scaled (n : Z) (d : positive) (e k : Z) :
  ((n # d) - inject_Z k * 2 ^ e
   == inject_Z (Binary64.scaled_num n e - k * Binary64.scaled_den (Zpos d) e)
      / inject_Z (Zpos d * 2 ^ Z.max 0 (- e)))%Q.
Proof.
  pose proof (pow2_max_pos e) as HP. pose proof (pow2_max_pos (- e)) as HM.
  unfold Binary64.scaled_num, Binary64.scaled_den.
  pose proof (value_Qpower 1 e) as HE. unfold Binary64.value in HE. cbn [fst snd] in HE.
  rewrite Z.mul_1_l, Qmult_1_l in HE. rewrite <- HE.
  set (P := 2 ^ Z.max 0 e) in *. set (M := 2 ^ Z.max 0 (- e)) in *.
  rewrite (Qmake_Qdiv n d), (Qmake_Qdiv P (Z.to_pos M)).
  rewrite Z2Pos.id by exact HM.
  unfold Z.sub. rewrite inject_Z_plus, inject_Z_opp, !inject_Z_mult.
  pose proof (inject_Z_nonzero M HM) as HMq.
  pose proof (inject_Z_nonzero (Zpos d) ltac:(lia)) as Hdq.
  field. split; assumption.
Qed.

Lemma distance_scaled (n : Z) (d : positive) (e k : Z) :
  (Qabs ((n # d) - inject_Z k * 2 ^ e)
   == inject_Z (Z.abs (Binary64.scaled_num n e - k * Binary64.scaled_den (Zpos d) e))
      / inject_Z (Zpos d * 2 ^ Z.max 0 (- e)))%Q.
Proof.
  pose proof (pow2_max_pos (- e)) as HM.
  rewrite <- Qabs_quotient by lia. apply Qabs_wd. apply difference_scaled.
Qed.

Lemma quotient_le (a b c : Z) :
  0 < c -> a <= b -> (inject_Z a / inject_Z c <= inject_Z b / inject_Z c)%Q.
Proof.
  intros Hc Hab. unfold Qdiv. apply Qmult_le_compat_r.
  - now rewrite <- Zle_Qle.
  - apply Qlt_le_weak, Qinv_lt_0_compat. now rewrite <- (Zlt_Qlt 0).
Qed.

(** The significand is an integer nearest to [(n/d) / 2^e], and [n/d]
    is not below [2^52 * 2^e]. *)
Lemma significand_grid (n d : positive) :
  let me := Binary64.significand (Zpos n) (Zpos d) in
  (forall k : Z,
     (Qabs ((Zpos n # d) - inject_Z (fst me) * 2 ^ snd me)
      <= Qabs ((Zpos n # d) - inject_Z k * 2 ^ snd me))%Q) /\
  (inject_Z (2 ^ 52) * 2 ^ snd me <= Zpos n # d)%Q.
Proof.
  cbv zeta.
  pose proof (significand_bounds (Zpos n) (Zpos d) ltac:(lia) ltac:(lia)) as [He _].
  destruct (floor_log2_spec (Zpos n) (Zpos d) ltac:(lia) ltac:(lia)) as [Hge _].
  unfold Binary64.significand in *. cbv zeta in *. cbn [fst snd] in *.
  change (Binary64.prec - 1) with 52 in *.
  set (e := Binary64.floor_log2 (Zpos n) (Zpos d) - 52) in *.
  pose proof (pow2_max_pos (- e)) as HM.
  pose proof (scaled_den_pos (Zpos d) e ltac:(lia)) as HD.
  split.
  - intros k. rewrite !distance_scaled. apply quotient_le; [lia|].
    apply round_half_even_nearest. exact HD.
  - assert (Hlow : 2 ^ 52 * Binary64.scaled_den (Zpos d) e
                   <= Binary64.scaled_num (Zpos n) e).
    { apply scaled_ge_shift; [lia|].
      now replace (e + 52) with (Binary64.floor_log2 (Zpos n) (Zpos d)) by (subst e; lia). }
    apply Qle_minus_iff. 
    setoid_replace ((Zpos n # d) + - (inject_Z (2 ^ 52) * 2 ^ e))%Q
      with ((Zpos n # d) - inject_Z (2 ^ 52) * 2 ^ e)%Q using relation Qeq
      by reflexivity.
    rewrite difference_scaled.
    setoid_replace 0%Q with (inject_Z 0 / inject_Z (Zpos d * 2 ^ Z.max 0 (- e)))%Q
      using relation Qeq.
    + apply quotient_le; lia.
    + unfold Qdiv. now rewrite Qmult_0_l.
Qed.

Lemma pow2_split (e j : Z) :
  0 <= j -> (2 ^ (e + j) == inject_Z (2 ^ j) * 2 ^ e)%Q.
Proof.
  intros Hj. rewrite Qpower_plus by discriminate.
  rewrite pow2_Qpower by exact Hj. apply Qmult_comm.
Qed.

(** Rounding a positive fraction gives a binary64 number nearest to it. *)
Lemma round_nearest_pos (n d : positive) :
  nearest_binary64 (Zpos n # d)
    (Binary64.value (Binary64.significand (Zpos n) (Zpos d))).
Proof.
  destruct (significand_grid n d) as [Hnear Hlow].
  pose proof (significand_bounds (Zpos n) (Zpos d) ltac:(lia) ltac:(lia)) as [_ Hm].
  destruct (Binary64.significand (Zpos n) (Zpos d)) as [m e]. cbn [fst snd] in *.
  split.
  - destruct (Z.eq_dec m (2 ^ 53)) as [->|Hne].
    + exists (2 ^ 52), (e + 1). split; [reflexivity|].
      rewrite value_Qpower, (pow2_split e 1) by lia.
      rewrite Qmult_assoc, <- inject_Z_mult. reflexivity.
    + exists m, e. split; [lia|]. apply value_Qpower.
  - intros f' (m' & e' & Hm' & Hf').
    rewrite Hf', value_Qpower.
    destruct (Z.le_gt_cases e e') as [Hee|Hee].
    + replace e' with (e + (e' - e)) by lia.
      rewrite (pow2_split e (e' - e)) by lia.
      rewrite Qmult_assoc, <- inject_Z_mult. apply Hnear.
    + eapply Qle_trans; [apply (Hnear (2 ^ 52))|].
      rewrite Qabs_pos by (apply -> Qle_minus_iff; exact Hlow).
      eapply Qle_trans; [|apply Qle_Qabs].
      assert (Hle : (inject_Z m' * 2 ^ e' <= inject_Z (2 ^ 52) * 2 ^ e)%Q).
      { replace e with (e' + (e - e')) by lia.
        rewrite (pow2_split e' (e - e')) by lia.
        rewrite Qmult_assoc, <- inject_Z_mult.
        apply Qmult_le_compat_r; [|apply Qlt_le_weak, pow2_Q_pos].
        rewrite <- Zle_Qle.
        assert (H2 : 2 ^ 1 <= 2 ^ (e - e')) by (apply Z.pow_le_mono_r; lia).
        change (2 ^ 1) with 2 in H2. lia. }
      lra.
Qed.

Lemma binary64_zero : binary64 0.
Proof. exists 0, 0. split; [reflexivity|]. reflexivity. Qed.

(** [Binary64.round] gives a binary64 number nearest to its argument. *)
Lemma round_nearest (q : Q) :
  0 <= Qnum q -> nearest_binary64 q (Binary64.round q).
Proof.
  intros Hq. destruct q as [n d]. unfold Binary64.round. cbn [Qnum Qden] in *.
  destruct n as [|n|n]; [| apply round_nearest_pos | lia].
  split; [apply binary64_zero|].
  intros f' _.
  setoid_replace ((0 # d) - 0)%Q with 0%Q using relation Qeq
    by (unfold Qeq; cbn; lia).
  apply Qabs_nonneg.
Qed.

#[local] Instance binary64_wd : Proper (Qeq ==> iff) binary64.
Proof.
  intros f f' Hf. unfold binary64. split; intros (m & e & Hm & He); exists m, e.
  - now rewrite <- Hf.
  - now rewrite Hf.
Qed.

#[local] Instance nearest_binary64_wd : Proper (Qeq ==> Qeq ==> iff) nearest_binary64.
Proof.
  intros x x' Hx f f' Hf. unfold nearest_binary64. rewrite Hf.
  split; intros [Hb Hn]; (split; [exact Hb|]); intros g Hg; specialize (Hn g Hg).
  - now rewrite <- Hx, <- Hf.
  - now rewrite Hx, Hf.
Qed.

(** An integer of at most 53 bits converts to a float without rounding. *)
Lemma round_integer (a : Z) :
  0 <= a <= 2 ^ 53 -> (Binary64.round (inject_Z a) == inject_Z a)%Q.
Proof.
  intros Ha.
  destruct (round_nearest (inject_Z a) ltac:(cbn; lia)) as [_ Hn].
  assert (Hrep : binary64 (inject_Z a)).
  { destruct (Z.eq_dec a (2 ^ 53)) as [->|Hne].
    - exists (2 ^ 52), 1. split; reflexivity.
    - exists a, 0. split; [lia|]. rewrite Qpower_0_r. now rewrite Qmult_1_r. }
  specialize (Hn _ Hrep).
  setoid_replace (inject_Z a - inject_Z a)%Q with 0%Q using relation Qeq in Hn
    by ring.
  change (Qabs 0) with 0%Q in Hn.
  apply Qabs_Qle_condition in Hn. destruct Hn as [H1 H2]. lra.
Qed.

(** [a / y] on an int and a positive float: the int is rounded to a
    nearest float, and so is the quotient. *)
Lemma int_div_float_nearest (a : Z) (y : Q) :
  0 <= a -> (0 < y)%Q ->
  (exists g, nearest_binary64 (inject_Z a) g /\
             nearest_binary64 (g / y) (int_div_float a y)) /\
  (a <= 2 ^ 53 -> nearest_binary64 (inject_Z a / y) (int_div_float a y)).
Proof.
  intros Ha Hy. unfold int_div_float.
  assert (Hg : 0 <= Qnum (Binary64.round (inject_Z a) / y)).
  { apply Qnum_nonneg. apply Qle_shift_div_l; [exact Hy|]. rewrite Qmult_0_l.
    apply round_nonneg. cbn. lia. }
  split.
  - exists (Binary64.round (inject_Z a)). split; apply round_nearest; [cbn; lia | exact Hg].
  - intros Hsmall.
    rewrite <- (round_integer a) at 1 by lia.
    apply round_nearest. exact Hg.
Qed.

(** ** The critical-moment rule on [analyze_position] *)

(** C1, as stated, fails: two candidates with resolving scores, a gap of
    190 and a second evaluation of 10 satisfy the rule, and yet no
    record comes back when the best line carries no move (the reading of
    the answer raises and the handler returns [None]), nor when the
    engine does not answer [quit] (the exception leaves the function). *)
Lemma critical_answer_without_moment :
  100 < Z.abs (200 - 10) /\ -50 < 10 < 50 /\
  @analyze_position toy_chess (scripted_engine blind_script) toy_position = Ok None /\
  @analyze_position toy_chess (scripted_engine stuck_script) toy_position
    = Raise "TimeoutError".
Proof. repeat split; reflexivity. Qed.

(** C1, amended: when the engine starts, answers the probe, returns at
    least two ranked candidates whose scores resolve (mate scores at
    10000) and whose lines each start with a move that the board
    renders, and answers [quit], [analyze_position] returns a critical
    moment exactly when the gap between the two evaluations exceeds 100
    centipawns and the second evaluation is strictly between -50 and 50.
    The moment carries the position's FEN, move number and side, the two
    moves as rendered and the two scores as text; its [difference] is
    the float division of the gap by 100.0: a binary64 number nearest to
    gap/100 for a gap of at most 2^53, and in general nearest to g/100
    for [g] a binary64 number nearest to the gap. When the rule does not
    hold, [analyze_position] returns [None]. *)
Theorem critical_moment_iff `{EngineLib} (pd : PositionData Board)
    (s0 s2 s3 : Session) (probe : list InfoDict)
    (info0 info1 : InfoDict) (rest : list InfoDict) (pov1 pov2 : PovScore)
    (eval1 eval2 : Z) (mv1 mv2 : Move) (pv1 pv2 : list Move) (best second : string) :
  popen_uci STOCKFISH_PATH = Ok s0 ->
  analyse (pd_board pd) (3 # 10)%Q 1 (fst (configure_stockfish s0)) = (s2, Ok probe) ->
  probe <> [] ->
  analyse (pd_board pd) (1 # 2)%Q 3 s2 = (s3, Ok (info0 :: info1 :: rest)) ->
  info_score info0 = Some pov1 ->
  info_score info1 = Some pov2 ->
  score (white pov1) 10000 = Some eval1 ->
  score (white pov2) 10000 = Some eval2 ->
  info_pv info0 = Some (mv1 :: pv1) ->
  info_pv info1 = Some (mv2 :: pv2) ->
  san (pd_board pd) mv1 = Ok best ->
  san (pd_board pd) mv2 = Ok second ->
  snd (quit s3) = Ok tt ->
  let gap := Z.abs (eval1 - eval2) in
  ((exists r, analyze_position pd = Ok (Some r)) <-> 100 < gap /\ -50 < eval2 < 50) /\
  (forall r, analyze_position pd = Ok (Some r) ->
     fen r = board_fen (pd_board pd) /\
     move_number r = pd_move_number pd /\
     cm_turn r = pd_turn pd /\
     best_move r = best /\ best_move_eval r = score_str (white pov1) /\
     second_best_move r = second /\ second_best_move_eval r = score_str (white pov2) /\
     (exists g, nearest_binary64 (inject_Z gap) g /\
                nearest_binary64 (g / 100) (difference r)) /\
     (gap <= 2 ^ 53 -> nearest_binary64 (inject_Z gap / 100) (difference r))) /\
  (~ (100 < gap /\ -50 < eval2 < 50) -> analyze_position pd = Ok None).
Proof.
  intros Hopen Hprobe Hne Hlines Hs1 Hs2 He1 He2 Hp1 Hp2 Hb Hsn Hquit gap.
  assert (Hrun : analyze_position pd =
            if (100 <? gap) && ((-50 <? eval2) && (eval2 <? 50)) then
              Ok (Some {| fen := board_fen (pd_board pd);
                          move_number := pd_move_number pd;
                          cm_turn := pd_turn pd;
                          best_move := best;
                          best_move_eval := score_str (white pov1);
                          second_best_move := second;
                          second_best_move_eval := score_str (white pov2);
                          difference := int_div_float gap 100 |})
            else Ok None).
  { unfold analyze_position. rewrite Hopen, analyze_position_try_steps, Hprobe.
    destruct probe as [|p ps]; [contradiction|]. rewrite Hlines.
    rewrite (detect_resolved _ _ _ info0 info1 rest pov1 pov2 eval1 eval2)
      by assumption.
    rewrite Hp1, Hp2. cbn [getitem first mbind Exc_bind].
    rewrite Hb, Hsn. cbn [mbind Exc_bind]. fold gap.
    destruct (quit s3) as [s4 out]. cbn in Hquit. subst out.
    now destruct ((100 <? gap) && ((-50 <? eval2) && (eval2 <? 50))). }
  rewrite Hrun.
  destruct ((100 <? gap) && ((-50 <? eval2) && (eval2 <? 50))) eqn:Htest.
  - apply critical_test in Htest. fold gap in Htest.
    split; [split; [intros _; exact Htest | intros _; eexists; reflexivity] |].
    split; [| intros Hno; contradiction].
    intros r [= <-]. cbn.
    destruct (int_div_float_nearest gap 100) as [Hgeneral Hsmall];
      [subst gap; lia | reflexivity |].
    do 7 (split; [reflexivity|]). split; [exact Hgeneral | exact Hsmall].
  - assert (Hno : ~ (100 < gap /\ -50 < eval2 < 50)).
    { intros Hyes. apply critical_test in Hyes. fold gap in Hyes. congruence. }
    split; [split; [intros [r Hr]; discriminate | intros Hyes; contradiction] |].
    split; [intros r Hr; discriminate | reflexivity].
Qed.

Lemma critical_moment_iff_witness :
  exists r,
    @analyze_position toy_chess (scripted_engine sharp_script) toy_position
      = Ok (Some r) /\
    best_move r = "Nf3" /\
    nearest_binary64 (inject_Z 190 / 100) (difference r).
Proof.
  destruct (@critical_moment_iff toy_chess (scripted_engine sharp_script) toy_position
              tt tt tt [candidate 200 1]
              (candidate 200 1) (candidate 10 2) [candidate 0 3]
              200 10 200 10 1%nat 2%nat [] [] "Nf3" "Nf3"
              eq_refl eq_refl ltac:(discriminate) eq_refl eq_refl eq_refl eq_refl
              eq_refl eq_refl eq_refl eq_refl eq_refl eq_refl)
    as [[_ Hyes] [Hfields _]].
  destruct Hyes as [r Hr]; [simpl; lia |].
  exists r. split; [exact Hr |].
  destruct (Hfields r Hr) as (_ & _ & _ & Hbest & _ & _ & _ & _ & Hsmall).
  split; [exact Hbest|]. apply Hsmall. simpl. lia.
Defined.
